(** * bdix_sc: the IPTV scraper of [scraper.py], embedded in Rocq

    A shallow embedding of [IPTVScraper] (persistent channel numbering,
    listing parser, stream URL resolver, concurrent fan-out, playlist
    rendering) together with the properties of its specification, and of
    the code around it: [main], [save_json], [run_basic_scrape] of
    [quickstart.py] and the examples of [example_usage.py] that read the
    file [save_json] writes.

    Conventions of the embedding.
    - A Python [str] is a [string]; characters are the 8-bit [ascii] of the
      standard library, read as code points below 128.  Case folding,
      [\s] and [\d] are the ASCII ones.
    - A JSON value stored in the channel mapping is a [value]: a Python
      [int] or a Python [str].  [channel_mapping] is a [gmap] from names to
      values: the order of a [dict] plays no part in the code.
    - An exception is a value of [exn]; code that may raise returns a
      [result], and a [try] with [except Exception] is a match on it.
    - The fields of the scraper are threaded through the functions as a
      [scraper] record; its field [events] records the writes of the mapping
      file and the requests to the player endpoint, in order.
    - [self.channels] is a list of records; a record is identified by its
      position, and the order in which [as_completed] yields the futures is
      an argument of [scrape_streams].
    - Library code that is not part of the repository enters through
      parameters: [urljoin] is a function that may raise, a response of
      [requests] is given by the argument [get] or [net], and the channel
      list items BeautifulSoup finds in the listing are given as
      [li_item]s. *)

From Stdlib Require Import ZArith Lia List Ascii String Sorting.Sorted
  Sorting.Permutation.
From Stdlib Require Structures.OrderedTypeEx.
From stdpp Require Import base gmap strings pretty list fin_maps sorting.

Open Scope string_scope.
Open Scope Z_scope.

(* ===================================================================== *)
(** * Python values, exceptions and results *)
(* ===================================================================== *)

(** The values found under a key of [channel_mapping]: [json.load] yields an
    [int] or a [str] for the registry files of the specification, and
    [_assign_channel_number] stores [str(next_number)]. *)
Inductive value : Type :=
  | VInt (z : Z)
  | VStr (s : string).

Inductive exn : Type :=
  | TypeError
  | ValueError
  | Timeout             (* requests.exceptions.Timeout *)
  | ConnectionError     (* requests.exceptions.ConnectionError *)
  | HTTPError           (* requests.exceptions.HTTPError *)
  | OtherException.

(** The subclasses of [requests.exceptions.RequestException]. *)
Definition is_request_exception (e : exn) : bool :=
  match e with
  | Timeout | ConnectionError | HTTPError => true
  | _ => false
  end.

Inductive result (A : Type) : Type :=
  | Ok (a : A)
  | Raise (e : exn).
Arguments Ok {A} a.
Arguments Raise {A} e.

Global Instance result_ret : MRet result := fun _ a => Ok a.
Global Instance result_bind : MBind result := fun _ _ f r =>
  match r with
  | Ok a => f a
  | Raise e => Raise e
  end.

(** ** [str.lower], [str.startswith], [in] *)

Definition is_upper (c : ascii) : bool :=
  let n := nat_of_ascii c in ((65 <=? n) && (n <=? 90))%nat.

Definition lower_char (c : ascii) : ascii :=
  if is_upper c then ascii_of_nat (nat_of_ascii c + 32) else c.

Definition lower (s : list ascii) : list ascii := List.map lower_char s.

Fixpoint starts_with (p s : list ascii) : bool :=
  match p, s with
  | [], _ => true
  | a :: p', b :: s' => Ascii.eqb a b && starts_with p' s'
  | _ :: _, [] => false
  end.

(** [sub in s] *)
Fixpoint contains (sub s : list ascii) : bool :=
  starts_with sub s ||
  match s with
  | [] => false
  | _ :: s' => contains sub s'
  end.

Abbreviation chars := list_ascii_of_string.
Abbreviation text := string_of_list_ascii.

Definition str_lower (s : string) : string := text (lower (chars s)).
Definition str_startswith (s p : string) : bool := starts_with (chars p) (chars s).
Definition str_in (sub s : string) : bool := contains (chars sub) (chars s).

(** ** [int(v)] and [str(n)] *)

(** [str.isspace] on code points below 128. *)
Definition py_isspace (c : ascii) : bool :=
  let n := nat_of_ascii c in
  (((9 <=? n) && (n <=? 13)) || ((28 <=? n) && (n <=? 32)))%nat.

Definition digit_of (c : ascii) : option Z :=
  let n := nat_of_ascii c in
  if ((48 <=? n) && (n <=? 57))%nat then Some (Z.of_nat n - 48) else None.

Definition is_digit (c : ascii) : bool :=
  match digit_of c with Some _ => true | None => false end.

Fixpoint all_space (s : string) : bool :=
  match s with
  | EmptyString => true
  | String c s' => py_isspace c && all_space s'
  end.

Fixpoint lstrip (s : string) : string :=
  match s with
  | EmptyString => EmptyString
  | String c s' => if py_isspace c then lstrip s' else s
  end.

(** The digits of a decimal literal: digits with single underscores between
    them, then optional trailing white space.  [prev] says that the previous
    character was a digit. *)
Fixpoint int_digits (acc : Z) (prev : bool) (s : string) : option Z :=
  match s with
  | EmptyString => if prev then Some acc else None
  | String c s' =>
      match digit_of c with
      | Some d => int_digits (10 * acc + d) true s'
      | None =>
          if Ascii.eqb c "_" then
            if prev then int_digits acc false s' else None
          else if py_isspace c then
            if prev && all_space s' then Some acc else None
          else None
      end
  end.

(** [int(s)] for a [str] in base 10. *)
Definition int_of_str (s : string) : option Z :=
  match lstrip s with
  | String "-" r => Z.opp <$> int_digits 0 false r
  | String "+" r => int_digits 0 false r
  | r => int_digits 0 false r
  end.

(** [int(v)]: [None] stands for the [ValueError] of a malformed literal. *)
Definition int_of_value (v : value) : option Z :=
  match v with
  | VInt z => Some z
  | VStr s => int_of_str s
  end.

Definition py_int (v : value) : result Z :=
  match int_of_value v with
  | Some z => Ok z
  | None => Raise ValueError
  end.

(** [str(n)] for an [int]. *)
Definition py_str (n : Z) : string := pretty n.

(** Python's [==] between two such values: an [int] never equals a [str]. *)
Definition py_eq (a b : value) : bool :=
  match a, b with
  | VInt x, VInt y => Z.eqb x y
  | VStr x, VStr y => String.eqb x y
  | _, _ => false
  end.

(** Python's [<] between two such values; comparing an [int] with a [str]
    raises [TypeError]. *)
Definition py_lt (a b : value) : result bool :=
  match a, b with
  | VInt x, VInt y => Ok (Z.ltb x y)
  | VStr x, VStr y => Ok (String.ltb x y)
  | _, _ => Raise TypeError
  end.

(* ===================================================================== *)
(** * Identity registry: [channel_mapping] and [_assign_channel_number] *)
(* ===================================================================== *)

(** One step of [max(int(v) for v in self.channel_mapping.values())]:
    the accumulator is [Ok None] before the first value. *)
Definition max_step (_ : string) (v : value) (acc : result (option Z))
  : result (option Z) :=
  match acc with
  | Raise e => Raise e
  | Ok None => z ← py_int v; Ok (Some z)
  | Ok (Some a) => z ← py_int v; Ok (Some (Z.max a z))
  end.

Definition max_fold (m : gmap string value) : result (option Z) :=
  map_fold max_step (Ok None) m.

(** [max(int(v) for v in m.values())]; on an empty mapping [max] raises
    [ValueError]. *)
Definition max_int_values (m : gmap string value) : result Z :=
  match max_fold m with
  | Ok (Some z) => Ok z
  | Ok None => Raise ValueError
  | Raise e => Raise e
  end.

(** [_load_channel_mapping]: [file] is [None] when the mapping file does not
    exist, and otherwise the outcome of [json.load]; a mapping that cannot
    be loaded is replaced by the empty one. *)
Definition _load_channel_mapping (file : option (result (gmap string value)))
  : gmap string value :=
  match file with
  | Some (Ok m) => m
  | Some (Raise _) => ∅
  | None => ∅
  end.

(** [_assign_channel_number]: the result and the mapping afterwards. *)
Definition _assign_channel_number (m : gmap string value) (channel_name : string)
  : result value * gmap string value :=
  match m !! channel_name with
  | Some v => (Ok v, m)
  | None =>
      let next :=
        if bool_decide (m = ∅) then Ok 1
        else (mx ← max_int_values m; Ok (mx + 1)) in
      match next with
      | Ok next_number =>
          (Ok (VInt next_number), <[channel_name := VStr (py_str next_number)]> m)
      | Raise e => (Raise e, m)
      end
  end.


(* ===================================================================== *)
(** * Regular expressions: the fragment of [re] the scraper uses *)
(* ===================================================================== *)

(** Every pattern of [scraper.py] is a sequence of literals, character
    classes, greedy repetitions of a class and one optional character, with
    exactly one capturing group. *)
Inductive re_item : Type :=
  | Lit (s : string)              (* literal text *)
  | Cls (p : ascii -> bool)       (* one character of a class *)
  | Star (p : ascii -> bool)      (* class*, greedy *)
  | Plus (p : ascii -> bool)      (* class+, greedy *)
  | Opt (c : ascii).              (* c?, greedy *)

Record regex : Type := {
  re_pre : list re_item;      (* before the group *)
  re_group : list re_item;    (* inside the parentheses *)
  re_post : list re_item      (* after the group *)
}.

(** Character comparison; [ic] is [re.IGNORECASE]. *)
Definition char_eq (ic : bool) (a b : ascii) : bool :=
  if ic then Ascii.eqb (lower_char a) (lower_char b) else Ascii.eqb a b.

Section Matcher.
Context {R : Type}.

(** Backtracking matcher in continuation-passing style: [k] matches the
    rest of the pattern on the rest of the input. *)
Fixpoint m_lit (ic : bool) (l : list ascii) (k : list ascii -> option R)
    (s : list ascii) : option R :=
  match l with
  | [] => k s
  | a :: l' =>
      match s with
      | b :: s' => if char_eq ic a b then m_lit ic l' k s' else None
      | [] => None
      end
  end.

Fixpoint m_star (p : ascii -> bool) (k : list ascii -> option R)
    (s : list ascii) : option R :=
  match s with
  | c :: s' =>
      if p c then
        match m_star p k s' with
        | Some r => Some r
        | None => k s
        end
      else k s
  | [] => k []
  end.

Definition m_item (ic : bool) (it : re_item) (k : list ascii -> option R)
    (s : list ascii) : option R :=
  match it with
  | Lit l => m_lit ic (chars l) k s
  | Cls p =>
      match s with
      | c :: s' => if p c then k s' else None
      | [] => None
      end
  | Star p => m_star p k s
  | Plus p =>
      match s with
      | c :: s' => if p c then m_star p k s' else None
      | [] => None
      end
  | Opt c =>
      match s with
      | b :: s' =>
          if char_eq ic c b then
            match k s' with
            | Some r => Some r
            | None => k s
            end
          else k s
      | [] => k []
      end
  end.

Definition m_items (ic : bool) (its : list re_item)
    (k : list ascii -> option R) : list ascii -> option R :=
  fold_right (m_item ic) k its.
End Matcher.

(** A match anchored at the head of [s]: the text of group 1 and the number
    of characters consumed. *)
Definition re_match (ic : bool) (re : regex) (s : list ascii)
  : option (list ascii * nat) :=
  m_items ic (re_pre re) (fun s1 =>
    m_items ic (re_group re) (fun s2 =>
      m_items ic (re_post re) (fun s3 =>
        Some (firstn (length s1 - length s2) s1, (length s - length s3)%nat))
      s2) s1) s.

(** [re.search(re, s).group(1)], or [None]. *)
Fixpoint search_chars (ic : bool) (re : regex) (s : list ascii)
  : option (list ascii) :=
  match re_match ic re s with
  | Some (g, _) => Some g
  | None =>
      match s with
      | [] => None
      | _ :: s' => search_chars ic re s'
      end
  end.

(** [re.findall(re, s)] for a pattern with one group: the group of every
    match, left to right, matches not overlapping.  [skip] counts the
    characters still covered by the previous match. *)
Fixpoint findall_chars (ic : bool) (re : regex) (skip : nat) (s : list ascii)
  : list (list ascii) :=
  match skip with
  | S n =>
      match s with
      | [] => []
      | _ :: s' => findall_chars ic re n s'
      end
  | O =>
      match re_match ic re s with
      | Some (g, n) =>
          g :: match s with
               | [] => []
               | _ :: s' => findall_chars ic re (n - 1) s'
               end
      | None =>
          match s with
          | [] => []
          | _ :: s' => findall_chars ic re 0 s'
          end
      end
  end.

Definition re_search (ic : bool) (re : regex) (s : string) : option string :=
  text <$> search_chars ic re (chars s).

Definition re_findall (ic : bool) (re : regex) (s : string) : list string :=
  text <$> findall_chars ic re 0 (chars s).

(** ** Character classes *)

Definition dquote : ascii := "034"%char.
Definition squote : ascii := "039"%char.

Definition is_quote (c : ascii) : bool :=
  Ascii.eqb c dquote || Ascii.eqb c squote.
(** [[^Q]], where [Q] stands for the double and the single quote. *)
Definition not_quote (c : ascii) : bool := negb (is_quote c).
(** [[^>]] *)
Definition not_gt (c : ascii) : bool := negb (Ascii.eqb c ">").
(** [[^<>\s]] *)
Definition not_angle_space (c : ascii) : bool :=
  negb (Ascii.eqb c "<" || Ascii.eqb c ">" || py_isspace c).

(** ** The patterns

    In the comments the tokens of a pattern are separated by blanks and [Q]
    abbreviates the class of the two quote characters (a double quote and an
    escaped single quote in the source). *)

(** [( [^Q]* \.m3u8 [^Q]* )], the group shared by patterns 1 to 4 and 6. *)
Definition m3u8_group : list re_item :=
  [Star not_quote; Lit ".m3u8"; Star not_quote].

(** [stream= ( \d+ )] *)
Definition stream_re : regex :=
  {| re_pre := [Lit "stream="]; re_group := [Plus is_digit]; re_post := [] |}.

(** Pattern 1, direct m3u8 in a src attribute:
    [src= [Q] ( [^Q]* \.m3u8 [^Q]* ) [Q]] *)
Definition pattern_1 : regex :=
  {| re_pre := [Lit "src="; Cls is_quote];
     re_group := m3u8_group; re_post := [Cls is_quote] |}.

(** Pattern 2, HLS.js configuration:
    [src \s* : \s* [Q] ( [^Q]* \.m3u8 [^Q]* ) [Q]] *)
Definition pattern_2 : regex :=
  {| re_pre := [Lit "src"; Star py_isspace; Lit ":"; Star py_isspace; Cls is_quote];
     re_group := m3u8_group; re_post := [Cls is_quote] |}.

(** Pattern 3, Video.js sources:
    [<source [^>]+ src= [Q] ( [^Q]* \.m3u8 [^Q]* ) [Q]] *)
Definition pattern_3 : regex :=
  {| re_pre := [Lit "<source"; Plus not_gt; Lit "src="; Cls is_quote];
     re_group := m3u8_group; re_post := [Cls is_quote] |}.

(** Pattern 4, quoted URLs anywhere: [[Q] ( [^Q]* \.m3u8 [^Q]* ) [Q]] *)
Definition pattern_4 : regex :=
  {| re_pre := [Cls is_quote];
     re_group := m3u8_group; re_post := [Cls is_quote] |}.

(** Pattern 5, unquoted m3u8 URLs:
    [( http s? :// [^<>\s]+ \.m3u8 [^<>\s]* )] *)
Definition pattern_5 : regex :=
  {| re_pre := [];
     re_group := [Lit "http"; Opt "s"; Lit "://"; Plus not_angle_space;
                  Lit ".m3u8"; Star not_angle_space];
     re_post := [] |}.

(** Pattern 6, data attributes:
    [data-src= [Q] ( [^Q]* \.m3u8 [^Q]* ) [Q]] *)
Definition pattern_6 : regex :=
  {| re_pre := [Lit "data-src="; Cls is_quote];
     re_group := m3u8_group; re_post := [Cls is_quote] |}.

(** Pattern 7, iframe src: [<iframe [^>]+ src= [Q] ( [^Q]* ) [Q] [^>]* >] *)
Definition pattern_7 : regex :=
  {| re_pre := [Lit "<iframe"; Plus not_gt; Lit "src="; Cls is_quote];
     re_group := [Star not_quote];
     re_post := [Cls is_quote; Star not_gt; Lit ">"] |}.

Definition m3u8_patterns : list regex :=
  [pattern_1; pattern_2; pattern_3; pattern_4; pattern_5; pattern_6; pattern_7].

(** [<iframe [^>]+ src= [Q] ( [^Q]+ ) [Q]], searched without flags. *)
Definition iframe_re : regex :=
  {| re_pre := [Lit "<iframe"; Plus not_gt; Lit "src="; Cls is_quote];
     re_group := [Plus not_quote]; re_post := [Cls is_quote] |}.



(* ===================================================================== *)
(** * Data model *)
(* ===================================================================== *)

(** A channel list item as [parse_html] reads it through BeautifulSoup:
    [link] is [channel_item.find('a', class_='channel')], [img] is
    [channel_item.find('img')]; an attribute that is not there is [None]. *)
Record anchor : Type := { onclick : option string }.
Record image : Type := { alt : option string; src : option string }.
Record li_item : Type := { link : option anchor; img : option image }.

(** The dictionary [channel_info]. *)
Record channel_info : Type := {
  number : value;
  name : string;
  stream_id : string;
  logo : string;
  m3u8_url : option string
}.

Definition set_m3u8_url (ch : channel_info) (u : option string) : channel_info :=
  {| number := number ch; name := name ch; stream_id := stream_id ch;
     logo := logo ch; m3u8_url := u |}.

(** What the outside world sees of a run. *)
Inductive event : Type :=
  | SaveMapping (m : gmap string value)       (* [_save_channel_mapping] *)
  | PlayerRequest (idx : nat) (url : string). (* the GET of [fetch_m3u8_url] *)

(** The fields of [IPTVScraper] the core uses, and the trace of its effects. *)
Record scraper : Type := {
  base_url : string;
  channel_mapping : gmap string value;
  channels : list channel_info;
  events : list event
}.

(** [base_url.rstrip('/')] *)
Fixpoint rstrip_slash (s : string) : string :=
  match s with
  | EmptyString => EmptyString
  | String c s' =>
      match rstrip_slash s' with
      | EmptyString => if Ascii.eqb c "/" then EmptyString else String c EmptyString
      | r => String c r
      end
  end.

(** [IPTVScraper.__init__] *)
Definition IPTVScraper (url : string) (file : option (result (gmap string value)))
  : scraper :=
  {| base_url := rstrip_slash url;
     channel_mapping := _load_channel_mapping file;
     channels := [];
     events := [] |}.

(** A [requests] response. *)
Record response : Type := { status_code : Z; body : string }.

Definition nl : string := String "010"%char EmptyString.
Definition dq : string := String dquote EmptyString.

(* ===================================================================== *)
(** * URL resolver: [fetch_m3u8_url] *)
(* ===================================================================== *)

Definition exclusions : list string := ["css"; "js"; "icon"; "logo"; "image"].

(** [any(exclude in url.lower() for exclude in [...])] *)
Definition excluded (url : string) : bool :=
  existsb (fun exclude => str_in exclude (str_lower url)) exclusions.

(** [response.raise_for_status()] *)
Definition raise_for_status (r : response) : result unit :=
  if ((400 <=? status_code r) && (status_code r <? 600))%Z
  then Raise HTTPError else Ok tt.

Section Resolver.
(** [urllib.parse.urljoin]; [None] when it raises [ValueError]. *)
Variable urljoin : string -> string -> option string.

Definition py_urljoin (base url : string) : result string :=
  match urljoin base url with
  | Some u => Ok u
  | None => Raise ValueError
  end.

(** The body of the inner loop for one match: [Ok None] is [continue] (or
    a match that fails the first test), [Ok (Some u)] is [return u]. *)
Definition try_match (base url : string) : result (option string) :=
  if str_in ".m3u8" (str_lower url) || str_in "stream" (str_lower url)
     || str_startswith url "http"
  then
    url' ← (if negb (str_startswith url "http") then py_urljoin base url
            else Ok url);
    if excluded url' then Ok None else Ok (Some url')
  else Ok None.

Fixpoint scan_matches (base : string) (matches : list string)
  : result (option string) :=
  match matches with
  | [] => Ok None
  | url :: rest =>
      r ← try_match base url;
      match r with
      | Some u => Ok (Some u)
      | None => scan_matches base rest
      end
  end.

Fixpoint scan_patterns (base : string) (patterns : list regex)
    (html_content : string) : result (option string) :=
  match patterns with
  | [] => Ok None
  | pattern :: rest =>
      r ← scan_matches base (re_findall true pattern html_content);
      match r with
      | Some u => Ok (Some u)
      | None => scan_patterns base rest html_content
      end
  end.

(** The last resort after the loop. *)
Definition iframe_fallback (base html_content : string)
  : result (option string) :=
  match re_search false iframe_re html_content with
  | Some iframe_src =>
      u ← (if negb (str_startswith iframe_src "http")
           then py_urljoin base iframe_src else Ok iframe_src);
      Ok (Some u)
  | None => Ok None
  end.

(** The [try] block after the request. *)
Definition extract_url (base html_content : string) : result (option string) :=
  r ← scan_patterns base m3u8_patterns html_content;
  match r with
  | Some u => Ok (Some u)
  | None => iframe_fallback base html_content
  end.

Definition player_url (base stream_number : string) : string :=
  base ++ "/player.php?stream=" ++ stream_number.

(** The [try] block of [fetch_m3u8_url]; [get] is [self.session.get] with
    the timeout applied: it returns a response or raises. *)
Definition fetch_attempt (base : string) (get : string -> result response)
    (stream_number : string) : result (option string) :=
  response ← get (player_url base stream_number);
  _ ← raise_for_status response;
  extract_url base (body response).

(** [fetch_m3u8_url]: the clause [except RequestException] and the clause
    [except Exception] both return [None]. *)
Definition fetch_m3u8_url (base : string) (get : string -> result response)
    (stream_number : string) : option string :=
  match fetch_attempt base get stream_number with
  | Ok r => r
  | Raise e => if is_request_exception e then None else None
  end.

(* =================================================================== *)
(** * Listing parser: [parse_html] *)
(* =================================================================== *)

(** One iteration of the loop over [channels_list], with its
    [try]/[except Exception: continue]. *)
Definition parse_item (s : scraper) (channel_item : li_item) : scraper :=
  match link channel_item with
  | None => s
  | Some a =>
      match re_search false stream_re (default "" (onclick a)) with
      | None => s
      | Some stream_number =>
          match img channel_item with
          | None => s
          | Some i =>
              let channel_name := default ("Channel " ++ stream_number) (alt i) in
              let logo_src := default "" (src i) in
              match py_urljoin (base_url s) logo_src with
              | Raise _ => s
              | Ok logo_url =>
                  match _assign_channel_number (channel_mapping s) channel_name with
                  | (Raise _, m) =>
                      {| base_url := base_url s; channel_mapping := m;
                         channels := channels s; events := events s |}
                  | (Ok channel_number, m) =>
                      let channel_info :=
                        {| number := channel_number; name := channel_name;
                           stream_id := stream_number; logo := logo_url;
                           m3u8_url := None |} in
                      {| base_url := base_url s; channel_mapping := m;
                         channels := channels s ++ [channel_info];
                         events := events s |}
                  end
              end
          end
      end
  end.

Definition parse_items (s : scraper) (channels_list : list li_item) : scraper :=
  fold_left parse_item channels_list s.

(** [list.sort(key=lambda x: x['number'])]: a stable sort that compares
    keys with [<] only; a comparison that raises aborts the sort. *)
Fixpoint insert_by_number (x : channel_info) (l : list channel_info)
  : result (list channel_info) :=
  match l with
  | [] => Ok [x]
  | y :: l' =>
      b ← py_lt (number y) (number x);
      if b : bool then (r ← insert_by_number x l'; Ok (y :: r))
      else Ok (x :: y :: l')
  end.

Fixpoint sort_by_number (l : list channel_info) : result (list channel_info) :=
  match l with
  | [] => Ok []
  | x :: l' => r ← sort_by_number l'; insert_by_number x r
  end.

(** [_save_channel_mapping]: the whole mapping is written; a failure to
    write is caught and only printed. *)
Definition _save_channel_mapping (s : scraper) : scraper :=
  {| base_url := base_url s; channel_mapping := channel_mapping s;
     channels := channels s;
     events := events s ++ [SaveMapping (channel_mapping s)] |}.

(** [parse_html]. [listing] is the outcome of obtaining the document and of
    [soup.find_all('li', ...)]: [Raise] when the document could not be
    fetched.  A sort that raises leaves [self.channels] with the same
    records in an order Python does not specify; the model keeps the order
    they had. *)
Definition parse_html (s : scraper) (listing : result (list li_item))
  : result unit * scraper :=
  match listing with
  | Raise e => (Raise e, s)
  | Ok channels_list =>
      let s1 := parse_items s channels_list in
      match sort_by_number (channels s1) with
      | Raise e => (Raise e, s1)
      | Ok sorted =>
          (Ok tt,
           _save_channel_mapping
             {| base_url := base_url s1; channel_mapping := channel_mapping s1;
                channels := sorted; events := events s1 |})
      end
  end.

(* =================================================================== *)
(** * Fan-out coordinator: [scrape_streams] *)
(* =================================================================== *)

(** The tasks submitted to the pool, in submission order: the progress
    index (from 1) and the stream id of each channel. *)
Definition submitted (chs : list channel_info) : list (nat * string) :=
  imap (fun i ch => (S i, stream_id ch)) chs.

(** [future.result()] of every task; [net idx] answers the request of the
    task with progress index [idx]. *)
Definition futures (base : string) (net : nat -> string -> result response)
    (chs : list channel_info) : list (result (option string)) :=
  (fun t => Ok (fetch_m3u8_url base (net (fst t)) (snd t))) <$> submitted chs.

(** The body of the loop over [as_completed]: the channel of the future at
    position [i] receives its result; a result that raises is only
    printed. *)
Definition collect_one (fs : list (result (option string)))
    (chs : list channel_info) (i : nat) : list channel_info :=
  match fs !! i, chs !! i with
  | Some (Ok m3u8_url), Some channel => <[i := set_m3u8_url channel m3u8_url]> chs
  | _, _ => chs
  end.

Definition collect (fs : list (result (option string)))
    (completion : list nat) (chs : list channel_info) : list channel_info :=
  fold_left (collect_one fs) completion chs.

(** [scrape_streams]. [completion] is the order in which [as_completed]
    yields the futures (positions in submission order). *)
Definition scrape_streams (s : scraper) (listing : result (list li_item))
    (fetch_urls : bool) (net : nat -> string -> result response)
    (completion : list nat) : result (list channel_info) * scraper :=
  match parse_html s listing with
  | (Raise e, s1) => (Raise e, s1)
  | (Ok _, s1) =>
      if fetch_urls then
        let fs := futures (base_url s1) net (channels s1) in
        let requests :=
          (fun t => PlayerRequest (fst t) (player_url (base_url s1) (snd t)))
            <$> submitted (channels s1) in
        let chs := collect fs completion (channels s1) in
        (Ok chs,
         {| base_url := base_url s1; channel_mapping := channel_mapping s1;
            channels := chs; events := events s1 ++ requests |})
      else (Ok (channels s1), s1)
  end.
End Resolver.

(* ===================================================================== *)
(** * Playlist rendering *)
(* ===================================================================== *)

(** Truth value of [channel['m3u8_url']]. *)
Definition truthy (u : option string) : bool :=
  match u with
  | Some (String _ _) => true
  | _ => false
  end.

Definition extinf (ch : channel_info) : string :=
  "#EXTINF:-1 tvg-logo=" ++ dq ++ logo ch ++ dq ++ ", " ++ name ch ++ nl.

(** The lines [save_m3u] writes for one channel. *)
Definition m3u_entry (ch : channel_info) : string :=
  if truthy (m3u8_url ch)
  then extinf ch ++ default "" (m3u8_url ch) ++ nl
  else "".

(** Successive [f.write] calls, or [+=] on a [str]. *)
Definition written (parts : list string) : string :=
  fold_right String.append "" parts.

(** The text [save_m3u] writes. *)
Definition save_m3u (chs : list channel_info) : string :=
  "#EXTM3U" ++ nl ++ written (m3u_entry <$> chs).

(** [f"{v}"] *)
Definition format_value (v : value) : string :=
  match v with
  | VInt z => py_str z
  | VStr s => s
  end.

(** [example_usage.py], [example_5_create_m3u_from_json]: the lines appended
    to [m3u_content] for one channel. *)
Definition example_5_entry (ch : channel_info) : string :=
  if truthy (m3u8_url ch)
  then extinf ch ++ default "" (m3u8_url ch) ++ nl
  else extinf ch ++ "http://example.com/stream/" ++ format_value (number ch) ++ nl.

(** [m3u_content] of [example_5_create_m3u_from_json]. *)
Definition example_5_m3u_content (chs : list channel_info) : string :=
  "#EXTM3U" ++ nl ++ written (example_5_entry <$> chs).

(* ===================================================================== *)
(** * Vocabulary of the properties *)
(* ===================================================================== *)

(** The integer a value stands for is [int_of_value]. A registry is well
    formed when every value stands for an integer. *)
Definition registry_wf (m : gmap string value) : Prop :=
  ∀ k v, m !! k = Some v → is_Some (int_of_value v).

(** Distinct names never share a number. *)
Definition registry_inj (m : gmap string value) : Prop :=
  ∀ k1 k2 v1 v2 z,
    m !! k1 = Some v1 → m !! k2 = Some v2 →
    int_of_value v1 = Some z → int_of_value v2 = Some z → k1 = k2.

(** What [max_fold] computes, whatever the order in which the values of the
    mapping are visited. *)
Definition max_fold_post (r : result (option Z)) (m : gmap string value) : Prop :=
  match r with
  | Ok None => m = ∅
  | Ok (Some mx) =>
      (∀ k v, m !! k = Some v → ∃ z, int_of_value v = Some z ∧ z ≤ mx) ∧
      (∃ k v, m !! k = Some v ∧ int_of_value v = Some mx)
  | Raise e =>
      e = ValueError ∧ ∃ k v, m !! k = Some v ∧ int_of_value v = None
  end.

(** A sequence of calls of [_assign_channel_number], threading the mapping:
    the results in call order and the final mapping. *)
Fixpoint assign_all (m : gmap string value) (names : list string)
  : list (result value) * gmap string value :=
  match names with
  | [] => ([], m)
  | n :: rest =>
      let '(r, m1) := _assign_channel_number m n in
      let '(rs, m2) := assign_all m1 rest in
      (r :: rs, m2)
  end.

(** The stream token of a list item: group 1 of [stream=(\d+)] in the
    [onclick] attribute of its anchor. *)
Definition stream_token (it : li_item) : option string :=
  a ← link it; re_search false stream_re (default "" (onclick a)).

(** The display name a list item carries: the [alt] text of its image. *)
Definition display_name (it : li_item) : option string :=
  i ← img it; alt i.

(** The record [parse_html] builds for a list item. *)
Definition parsed_record (v : value) (display token logo_url : string)
  : channel_info :=
  {| number := v; name := display; stream_id := token; logo := logo_url;
     m3u8_url := None |}.

(** A channel whose number is a Python [int], and that [int]. *)
Definition int_numbered (ch : channel_info) : Prop := ∃ z, number ch = VInt z.
Definition str_numbered (ch : channel_info) : Prop := ∃ t, number ch = VStr t.
Definition int_key (ch : channel_info) : Z :=
  match number ch with
  | VInt z => z
  | VStr _ => 0
  end.
Definition key_le (a b : channel_info) : Prop := int_key a ≤ int_key b.

(** The number a channel carries, as an integer. *)
Definition number_of (ch : channel_info) : option Z := int_of_value (number ch).

(** The catalog order of the specification: strictly ascending numbers. *)
Definition strictly_ascending (chs : list channel_info) : Prop :=
  ∀ i j a b, (i < j)%nat → chs !! i = Some a → chs !! j = Some b →
    ∃ x y, number_of a = Some x ∧ number_of b = Some y ∧ x < y.

(** A channel agrees with the registry when the entry of its name stands for
    the same integer as its number. *)
Definition linked (m : gmap string value) (ch : channel_info) : Prop :=
  ∃ v, m !! name ch = Some v ∧ int_of_value v = int_of_value (number ch).

(** The channel a future gives back to its record. *)
Definition resolved_channel (fs : list (result (option string))) (i : nat)
    (ch : channel_info) : channel_info :=
  match fs !! i with
  | Some (Ok u) => set_m3u8_url ch u
  | _ => ch
  end.

(** ** What a match of a pattern looks like *)

(** The texts one item matches. *)
Definition item_sem (ic : bool) (it : re_item) (a : list ascii) : Prop :=
  match it with
  | Lit l => Forall2 (fun x y => char_eq ic x y = true) (chars l) a
  | Cls p => ∃ c, a = [c] ∧ p c = true
  | Star p => forallb p a = true
  | Plus p => a ≠ [] ∧ forallb p a = true
  | Opt c => a = [] ∨ ∃ b, a = [b] ∧ char_eq ic c b = true
  end.

(** The texts a sequence of items matches. *)
Fixpoint items_sem (ic : bool) (its : list re_item) (a : list ascii) : Prop :=
  match its with
  | [] => a = []
  | it :: its' =>
      ∃ a1 a2, a = (a1 ++ a2)%list ∧ item_sem ic it a1 ∧ items_sem ic its' a2
  end.

(** The least number of characters a match takes. *)
Definition item_min (it : re_item) : nat :=
  match it with
  | Lit l => length (chars l)
  | Cls _ | Plus _ => 1
  | Star _ | Opt _ => 0
  end.

Definition items_min (its : list re_item) : nat :=
  fold_right (fun it n => (item_min it + n)%nat) 0%nat its.

(** A pattern that asks for some text, then a quoted group. *)
Definition quoted_after_text (re : regex) : Prop :=
  ∃ front back,
    re_pre re = (front ++ [Cls is_quote])%list ∧ (1 ≤ items_min front)%nat ∧
    re_post re = Cls is_quote :: back.

(** The number of quote characters of a text. *)
Fixpoint quotes (l : list ascii) : nat :=
  match l with
  | [] => 0
  | c :: l' => ((if is_quote c then 1 else 0) + quotes l')%nat
  end.

(** ** Response bodies that are one quoted URL of a stylesheet or script *)

(** A character of a URL: no quote, no angle bracket, no white space. *)
Definition url_char (c : ascii) : bool :=
  negb (is_quote c || Ascii.eqb c "<" || Ascii.eqb c ">" || py_isspace c).

Definition asset_extension (e : list ascii) : Prop :=
  e = chars ".css" ∨ e = chars ".js".

(** The text [u] between the quotes [q1] and [q2]. *)
Definition quoted (q1 : ascii) (u : list ascii) (q2 : ascii) : list ascii :=
  q1 :: u ++ [q2].

(** The body is a quote, a URL that ends in [.css] or [.js], and a quote. *)
Definition quoted_asset_body (html : string) : Prop :=
  ∃ q1 q2 u e,
    html = text (quoted q1 u q2) ∧
    is_quote q1 = true ∧ is_quote q2 = true ∧
    forallb url_char u = true ∧
    asset_extension e ∧ e `suffix_of` u.

(** The end of a candidate cut out of such a body: the extension, or the
    extension and the closing quote. *)
Definition asset_tail (t : list ascii) : Prop :=
  ∃ e, asset_extension e ∧
       (t = e ∨ ∃ q, is_quote q = true ∧ t = (e ++ [q])%list).

(** What the properties need of [urljoin]: a reference that ends in [.css]
    or [.js], or in one of them and a quote, is joined to a URL with the same
    end. *)
Definition urljoin_keeps_tail (urljoin : string -> string -> option string)
  : Prop :=
  ∀ base ref res t,
    urljoin base ref = Some res → asset_tail t →
    t `suffix_of` chars ref → t `suffix_of` chars res.

(** A stand-in for [urljoin] in the examples: a reference that starts with
    http is kept, any other reference is appended to the base after a
    slash. *)
Definition join_demo (base ref : string) : option string :=
  if str_startswith ref "http" then Some ref else Some (base ++ "/" ++ ref).

(** A list item with a token, a display name and a logo, for the examples. *)
Definition item_demo (token : string) (display : option string) : li_item :=
  {| link := Some {| onclick := Some ("play('player.php?stream=" ++ token ++ "')") |};
     img := Some {| alt := display; src := Some "logo.png" |} |}.

(** A scraper as [__init__] leaves it, with the default base URL and the
    mapping [m] loaded from the mapping file. *)
Definition init_demo (m : gmap string value) : scraper :=
  IPTVScraper "http://103.144.89.251" (Some (Ok m)).

Definition returned (names : list string) : list (result value) :=
  fst (assign_all ∅ names).
Definition registry_after (names : list string) : gmap string value :=
  snd (assign_all ∅ names).

(* ===================================================================== *)
(** * Vocabulary of the further properties *)
(* ===================================================================== *)

(** What the guards of one iteration of [parse_html] let through: the
    display name, the stream token and the logo URL of the list item, or
    [None] when the item is skipped before a number is asked for. *)
Definition accepted_item (urljoin : string -> string -> option string)
    (base : string) (it : li_item) : option (string * string * string) :=
  a ← link it;
  tok ← re_search false stream_re (default "" (onclick a));
  i ← img it;
  l ← urljoin base (default "" (src i));
  Some (default ("Channel " ++ tok)%string (alt i), tok, l).

Definition accepted_name (x : string * string * string) : string := x.1.1.

(** The records of the accepted items, given what [_assign_channel_number]
    returned for each of them: an item whose call raised leaves no record. *)
Fixpoint records (acc : list (string * string * string))
    (rs : list (result value)) : list channel_info :=
  match acc, rs with
  | (n, tok, l) :: acc', Ok v :: rs' => parsed_record v n tok l :: records acc' rs'
  | _ :: acc', Raise _ :: rs' => records acc' rs'
  | _, _ => []
  end.

(** A name on which a call of [_assign_channel_number] changes nothing: it is
    in the mapping, or the mapping holds a value that is no integer (and the
    call for a new name raises). *)
Definition settled (m : gmap string value) (n : string) : Prop :=
  is_Some (m !! n) ∨ ∃ k v, m !! k = Some v ∧ int_of_value v = None.

(** The numbers of the mapping are 1, 2, ..., up to the number of its
    names. *)
Definition dense (m : gmap string value) : Prop :=
  (∀ n v, m !! n = Some v →
     ∃ z, int_of_value v = Some z ∧ 1 ≤ z ≤ Z.of_nat (size m)) ∧
  (∀ z, 1 ≤ z ≤ Z.of_nat (size m) →
     ∃ n v, m !! n = Some v ∧ int_of_value v = Some z).


(** A stream token as [stream=(\d+)] captures it: digits, at least one. *)
Definition token_ok (tok : string) : Prop :=
  tok ≠ "" ∧ forallb is_digit (chars tok) = true.

(** The three fields of a record that come from the list item. *)
Definition item_fields (ch : channel_info) : string * string * string :=
  (name ch, stream_id ch, logo ch).

(** ** JSON values and [save_json] *)

(** What [json.dump] writes and [json.load] reads back; an object is the
    list of its keys and values in insertion order. *)
#[warnings="-register-all"]
Inductive json : Type :=
  | JNull
  | JInt (z : Z)
  | JStr (s : string)
  | JList (l : list json)
  | JObj (fields : list (string * json)).

Definition value_json (v : value) : json :=
  match v with
  | VInt z => JInt z
  | VStr s => JStr s
  end.

(** The dictionary [channel_info] as a JSON object. *)
Definition channel_json (ch : channel_info) : json :=
  JObj [("number", value_json (number ch));
        ("name", JStr (name ch));
        ("stream_id", JStr (stream_id ch));
        ("logo", JStr (logo ch));
        ("m3u8_url", match m3u8_url ch with Some u => JStr u | None => JNull end)].

Definition disclaimer : string :=
  "We do not host or serve any content. All content belongs to their respective owners.".

(** [output_data] of [save_json]; [timestamp] is the formatted current
    time. *)
Definition output_data (timestamp : string) (chs : list channel_info) : json :=
  JObj [("_metadata", JObj [("created", JStr timestamp);
                            ("disclaimer", JStr disclaimer)]);
        ("channels", JList (channel_json <$> chs))].

(** The summary [save_json] prints: total, working and failed streams. *)
Definition working_streams (chs : list channel_info) : nat :=
  length (List.filter (fun c => truthy (m3u8_url c)) chs).

Definition failed_streams (chs : list channel_info) : nat :=
  (length chs - working_streams chs)%nat.

(** [save_json]: the document written and the summary printed. *)
Definition save_json (timestamp : string) (chs : list channel_info)
  : json * (nat * nat * nat) :=
  (output_data timestamp chs,
   (length chs, working_streams chs, failed_streams chs)).

(** ** Which runs the sort lets through *)

(** A registry as [_assign_channel_number] writes it: every value a [str]. *)
Definition str_valued (m : gmap string value) : Prop :=
  ∀ k v, m !! k = Some v → ∃ t, v = VStr t.

(** The names of the items of a listing that pass the guards of the loop,
    in the order of the listing. *)
Definition listed_names (urljoin : string -> string -> option string)
    (s : scraper) (items : list li_item) : list string :=
  accepted_name <$> omap (accepted_item urljoin (base_url s)) items.

(** The listings whose channels all get numbers of one type: every name is
    in the registry, or every name is new and none is listed twice. *)
Definition one_kind (m : gmap string value) (names : list string) : Prop :=
  (∀ n, n ∈ names → is_Some (m !! n)) ∨
  (NoDup names ∧ ∀ n, n ∈ names → m !! n = None).


(** ** The mapping file between two sessions *)

(** What the mapping file holds after the events of a session: the mapping
    of the last [_save_channel_mapping], or what it held before when the
    session wrote none.  [json.dump] followed by [json.load] gives back a
    mapping of strings to [int]s and [str]s as it was. *)
Definition mapping_file_after (file : option (result (gmap string value)))
    (evs : list event) : option (result (gmap string value)) :=
  fold_left (fun f e => match e with
                        | SaveMapping m => Some (Ok m)
                        | PlayerRequest _ _ => f
                        end) evs file.


(** ** Pages with the stream URL in a [src] attribute *)

(** A page in which the text [pre] is followed by [src=], a quote, the text
    [u], a quote, and the text [post]. *)
Definition src_page (pre : list ascii) (q : ascii) (u : list ascii)
    (q' : ascii) (post : list ascii) : string :=
  text (pre ++ chars "src=" ++ q :: u ++ q' :: post)%list.

(** [".m3u8" in s.lower()] on the characters of [s]. *)
Definition mentions_m3u8 (s : list ascii) : bool :=
  contains (chars ".m3u8") (lower s).


(** ** The order of numbers that are strings *)

(** The number of a channel that carries a [str]. *)
Definition str_key (ch : channel_info) : string :=
  match number ch with
  | VStr t => t
  | VInt _ => ""
  end.

(** Python's [<=] between two [str]s: the order of the code points, in
    which [10] comes before [2]. *)
Definition str_le (a b : string) : Prop := (b <? a)%string = false.


(** ** The catalog of a first run *)

(** The records of the accepted items of a listing, numbered 1, 2, 3, ...
    in the order of the listing. *)
Definition numbered_from (k : nat) (acc : list (string * string * string))
  : list channel_info :=
  imap (fun i x => parsed_record (VInt (Z.of_nat (k + i) + 1)) x.1.1 x.1.2 x.2)
    acc.

Definition numbered_in_order (acc : list (string * string * string))
  : list channel_info := numbered_from 0 acc.


(* ===================================================================== *)
(** * The command line of [scraper.py]: [main] *)
(* ===================================================================== *)

(** [main]: [url] and [fetch] are the options [--url] and [--fetch] or
    [--no-fetch]; the mapping file, the listing, the network, the order of
    completion and the clock are the outside world.  It returns the
    documents written to the JSON file and to the playlist. *)
Definition main (urljoin : string -> string -> option string) (url : string)
    (file : option (result (gmap string value)))
    (listing : result (list li_item)) (fetch : bool)
    (net : nat -> string -> result response) (completion : list nat)
    (timestamp : string) : result (json * string) * scraper :=
  let scraper := IPTVScraper url file in
  match scrape_streams urljoin scraper listing fetch net completion with
  | (Raise e, s) => (Raise e, s)
  | (Ok _, s) =>
      (Ok (fst (save_json timestamp (channels s)), save_m3u (channels s)), s)
  end.

(* ===================================================================== *)
(** * [quickstart.py]: [run_basic_scrape] *)
(* ===================================================================== *)

Definition default_base_url : string := "http://103.144.89.251".

(** The network of a run with [fetch_urls=False]: no request is made. *)
Definition no_network (idx : nat) (url : string) : result response :=
  Raise ConnectionError.

Definition spaces (n : nat) : string := text (repeat " "%char n).

(** [f"{v:3d}"]: an [int] is right-aligned in three columns; the format
    code [d] on a [str] raises [ValueError]. *)
Definition format_3d (v : value) : result string :=
  match v with
  | VInt z => Ok (spaces (3 - String.length (py_str z)) ++ py_str z)
  | VStr _ => Raise ValueError
  end.

(** One line of the listing of the first channels. *)
Definition channel_line (i : nat) (channel : channel_info) : result string :=
  n ← format_3d (number channel);
  Ok ("  " ++ py_str (Z.of_nat i) ++ ". [" ++ n ++ "] " ++ name channel).

(** The loop over [enumerate(channels[:5], 1)]. *)
Fixpoint channel_lines (i : nat) (chs : list channel_info)
  : result (list string) :=
  match chs with
  | [] => Ok []
  | channel :: rest =>
      l ← channel_line i channel;
      ls ← channel_lines (S i) rest;
      Ok (l :: ls)
  end.

(** [run_basic_scrape]: whatever is raised inside is caught, and the
    function returns [False].  The second component is the mapping file as
    the run leaves it. *)
Definition run_basic_scrape (urljoin : string -> string -> option string)
    (file : option (result (gmap string value)))
    (listing : result (list li_item))
  : bool * option (result (gmap string value)) :=
  let run := scrape_streams urljoin (IPTVScraper default_base_url file)
               listing false no_network [] in
  (match fst run with
   | Ok channels =>
       match channel_lines 1 (take 5 channels) with
       | Ok _ => true
       | Raise _ => false
       end
   | Raise _ => false
   end,
   mapping_file_after file (events (snd run))).

(* ===================================================================== *)
(** * [example_usage.py] *)
(* ===================================================================== *)

(** What the examples can raise on a document they loaded, besides what
    the scraper raises. *)
Inductive error : Type :=
  | KeyError
  | AttributeError
  | Exn (e : exn).

Inductive outcome (A : Type) : Type :=
  | Done (a : A)
  | Raised (e : error).
Arguments Done {A} a.
Arguments Raised {A} e.

Global Instance outcome_ret : MRet outcome := fun _ a => Done a.
Global Instance outcome_bind : MBind outcome := fun _ _ f r =>
  match r with
  | Done a => f a
  | Raised e => Raised e
  end.

(** ** Python on loaded documents

    The documents are made of [None], integers, strings, lists and
    dictionaries. *)

(** [len(j)] *)
Definition py_len (j : json) : outcome nat :=
  match j with
  | JStr s => Done (String.length s)
  | JList l => Done (length l)
  | JObj fields => Done (length fields)
  | JNull | JInt _ => Raised (Exn TypeError)
  end.

(** [for x in j]: a dictionary yields its keys, a string its characters. *)
Definition py_iter (j : json) : outcome (list json) :=
  match j with
  | JStr s => Done ((fun c => JStr (String c EmptyString)) <$> chars s)
  | JList l => Done l
  | JObj fields => Done ((fun kv => JStr (fst kv)) <$> fields)
  | JNull | JInt _ => Raised (Exn TypeError)
  end.

Fixpoint fields_lookup (key : string) (fields : list (string * json))
  : option json :=
  match fields with
  | [] => None
  | (k, v) :: rest => if String.eqb k key then Some v else fields_lookup key rest
  end.

(** [j[key]] with a string as [key]: only a dictionary can be indexed by a
    string. *)
Definition py_getitem (j : json) (key : string) : outcome json :=
  match j with
  | JObj fields =>
      match fields_lookup key fields with
      | Some v => Done v
      | None => Raised KeyError
      end
  | JNull | JInt _ | JStr _ | JList _ => Raised (Exn TypeError)
  end.

(** [sub in j] with a string as [sub]. *)
Definition py_in (sub : string) (j : json) : outcome bool :=
  match j with
  | JStr s => Done (str_in sub s)
  | JList l =>
      Done (existsb (fun x => match x with
                              | JStr t => String.eqb t sub
                              | _ => false
                              end) l)
  | JObj fields => Done (existsb (fun kv => String.eqb (fst kv) sub) fields)
  | JNull | JInt _ => Raised (Exn TypeError)
  end.

Definition is_lower (c : ascii) : bool :=
  let n := nat_of_ascii c in ((97 <=? n) && (n <=? 122))%nat.

Definition upper_char (c : ascii) : ascii :=
  if is_lower c then ascii_of_nat (nat_of_ascii c - 32) else c.

Definition str_upper (s : string) : string :=
  text (List.map upper_char (chars s)).

(** [j.upper()] *)
Definition py_upper (j : json) : outcome string :=
  match j with
  | JStr s => Done (str_upper s)
  | JNull | JInt _ | JList _ | JObj _ => Raised AttributeError
  end.

(** ** [example_1_basic_parsing] *)

(** The document the example leaves in [channels_sample.json]. *)
Definition example_1_basic_parsing
    (urljoin : string -> string -> option string)
    (file : option (result (gmap string value)))
    (listing : result (list li_item)) (timestamp : string) : result json :=
  match scrape_streams urljoin (IPTVScraper default_base_url file) listing
          false no_network [] with
  | (Raise e, _) => Raise e
  | (Ok _, s) => Ok (fst (save_json timestamp (channels s)))
  end.

(** ** [example_3_custom_processing] *)

(** [a in name or b in name or ...], from left to right. *)
Fixpoint any_in (subs : list string) (name : json) : outcome bool :=
  match subs with
  | [] => Done false
  | sub :: rest =>
      b ← py_in sub name;
      if b : bool then Done true else any_in rest name
  end.

(** The chain of [if] and [elif] that picks the category of a name. *)
Definition category (name : json) : outcome string :=
  b ← any_in ["SPORTS"; "CRICKET"; "GOLF"] name;
  if b : bool then Done "Sports" else
  b ← any_in ["CARTOON"; "KIDS"; "NICK"; "POGO"] name;
  if b : bool then Done "Kids" else
  b ← any_in ["NEWS"] name;
  if b : bool then Done "News" else
  b ← any_in ["MUSIC"] name;
  if b : bool then Done "Music" else Done "Entertainment".

(** [categories[category].append(channel)], with the key created at the
    end of the dictionary when it is new. *)
Fixpoint append_to (key : string) (channel : json)
    (categories : list (string * list json)) : list (string * list json) :=
  match categories with
  | [] => [(key, [channel])]
  | (k, l) :: rest =>
      if String.eqb k key then (k, (l ++ [channel])%list) :: rest
      else (k, l) :: append_to key channel rest
  end.

(** The loop that groups the channels. *)
Fixpoint group_channels (channels : list json)
    (categories : list (string * list json))
  : outcome (list (string * list json)) :=
  match channels with
  | [] => Done categories
  | channel :: rest =>
      name ← py_getitem channel "name";
      c ← category name;
      group_channels rest (append_to c channel categories)
  end.

(** [example_3_custom_processing]: [file] is the document in
    [channels_sample.json], [None] when the file does not exist (the one
    error the example catches).  The result is the dictionary
    [categories]. *)
Definition example_3_custom_processing (file : option json)
  : outcome (option (list (string * list json))) :=
  match file with
  | None => Done None
  | Some channels =>
      _ ← py_len channels;
      items ← py_iter channels;
      categories ← group_channels items [];
      Done (Some categories)
  end.

(** ** [example_4_filter_channels] *)

(** [[c for c in channels if 'SPORTS' in c['name'].upper()]] *)
Fixpoint sports_only (channels : list json) : outcome (list json) :=
  match channels with
  | [] => Done []
  | c :: rest =>
      name ← py_getitem c "name";
      u ← py_upper name;
      l ← sports_only rest;
      Done (if str_in "SPORTS" u then c :: l else l)
  end.

(** The loop that prints the number and the name of every channel found. *)
Fixpoint print_found (channels : list json) : outcome unit :=
  match channels with
  | [] => Done tt
  | channel :: rest =>
      _ ← py_getitem channel "number";
      _ ← py_getitem channel "name";
      print_found rest
  end.

(** [example_4_filter_channels]: the result is the list written to
    [sports_channels.json]. *)
Definition example_4_filter_channels (file : option json)
  : outcome (option (list json)) :=
  match file with
  | None => Done None
  | Some channels =>
      items ← py_iter channels;
      sports_channels ← sports_only items;
      _ ← print_found sports_channels;
      Done (Some sports_channels)
  end.

(** The category of a name that is a string. *)
Definition category_of (name : string) : string :=
  if str_in "SPORTS" name || str_in "CRICKET" name || str_in "GOLF" name
  then "Sports"
  else if str_in "CARTOON" name || str_in "KIDS" name || str_in "NICK" name
          || str_in "POGO" name
  then "Kids"
  else if str_in "NEWS" name then "News"
  else if str_in "MUSIC" name then "Music"
  else "Entertainment".


(* ===================================================================== *)
(** * The model at work *)
(* ===================================================================== *)

Example assign_demo :
  _assign_channel_number (<["B":=VStr "7"]> (<["A":=VInt 3]> ∅)) "C"
  = (Ok (VInt 8), <["C":=VStr "8"]> (<["B":=VStr "7"]> (<["A":=VInt 3]> ∅))).
Proof. vm_compute. reflexivity. Qed.

Example stream_re_demo :
  re_search false stream_re "play('player.php?stream=42&x=1')" = Some "42".
Proof. vm_compute. reflexivity. Qed.

Example findall_demo :
  re_findall true pattern_1
    "<video SRC='a.m3u8'></video><video src='b.M3U8?x'></video>"
  = ["a.m3u8"; "b.M3U8?x"].
Proof. vm_compute. reflexivity. Qed.

Example int_of_str_demo :
  int_of_str " -1_000 " = Some (-1000) ∧ int_of_str "007" = Some 7 ∧
  int_of_str "1__0" = None ∧ int_of_str "12a" = None ∧ int_of_str "" = None.
Proof. vm_compute. repeat split. Qed.

(** The first candidate of the first pattern names a logo and is skipped;
    the second is returned. *)
Example extract_url_skips_excluded :
  extract_url join_demo "http://h"
    "<img src='http://x/logo.m3u8'><video src='http://x/live.m3u8'></video>"
  = Ok (Some "http://x/live.m3u8").
Proof. vm_compute. reflexivity. Qed.

(** The last resort after the loop has no exclusion list: the frame source
    that pattern 7 skipped is returned all the same. *)
Example iframe_fallback_ignores_exclusions :
  scan_patterns join_demo "http://h" m3u8_patterns
    "<iframe src='http://x/logo.html'></iframe>" = Ok None ∧
  extract_url join_demo "http://h" "<iframe src='http://x/logo.html'></iframe>"
  = Ok (Some "http://x/logo.html").
Proof. vm_compute. split; reflexivity. Qed.

(** A run on a new registry: the channels A and B with the stream tokens 10
    and 20, resolution switched off. *)
Example scrape_streams_fresh :
  let run := scrape_streams join_demo (IPTVScraper "http://h/" None)
               (Ok [item_demo "10" (Some "A"); item_demo "20" (Some "B")])
               false (fun _ _ => Raise Timeout) [] in
  fst run = Ok [parsed_record (VInt 1) "A" "10" "http://h/logo.png";
                parsed_record (VInt 2) "B" "20" "http://h/logo.png"] ∧
  channel_mapping (snd run) = <["B" := VStr "2"]> {[ "A" := VStr "1" ]} ∧
  events (snd run) = [SaveMapping (<["B" := VStr "2"]> {[ "A" := VStr "1" ]})].
Proof. vm_compute. repeat split. Qed.

(** A later run, with a stored mapping that gives I the number 9 and J the
    number 10: the sort compares the stored strings, and the channel
    numbered 10 comes before the channel numbered 9. *)
Example scrape_streams_known_names :
  let m : gmap string value := <["J" := VStr "10"]> {[ "I" := VStr "9" ]} in
  let run := scrape_streams join_demo (init_demo m)
               (Ok [item_demo "90" (Some "I"); item_demo "91" (Some "J")])
               false (fun _ _ => Raise Timeout) [] in
  ∃ chs, fst run = Ok chs ∧ number <$> chs = [VStr "10"; VStr "9"] ∧
         name <$> chs = ["J"; "I"].
Proof. eexists. vm_compute. repeat split. Qed.

(** A run that meets a known and a new name: the sort raises, and nothing is
    saved. *)
Example scrape_streams_known_and_new :
  let run := scrape_streams join_demo (init_demo {[ "A" := VStr "1" ]})
               (Ok [item_demo "10" (Some "A"); item_demo "20" (Some "B")])
               false (fun _ _ => Raise Timeout) [] in
  fst run = Raise TypeError ∧ events (snd run) = [].
Proof. vm_compute. split; reflexivity. Qed.

(** Two calls on a scraper whose registry knew the channel before the first
    call: the channel is returned twice. *)
Example scrape_streams_twice_known_name :
  let listing := Ok [item_demo "10" (Some "A")] in
  let net (idx : nat) (url : string) : result response := Raise Timeout in
  let first := scrape_streams join_demo (init_demo {[ "A" := VStr "1" ]})
                 listing false net [] in
  let second := scrape_streams join_demo (snd first) listing false net [] in
  fst second
  = Ok [parsed_record (VStr "1") "A" "10" "http://103.144.89.251/logo.png";
        parsed_record (VStr "1") "A" "10" "http://103.144.89.251/logo.png"].
Proof. vm_compute. reflexivity. Qed.

(* ===================================================================== *)
(** * Lemmas on [int] and [str] *)
(* ===================================================================== *)

Lemma digit_of_pretty_N_char (d : N) :
  (d < 10)%N → digit_of (pretty_N_char d) = Some (Z.of_N d).
Proof.
  intros Hd.
  assert (d = 0 ∨ d = 1 ∨ d = 2 ∨ d = 3 ∨ d = 4 ∨ d = 5 ∨ d = 6 ∨ d = 7
          ∨ d = 8 ∨ d = 9)%N as Hcases by lia.
  repeat (destruct Hcases as [-> | Hcases]; [reflexivity |]).
  subst d. reflexivity.
Qed.

(** Reading back the digits produced by [pretty_N_go]. *)
Lemma int_digits_pretty_N_go (x : N) :
  (0 < x)%N →
  ∃ k : Z, ∀ (s : string) (acc : Z) (prev : bool),
    int_digits acc prev (pretty_N_go x s)
    = int_digits (acc * k + Z.of_N x) true s.
Proof.
  induction (N.lt_wf_0 x) as [x _ IH]. intros Hx.
  destruct (decide (x `div` 10 = 0)%N) as [Hq | Hq].
  - exists 10. intros s acc prev.
    rewrite pretty_N_go_step by done. rewrite Hq, pretty_N_go_0. simpl.
    assert (x < 10)%N as Hlt by (apply N.div_small_iff in Hq; lia).
    rewrite N.mod_small by done.
    rewrite digit_of_pretty_N_char by done. f_equal. lia.
  - destruct (IH (x `div` 10)%N) as [k Hk].
    + apply N.div_lt; lia.
    + by apply N.neq_0_lt_0.
    + exists (10 * k). intros s acc prev.
      rewrite pretty_N_go_step by done. rewrite Hk. simpl.
      rewrite digit_of_pretty_N_char by (apply N.mod_lt; lia).
      f_equal.
      pose proof (N.div_mod x 10 ltac:(lia)) as Hdm.
      assert (Z.of_N x = 10 * Z.of_N (x `div` 10) + Z.of_N (x `mod` 10)) as ->
        by lia.
      lia.
Qed.

Lemma pretty_N_go_head (x : N) (s : string) :
  (0 < x)%N → ∃ c r, pretty_N_go x s = String c r ∧ is_digit c = true.
Proof.
  revert s. induction (N.lt_wf_0 x) as [x _ IH]. intros s Hx.
  rewrite pretty_N_go_step by done.
  destruct (decide (x `div` 10 = 0)%N) as [Hq | Hq].
  - rewrite Hq, pretty_N_go_0. eexists _, _. split; [reflexivity |].
    unfold is_digit. rewrite digit_of_pretty_N_char; [done |].
    apply N.mod_lt; lia.
  - apply IH; [apply N.div_lt; lia | by apply N.neq_0_lt_0].
Qed.

Lemma is_digit_not_special (c : ascii) :
  is_digit c = true →
  py_isspace c = false ∧ c ≠ "-"%char ∧ c ≠ "+"%char.
Proof.
  intros H.
  split; [| split]; try (intros ->; vm_compute in H; discriminate).
  revert H. unfold is_digit, digit_of, py_isspace.
  destruct (48 <=? nat_of_ascii c)%nat eqn:H1;
    destruct (nat_of_ascii c <=? 57)%nat eqn:H2; simpl; try discriminate.
  intros _. apply Nat.leb_le in H1, H2.
  apply orb_false_iff; split; apply andb_false_iff; right; apply Nat.leb_gt; lia.
Qed.

Lemma int_of_str_digit_head (c : ascii) (r : string) :
  is_digit c = true →
  int_of_str (String c r) = int_digits 0 false (String c r).
Proof.
  intros H. destruct (is_digit_not_special c H) as (Hsp & Hm & Hpl).
  unfold int_of_str. cbn [lstrip]. rewrite Hsp.
  destruct c as [[] [] [] [] [] [] [] []]; try reflexivity;
    exfalso; (by apply Hm) || (by apply Hpl).
Qed.

Lemma int_digits_pretty_pos (p : positive) :
  int_digits 0 false (pretty_N_go (N.pos p) "") = Some (Z.pos p).
Proof.
  destruct (int_digits_pretty_N_go (N.pos p) ltac:(lia)) as [k Hk].
  rewrite Hk. simpl. f_equal.
Qed.

Lemma int_of_str_pretty_pos (p : positive) :
  int_of_str (pretty (N.pos p)) = Some (Z.pos p).
Proof.
  unfold pretty, pretty_N. rewrite decide_False by done.
  destruct (pretty_N_go_head (N.pos p) "" ltac:(lia)) as (c & r & Heq & Hc).
  rewrite Heq, int_of_str_digit_head by done. rewrite <- Heq.
  apply int_digits_pretty_pos.
Qed.

(** [int(str(n)) == n] *)
Lemma int_of_str_py_str (z : Z) : int_of_str (py_str z) = Some z.
Proof.
  unfold py_str, pretty, pretty_Z. destruct z as [| p | p].
  - reflexivity.
  - apply int_of_str_pretty_pos.
  - unfold pretty, pretty_positive, pretty, pretty_N.
    rewrite decide_False by done.
    change (int_of_str (String "-" (pretty_N_go (N.pos p) "")) = Some (Z.neg p)).
    change (Z.opp <$> int_digits 0 false (pretty_N_go (N.pos p) "")
            = Some (Z.neg p)).
    rewrite int_digits_pretty_pos. reflexivity.
Qed.

Lemma int_of_value_py_str (z : Z) : int_of_value (VStr (py_str z)) = Some z.
Proof. apply int_of_str_py_str. Qed.

(* ===================================================================== *)
(** * The identity registry *)
(* ===================================================================== *)


Lemma max_fold_spec (m : gmap string value) : max_fold_post (max_fold m) m.
Proof.
  unfold max_fold. apply (map_fold_weak_ind max_fold_post); [reflexivity |].
  intros i x m' r Hi Hr. destruct r as [[a |] | e]; simpl in *.
  - destruct Hr as [Hall (k & v & Hk & Hv)]. unfold py_int.
    destruct (int_of_value x) as [z |] eqn:Hx; simpl.
    + split.
      * intros k' v' Hk'. destruct (decide (i = k')) as [<- | Hne].
        -- rewrite lookup_insert_eq in Hk'. injection Hk' as <-.
           exists z. split; [done | lia].
        -- rewrite lookup_insert_ne in Hk' by done.
           destruct (Hall _ _ Hk') as (z' & Hz' & Hle). exists z'. split; [done | lia].
      * destruct (Z.max_spec a z) as [[Hlt ->] | [Hge ->]].
        -- exists i, x. by rewrite lookup_insert_eq.
        -- exists k, v. split; [| done].
           rewrite lookup_insert_ne; [done |]. intros ->. congruence.
    + split; [done |]. exists i, x. by rewrite lookup_insert_eq.
  - subst m'. unfold py_int.
    destruct (int_of_value x) as [z |] eqn:Hx; simpl.
    + split.
      * intros k' v' Hk'. destruct (decide (i = k')) as [<- | Hne].
        -- rewrite lookup_insert_eq in Hk'. injection Hk' as <-.
           exists z. split; [done | lia].
        -- rewrite lookup_insert_ne, lookup_empty in Hk' by done. done.
      * exists i, x. by rewrite lookup_insert_eq.
    + split; [done |]. exists i, x. by rewrite lookup_insert_eq.
  - destruct Hr as [-> (k & v & Hk & Hv)]. split; [done |].
    exists k, v. split; [| done].
    rewrite lookup_insert_ne; [done |]. intros ->. congruence.
Qed.

(** On a well-formed, non-empty mapping [max] succeeds and is the greatest
    number of the mapping. *)
Lemma max_int_values_wf (m : gmap string value) :
  registry_wf m → m ≠ ∅ →
  ∃ mx, max_int_values m = Ok mx ∧
    (∀ k v z, m !! k = Some v → int_of_value v = Some z → z ≤ mx) ∧
    (∃ k v, m !! k = Some v ∧ int_of_value v = Some mx).
Proof.
  intros Hwf Hne. unfold max_int_values.
  pose proof (max_fold_spec m) as Hspec.
  destruct (max_fold m) as [[mx |] | e]; simpl in Hspec.
  - destruct Hspec as [Hall Hex]. exists mx. split; [done |]. split; [| done].
    intros k v z Hk Hz. destruct (Hall _ _ Hk) as (z' & Hz' & Hle). congruence.
  - done.
  - destruct Hspec as [_ (k & v & Hk & Hv)].
    destruct (Hwf _ _ Hk) as [z Hz]. congruence.
Qed.

Lemma max_int_values_inv (m : gmap string value) (mx : Z) :
  max_int_values m = Ok mx →
  (∀ k v, m !! k = Some v → ∃ z, int_of_value v = Some z ∧ z ≤ mx) ∧
  (∃ k v, m !! k = Some v ∧ int_of_value v = Some mx).
Proof.
  unfold max_int_values. pose proof (max_fold_spec m) as Hspec.
  destruct (max_fold m) as [[a |] | e]; simpl in Hspec; intros [= <-]. done.
Qed.

(** A malformed value makes [max] raise [ValueError]. *)
Lemma max_int_values_malformed (m : gmap string value) (k : string) (v : value) :
  m !! k = Some v → int_of_value v = None →
  max_int_values m = Raise ValueError.
Proof.
  intros Hk Hv. unfold max_int_values. pose proof (max_fold_spec m) as Hspec.
  destruct (max_fold m) as [[a |] | e]; simpl in Hspec.
  - destruct Hspec as [Hall _]. destruct (Hall _ _ Hk) as (z & Hz & _). congruence.
  - subst m. by rewrite lookup_empty in Hk.
  - by destruct Hspec as [-> _].
Qed.

Lemma assign_existing (m : gmap string value) (n : string) (v : value) :
  m !! n = Some v → _assign_channel_number m n = (Ok v, m).
Proof. intros H. unfold _assign_channel_number. by rewrite H. Qed.

Lemma assign_new_empty (n : string) :
  _assign_channel_number ∅ n = (Ok (VInt 1), {[n := VStr "1"]}).
Proof. unfold _assign_channel_number. rewrite lookup_empty. reflexivity. Qed.

Lemma assign_new_nonempty (m : gmap string value) (n : string) (mx : Z) :
  m !! n = None → m ≠ ∅ → max_int_values m = Ok mx →
  _assign_channel_number m n
  = (Ok (VInt (mx + 1)), <[n := VStr (py_str (mx + 1))]> m).
Proof.
  intros Hn Hne Hmx. unfold _assign_channel_number. rewrite Hn.
  rewrite bool_decide_eq_false_2 by done. rewrite Hmx. reflexivity.
Qed.

Lemma assign_new_malformed (m : gmap string value) (n k : string) (v : value) :
  m !! n = None → m !! k = Some v → int_of_value v = None →
  _assign_channel_number m n = (Raise ValueError, m).
Proof.
  intros Hn Hk Hv. unfold _assign_channel_number. rewrite Hn.
  rewrite bool_decide_eq_false_2.
  - by rewrite (max_int_values_malformed m k v).
  - intros ->. by rewrite lookup_empty in Hk.
Qed.

(** A call never removes or changes an entry, whatever it returns. *)
Lemma assign_subseteq (m : gmap string value) (n : string) :
  m ⊆ snd (_assign_channel_number m n).
Proof.
  unfold _assign_channel_number. destruct (m !! n) eqn:Hn; [done |].
  destruct (bool_decide (m = ∅)); simpl.
  - by apply insert_subseteq.
  - destruct (max_int_values m); simpl; [by apply insert_subseteq | done].
Qed.

(** The second call with a name returns the entry of the mapping, and leaves
    the mapping as it is. *)
Lemma assign_again (m : gmap string value) (n : string) (v : value)
    (m' : gmap string value) :
  _assign_channel_number m n = (Ok v, m') →
  ∃ v', m' !! n = Some v' ∧ _assign_channel_number m' n = (Ok v', m') ∧
        int_of_value v' = int_of_value v ∧
        (m !! n = None → v' = VStr (py_str (default 0 (int_of_value v)))).
Proof.
  unfold _assign_channel_number at 1. destruct (m !! n) as [w |] eqn:Hn.
  - intros [= <- <-]. exists w. split; [done |].
    split; [by apply assign_existing |]. split; [done | congruence].
  - destruct (bool_decide (m = ∅)); simpl.
    + intros [= <- <-]. eexists. rewrite lookup_insert_eq. split; [done |].
      split; [apply assign_existing, lookup_insert_eq |]. split; [| done].
      apply (int_of_value_py_str 1).
    + destruct (max_int_values m) as [mx | e]; simpl; [| done].
      intros [= <- <-]. eexists. rewrite lookup_insert_eq. split; [done |].
      split; [apply assign_existing, lookup_insert_eq |]. split; [| done].
      apply int_of_value_py_str.
Qed.

(** The step of the registry invariants: on a well-formed mapping a call
    succeeds, the number it returns is the one now recorded for the name,
    the mapping stays well formed and injective, and a new name receives a
    number above every number of the mapping. *)
Lemma assign_step (m : gmap string value) (n : string) :
  registry_wf m →
  ∃ v z m',
    _assign_channel_number m n = (Ok v, m') ∧
    int_of_value v = Some z ∧
    (∃ v', m' !! n = Some v' ∧ int_of_value v' = Some z) ∧
    m ⊆ m' ∧ registry_wf m' ∧
    (registry_inj m → registry_inj m') ∧
    (m !! n = None →
       v = VInt z ∧ m' = <[n := VStr (py_str z)]> m ∧
       (m = ∅ → z = 1) ∧
       (∀ mx, max_int_values m = Ok mx → z = mx + 1) ∧
       ∀ k' v' z', m !! k' = Some v' → int_of_value v' = Some z' → z' < z) ∧
    (∀ w, m !! n = Some w → v = w ∧ m' = m).
Proof.
  intros Hwf. destruct (m !! n) as [w |] eqn:Hn.
  - destruct (Hwf _ _ Hn) as [z Hz]. exists w, z, m.
    rewrite (assign_existing m n w Hn).
    split; [done |]. split; [done |]. split; [eauto |].
    split; [done |]. split; [done |]. split; [done |]. split; [done |].
    by intros w0 [= <-].
  - assert (∃ z, _assign_channel_number m n
                 = (Ok (VInt z), <[n := VStr (py_str z)]> m) ∧
                 (m = ∅ → z = 1) ∧
                 (∀ mx, max_int_values m = Ok mx → z = mx + 1) ∧
                 ∀ k' v' z', m !! k' = Some v' → int_of_value v' = Some z' → z' < z)
      as (z & Heq & Hz1 & Hzmx & Hfresh).
    { destruct (decide (m = ∅)) as [-> | Hne].
      - exists 1. split; [apply assign_new_empty |]. split; [done |]. split.
        + intros mx Hmx. apply max_int_values_inv in Hmx as [_ (k & v & Hk & _)].
          by rewrite lookup_empty in Hk.
        + intros k' v' z'. by rewrite lookup_empty.
      - destruct (max_int_values_wf m Hwf Hne) as (mx & Hmx & Hall & _).
        exists (mx + 1). split; [by apply assign_new_nonempty |].
        split; [done |]. split; [intros mx'; rewrite Hmx; by intros [= <-] |].
        intros k' v' z' Hk' Hz'. specialize (Hall _ _ _ Hk' Hz'). lia. }
    exists (VInt z), z, (<[n := VStr (py_str z)]> m). rewrite Heq.
    split; [done |]. split; [done |].
    split; [eexists; rewrite lookup_insert_eq; split; [done | apply int_of_value_py_str] |].
    split; [by apply insert_subseteq |]. split; [| split; [| split]].
    + intros k v Hk. destruct (decide (n = k)) as [<- | Hne].
      * rewrite lookup_insert_eq in Hk. injection Hk as <-.
        rewrite int_of_value_py_str. eauto.
      * rewrite lookup_insert_ne in Hk by done. eauto.
    + intros Hinj k1 k2 v1 v2 z0 H1 H2 Hz1' Hz2'.
      destruct (decide (n = k1)) as [<- | Hne1];
        destruct (decide (n = k2)) as [<- | Hne2]; [done | | |].
      * rewrite lookup_insert_eq in H1. injection H1 as <-.
        rewrite lookup_insert_ne in H2 by done.
        rewrite int_of_value_py_str in Hz1'. injection Hz1' as <-.
        specialize (Hfresh _ _ _ H2 Hz2'). lia.
      * rewrite lookup_insert_eq in H2. injection H2 as <-.
        rewrite lookup_insert_ne in H1 by done.
        rewrite int_of_value_py_str in Hz2'. injection Hz2' as <-.
        specialize (Hfresh _ _ _ H1 Hz1'). lia.
      * rewrite lookup_insert_ne in H1, H2 by done. eauto.
    + done.
    + done.
Qed.

Lemma registry_wf_empty : registry_wf ∅.
Proof. intros k v. by rewrite lookup_empty. Qed.

Lemma registry_inj_empty : registry_inj ∅.
Proof. intros k1 k2 v1 v2 z. by rewrite lookup_empty. Qed.

(** ** Sequences of calls *)

Lemma assign_all_app (m : gmap string value) (l1 l2 : list string) :
  assign_all m (l1 ++ l2)%list
  = ((fst (assign_all m l1) ++ fst (assign_all (snd (assign_all m l1)) l2))%list,
     snd (assign_all (snd (assign_all m l1)) l2)).
Proof.
  revert m. induction l1 as [| n l1 IH]; intros m; simpl.
  - by destruct (assign_all m l2).
  - destruct (_assign_channel_number m n) as [r m1]. rewrite IH.
    destruct (assign_all m1 l1) as [rs1 m2]. simpl.
    by destruct (assign_all m2 l2).
Qed.

Lemma assign_all_length (m : gmap string value) (names : list string) :
  length (fst (assign_all m names)) = length names.
Proof.
  revert m. induction names as [| n names IH]; intros m; simpl; [done |].
  destruct (_assign_channel_number m n) as [r m1]. specialize (IH m1).
  destruct (assign_all m1 names). simpl in *. by rewrite IH.
Qed.

(** The invariants along a sequence of calls, and the link between what a
    call returns and what the final mapping records. *)
Lemma assign_all_spec (m : gmap string value) (names : list string) :
  registry_wf m → registry_inj m →
  registry_wf (snd (assign_all m names)) ∧
  registry_inj (snd (assign_all m names)) ∧
  m ⊆ snd (assign_all m names) ∧
  ∀ i n, names !! i = Some n →
    ∃ v z v', fst (assign_all m names) !! i = Some (Ok v) ∧
              int_of_value v = Some z ∧
              snd (assign_all m names) !! n = Some v' ∧
              int_of_value v' = Some z.
Proof.
  revert m. induction names as [| n names IH]; intros m Hwf Hinj; simpl.
  - by repeat split.
  - destruct (assign_step m n Hwf)
      as (v & z & m1 & Heq & Hz & (v1 & Hv1 & Hz1) & Hsub & Hwf1 & Hinj1 & _).
    rewrite Heq. specialize (IH m1 Hwf1 (Hinj1 Hinj)).
    destruct (assign_all m1 names) as [rs mf]. simpl in *.
    destruct IH as (Hwff & Hinjf & Hsubf & Hres).
    split; [done |]. split; [done |]. split; [by etrans |].
    intros [| i] n' Hi; simpl in *.
    + injection Hi as <-. exists v, z, v1. split; [done |]. split; [done |].
      split; [| done]. by eapply lookup_weaken.
    + by apply Hres.
Qed.

Lemma registry_after_wf (names : list string) :
  registry_wf (registry_after names) ∧ registry_inj (registry_after names).
Proof.
  destruct (assign_all_spec ∅ names registry_wf_empty registry_inj_empty)
    as (? & ? & _). done.
Qed.

(** One more call: the mapping and the result at position [k]. *)
Lemma registry_after_step (names : list string) (k : nat) (n : string) :
  names !! k = Some n →
  registry_after (take (S k) names)
  = snd (_assign_channel_number (registry_after (take k names)) n) ∧
  returned names !! k
  = Some (fst (_assign_channel_number (registry_after (take k names)) n)).
Proof.
  intros Hk. unfold registry_after, returned. split.
  - rewrite (take_S_r _ _ _ Hk), assign_all_app. simpl.
    by destruct (_assign_channel_number _ n).
  - rewrite <- (take_drop_middle names k n Hk) at 1.
    rewrite assign_all_app. simpl.
    rewrite lookup_app_r; rewrite assign_all_length, length_take_le;
      try (apply lookup_lt_Some in Hk; lia).
    rewrite Nat.sub_diag.
    destruct (_assign_channel_number _ n) as [r m1].
    by destruct (assign_all m1 (drop (S k) names)).
Qed.

(** What the two calls with a new name return, in general: the first call
    returns the [int], the second the [str] stored by the first. *)
Lemma assign_twice (m : gmap string value) (n : string) :
  registry_wf m → m !! n = None →
  ∃ z, _assign_channel_number m n
       = (Ok (VInt z), <[n := VStr (py_str z)]> m) ∧
       _assign_channel_number (<[n := VStr (py_str z)]> m) n
       = (Ok (VStr (py_str z)), <[n := VStr (py_str z)]> m) ∧
       int_of_value (VStr (py_str z)) = Some z.
Proof.
  intros Hwf Hn.
  destruct (assign_step m n Hwf) as (v & z & m' & Heq & _ & _ & _ & _ & _ & Hnew & _).
  destruct (Hnew Hn) as (-> & -> & _). exists z. split; [done |].
  split; [apply assign_existing, lookup_insert_eq | apply int_of_value_py_str].
Qed.

(** C1, at the input where the code departs from it: on the empty registry
    the first call with the name A returns the int 1 and records the str
    '1'; the second call with A returns that str and leaves the mapping as
    it is.  The two results stand for the same integer and are not equal as
    Python values. *)
Theorem assign_channel_number_repeat :
  _assign_channel_number ∅ "A" = (Ok (VInt 1), {[ "A" := VStr "1" ]}) ∧
  _assign_channel_number {[ "A" := VStr "1" ]} "A"
  = (Ok (VStr "1"), {[ "A" := VStr "1" ]}) ∧
  int_of_value (VStr "1") = int_of_value (VInt 1) ∧
  py_eq (VInt 1) (VStr "1") = false.
Proof.
  split; [apply assign_new_empty |].
  split; [apply assign_existing, lookup_singleton_eq |].
  split; reflexivity.
Qed.

(** C3: in any sequence of calls of [_assign_channel_number] that starts
    from the empty registry, every call returns a number; calls with
    distinct names return distinct numbers; the greatest number of the
    registry never decreases; no entry is ever removed or changed; and a
    name that is new receives a number greater than every number assigned
    before, so that no number is used twice. *)
Theorem registry_monotonic_uniqueness (names : list string) :
  (∀ i n, names !! i = Some n →
     ∃ v z, returned names !! i = Some (Ok v) ∧ int_of_value v = Some z) ∧
  (∀ i j ni nj vi vj,
     names !! i = Some ni → names !! j = Some nj → ni ≠ nj →
     returned names !! i = Some (Ok vi) → returned names !! j = Some (Ok vj) →
     int_of_value vi ≠ int_of_value vj ∧ vi ≠ vj) ∧
  (∀ k a,
     max_int_values (registry_after (take k names)) = Ok a →
     ∃ b, max_int_values (registry_after (take (S k) names)) = Ok b ∧ a ≤ b) ∧
  (∀ k, registry_after (take k names) ⊆ registry_after (take (S k) names)) ∧
  (∀ k n, names !! k = Some n → registry_after (take k names) !! n = None →
     ∃ z, returned names !! k = Some (Ok (VInt z)) ∧
          ∀ n' v' z', registry_after (take k names) !! n' = Some v' →
                      int_of_value v' = Some z' → z' < z).
Proof.
  assert (∀ k, registry_after (take k names) ⊆ registry_after (take (S k) names))
    as Hgrow.
  { intros k. destruct (names !! k) as [n |] eqn:Hk.
    - destruct (registry_after_step names k n Hk) as [-> _]. apply assign_subseteq.
    - apply lookup_ge_None in Hk. by rewrite !take_ge by lia. }
  destruct (assign_all_spec ∅ names registry_wf_empty registry_inj_empty)
    as (Hwf & Hinj & _ & Hres).
  split; [| split; [| split; [| split]]].
  - intros i n Hi. destruct (Hres i n Hi) as (v & z & v' & ? & ? & _). eauto.
  - intros i j ni nj vi vj Hi Hj Hne Hri Hrj.
    destruct (Hres i ni Hi) as (vi' & zi & wi & Hri' & Hzi & Hwi & Hzwi).
    destruct (Hres j nj Hj) as (vj' & zj & wj & Hrj' & Hzj & Hwj & Hzwj).
    unfold returned in *. rewrite Hri in Hri'. rewrite Hrj in Hrj'.
    injection Hri' as <-. injection Hrj' as <-.
    assert (int_of_value vi ≠ int_of_value vj) as Hd.
    { rewrite Hzi, Hzj. intros [= ->]. apply Hne.
      exact (Hinj ni nj wi wj zj Hwi Hwj Hzwi Hzwj). }
    split; [done | congruence].
  - intros k a Ha.
    destruct (registry_after_wf (take (S k) names)) as [Hwf2 _].
    apply max_int_values_inv in Ha as [_ (n0 & v0 & Hn0 & Hv0)].
    pose proof (lookup_weaken _ _ _ _ Hn0 (Hgrow k)) as Hn0'.
    destruct (max_int_values_wf (registry_after (take (S k) names)) Hwf2)
      as (b & Hb & Hall & _).
    { intros Hemp. rewrite Hemp in Hn0'. by rewrite lookup_empty in Hn0'. }
    exists b. split; [done |]. by apply (Hall n0 v0 a).
  - done.
  - intros k n Hk Hnew.
    destruct (registry_after_wf (take k names)) as [Hwf1 _].
    destruct (registry_after_step names k n Hk) as [_ Hret].
    destruct (assign_step _ n Hwf1)
      as (v & z & m' & Heq & _ & _ & _ & _ & _ & Hfresh & _).
    destruct (Hfresh Hnew) as (-> & _ & _ & _ & Hlt).
    exists z. rewrite Hret, Heq. done.
Qed.

(** A run of the theorem: the names A, B, A, C. *)
Lemma registry_monotonic_uniqueness_witness :
  returned ["A"; "B"; "A"; "C"]
  = [Ok (VInt 1); Ok (VInt 2); Ok (VStr "1"); Ok (VInt 3)] ∧
  int_of_value (VInt 2) ≠ int_of_value (VStr "1") ∧ VInt 2 ≠ VStr "1".
Proof.
  split; [vm_compute; reflexivity |].
  apply (proj1 (proj2 (registry_monotonic_uniqueness ["A"; "B"; "A"; "C"]))
           1%nat 2%nat "B" "A" (VInt 2) (VStr "1"));
    [reflexivity | reflexivity | discriminate
    | vm_compute; reflexivity | vm_compute; reflexivity].
Defined.

(* ===================================================================== *)
(** * Playlist rendering *)
(* ===================================================================== *)

Lemma written_cons (x : string) (parts : list string) :
  written (x :: parts) = x ++ written parts.
Proof. reflexivity. Qed.

(** C9, the claim fails: [save_m3u] takes the channels and nothing else, and
    a channel without a stream URL leaves no line in its output, while the
    rendering with a placeholder is what [example_5_create_m3u_from_json]
    of [example_usage.py] builds. *)
Lemma save_m3u_omits_unresolved :
  let ch := {| number := VInt 7; name := "News"; stream_id := "42";
               logo := "http://h/n.png"; m3u8_url := None |} in
  save_m3u [ch] = "#EXTM3U" ++ nl ∧
  example_5_m3u_content [ch]
  = "#EXTM3U" ++ nl ++ "#EXTINF:-1 tvg-logo=" ++ dq ++ "http://h/n.png" ++ dq
    ++ ", News" ++ nl ++ "http://example.com/stream/7" ++ nl ∧
  save_m3u [ch] ≠ example_5_m3u_content [ch].
Proof.
  vm_compute. split; [reflexivity |]. split; [reflexivity | discriminate].
Qed.

(** C9, amended: [save_m3u] writes the header and then, for the channels
    whose stream URL is set and not empty, in list order, the directive line
    followed by the URL; it has no other mode.  The rendering of every
    channel, with the URL [http://example.com/stream/<number>] for a channel
    without a stream URL, is the separate function of [example_usage.py]. *)
Theorem playlist_rendering (chs : list channel_info) :
  save_m3u chs
  = "#EXTM3U" ++ nl ++
    written ((fun ch => extinf ch ++ default "" (m3u8_url ch) ++ nl)
               <$> filter (fun ch => truthy (m3u8_url ch) = true) chs) ∧
  example_5_m3u_content chs
  = "#EXTM3U" ++ nl ++
    written ((fun ch =>
                extinf ch ++
                (if truthy (m3u8_url ch) then default "" (m3u8_url ch)
                 else "http://example.com/stream/" ++ format_value (number ch))
                ++ nl) <$> chs).
Proof.
  unfold save_m3u, example_5_m3u_content. split.
  - do 2 f_equal. induction chs as [| ch chs IH]; [reflexivity |].
    rewrite fmap_cons, written_cons, IH. unfold m3u_entry at 1.
    rewrite filter_cons. destruct (truthy (m3u8_url ch)) eqn:Ht.
    + rewrite decide_True by done. by rewrite fmap_cons, written_cons.
    + rewrite decide_False by done. reflexivity.
  - do 2 f_equal. induction chs as [| ch chs IH]; [reflexivity |].
    rewrite !fmap_cons, !written_cons, IH. f_equal.
    unfold example_5_entry. by destruct (truthy (m3u8_url ch)).
Qed.

(* ===================================================================== *)
(** * The resolver and the fan-out *)
(* ===================================================================== *)

Section ResolverFacts.
Variable urljoin : string -> string -> option string.

(** C6: when the request times out, cannot connect, raises anything else,
    or is answered with a status from 400 to 599 (for which
    [raise_for_status] raises [HTTPError]), [fetch_m3u8_url] returns
    [None]; and whatever is raised inside its [try] block, the function
    returns [None] instead of raising. *)
Theorem fetch_transport_failure (base : string)
    (get : string -> result response) (stream_number : string) :
  (∀ e, get (player_url base stream_number) = Raise e →
        fetch_attempt urljoin base get stream_number = Raise e ∧
        fetch_m3u8_url urljoin base get stream_number = None) ∧
  (∀ r, get (player_url base stream_number) = Ok r →
        400 ≤ status_code r < 600 →
        fetch_attempt urljoin base get stream_number = Raise HTTPError ∧
        fetch_m3u8_url urljoin base get stream_number = None) ∧
  (∀ e, fetch_attempt urljoin base get stream_number = Raise e →
        fetch_m3u8_url urljoin base get stream_number = None).
Proof.
  unfold fetch_m3u8_url, fetch_attempt. split; [| split].
  - intros e ->. simpl. split; [done | by destruct (is_request_exception e)].
  - intros r -> [Hlo Hhi]. simpl. unfold raise_for_status.
    assert ((400 <=? status_code r) && (status_code r <? 600) = true) as ->
      by (apply andb_true_iff; split; [apply Z.leb_le | apply Z.ltb_lt]; lia).
    done.
  - intros e ->. by destruct (is_request_exception e).
Qed.

(** ** Collecting the futures *)

Lemma set_m3u8_url_idem (ch : channel_info) (u v : option string) :
  set_m3u8_url (set_m3u8_url ch u) v = set_m3u8_url ch v.
Proof. reflexivity. Qed.

Lemma resolved_channel_idem fs i ch :
  resolved_channel fs i (resolved_channel fs i ch) = resolved_channel fs i ch.
Proof. unfold resolved_channel. by destruct (fs !! i) as [[u | e] |]. Qed.

Lemma collect_one_lookup fs (chs : list channel_info) (i j : nat) :
  collect_one fs chs i !! j
  = if decide (i = j) then resolved_channel fs i <$> chs !! j else chs !! j.
Proof.
  unfold collect_one, resolved_channel.
  destruct (decide (i = j)) as [<- | Hne].
  - destruct (fs !! i) as [[u | e] |] eqn:Hf;
      destruct (chs !! i) as [ch |] eqn:Hc; simpl; try done.
    rewrite list_lookup_insert_eq; [done |]. by eapply lookup_lt_Some.
  - destruct (fs !! i) as [[u | e] |]; destruct (chs !! i); try done.
    by rewrite list_lookup_insert_ne.
Qed.

Lemma collect_lookup fs (completion : list nat) (chs : list channel_info)
    (j : nat) :
  collect fs completion chs !! j
  = if decide (j ∈ completion) then resolved_channel fs j <$> chs !! j
    else chs !! j.
Proof.
  unfold collect. revert chs.
  induction completion as [| i completion IH]; intros chs; simpl.
  - done.
  - rewrite IH, collect_one_lookup.
    destruct (decide (i = j)) as [<- | Hne].
    + rewrite (decide_True (P := i ∈ i :: completion)) by apply list_elem_of_here.
      destruct (decide (i ∈ completion)); [| done].
      destruct (chs !! i); simpl; [| done]. by rewrite resolved_channel_idem.
    + destruct (decide (j ∈ completion)) as [Hin | Hnin].
      * rewrite decide_True; [done |]. by apply list_elem_of_further.
      * rewrite decide_False; [done |].
        intros [-> | ?]%elem_of_cons; done.
Qed.

Lemma collect_length fs completion (chs : list channel_info) :
  length (collect fs completion chs) = length chs.
Proof.
  unfold collect. revert chs.
  induction completion as [| i completion IH]; intros chs; simpl; [done |].
  rewrite IH. unfold collect_one.
  destruct (fs !! i) as [[u | e] |]; destruct (chs !! i); try done.
  apply length_insert.
Qed.

Lemma futures_lookup base net (chs : list channel_info) (i : nat) ch :
  chs !! i = Some ch →
  futures urljoin base net chs !! i
  = Some (Ok (fetch_m3u8_url urljoin base (net (S i)) (stream_id ch))).
Proof.
  intros Hi. unfold futures, submitted.
  by rewrite list_lookup_fmap, list_lookup_imap, Hi.
Qed.

(** The loop over [as_completed], once every future has been yielded:
    whatever the order, the list of records is kept position by position,
    and the record at a position receives the result of the task submitted
    for it. *)
Lemma collect_futures_imap (base : string)
    (net : nat -> string -> result response)
    (chs : list channel_info) (completion : list nat) :
  Permutation completion (seq 0 (length chs)) →
  collect (futures urljoin base net chs) completion chs
  = imap (fun i ch =>
            set_m3u8_url ch
              (fetch_m3u8_url urljoin base (net (S i)) (stream_id ch))) chs.
Proof.
  intros Hperm.
  apply list_eq. intros j. rewrite collect_lookup, list_lookup_imap.
  destruct (chs !! j) as [ch |] eqn:Hj; simpl.
  - rewrite decide_True.
    + unfold resolved_channel. by rewrite (futures_lookup _ _ _ _ _ Hj).
    + rewrite Hperm. apply elem_of_seq. apply lookup_lt_Some in Hj. lia.
  - by destruct (decide (j ∈ completion)).
Qed.
End ResolverFacts.

(** A request that times out. *)
Lemma fetch_transport_failure_witness :
  fetch_attempt join_demo "http://h" (fun _ => Raise Timeout) "42" = Raise Timeout ∧
  fetch_m3u8_url join_demo "http://h" (fun _ => Raise Timeout) "42" = None.
Proof.
  apply (proj1 (fetch_transport_failure join_demo "http://h"
                  (fun _ => Raise Timeout) "42") Timeout).
  reflexivity.
Defined.

(* ===================================================================== *)
(** * The listing parser *)
(* ===================================================================== *)

Section ParserFacts.
Variable urljoin : string -> string -> option string.

(** What one iteration of the loop can do: nothing, or append one record
    whose number [_assign_channel_number] returned. *)
Lemma parse_item_cases (s : scraper) (it : li_item) :
  parse_item urljoin s it = s ∨
  (∃ e, _assign_channel_number (channel_mapping s)
          (default ("Channel " ++ default "" (stream_token it)) (display_name it))
        = (Raise e, channel_mapping (parse_item urljoin s it)) ∧
        channels (parse_item urljoin s it) = channels s ∧
        events (parse_item urljoin s it) = events s ∧
        base_url (parse_item urljoin s it) = base_url s) ∨
  (∃ tok i l v,
      stream_token it = Some tok ∧ img it = Some i ∧
      urljoin (base_url s) (default "" (src i)) = Some l ∧
      _assign_channel_number (channel_mapping s)
        (default ("Channel " ++ tok) (alt i))
      = (Ok v, channel_mapping (parse_item urljoin s it)) ∧
      channels (parse_item urljoin s it)
      = (channels s ++
         [parsed_record v (default ("Channel " ++ tok)%string (alt i)) tok l])%list ∧
      events (parse_item urljoin s it) = events s ∧
      base_url (parse_item urljoin s it) = base_url s).
Proof.
  unfold parse_item, stream_token, display_name, py_urljoin.
  destruct (link it) as [a |]; simpl; [| by left].
  destruct (re_search false stream_re (default "" (onclick a))) as [tok |];
    simpl; [| by left].
  destruct (img it) as [i |]; simpl; [| by left].
  destruct (urljoin (base_url s) (default "" (src i))) as [l |] eqn:Hl;
    simpl; [| by left].
  destruct (_assign_channel_number (channel_mapping s)
              (default ("Channel " ++ tok) (alt i))) as [[v | e] m] eqn:Ha.
  - right. right. exists tok, i, l, v. simpl. rewrite Hl. done.
  - right. left. exists e. simpl. done.
Qed.

Lemma parse_item_frame (s : scraper) (it : li_item) :
  events (parse_item urljoin s it) = events s ∧
  base_url (parse_item urljoin s it) = base_url s ∧
  channel_mapping s ⊆ channel_mapping (parse_item urljoin s it) ∧
  ∃ new, channels (parse_item urljoin s it) = (channels s ++ new)%list.
Proof.
  destruct (parse_item_cases s it)
    as [-> | [(e & Ha & Hc & He & Hb) | (tok & i & l & v & _ & _ & _ & Ha & Hc & He & Hb)]].
  - repeat split; try done. exists []. by rewrite app_nil_r.
  - repeat split; try done.
    + pose proof (assign_subseteq (channel_mapping s)
        (default ("Channel " ++ default "" (stream_token it)) (display_name it))) as H.
      by rewrite Ha in H.
    + exists []. by rewrite app_nil_r.
  - repeat split; try done.
    + pose proof (assign_subseteq (channel_mapping s)
        (default ("Channel " ++ tok) (alt i))) as H.
      by rewrite Ha in H.
    + eauto.
Qed.

Lemma parse_items_app (s : scraper) (l1 l2 : list li_item) :
  parse_items urljoin s (l1 ++ l2)
  = parse_items urljoin (parse_items urljoin s l1) l2.
Proof. apply fold_left_app. Qed.

(** The loop only appends to [self.channels]; it never clears the list. *)
Lemma parse_items_frame (s : scraper) (items : list li_item) :
  events (parse_items urljoin s items) = events s ∧
  base_url (parse_items urljoin s items) = base_url s ∧
  channel_mapping s ⊆ channel_mapping (parse_items urljoin s items) ∧
  ∃ new, channels (parse_items urljoin s items) = (channels s ++ new)%list.
Proof.
  revert s. induction items as [| it items IH]; intros s; simpl.
  - repeat split; try done. exists []. by rewrite app_nil_r.
  - destruct (parse_item_frame s it) as (He & Hb & Hm & new1 & Hc).
    destruct (IH (parse_item urljoin s it)) as (He' & Hb' & Hm' & new2 & Hc').
    unfold parse_items in *. simpl.
    split; [congruence |]. split; [congruence |]. split; [by etrans |].
    exists (new1 ++ new2)%list. by rewrite Hc', Hc, app_assoc.
Qed.

(** C4, amended: a list item whose anchor is missing or carries no
    [stream=<digits>] token, and a list item without an image element, are
    skipped without any effect, and the loop goes on with the items that
    follow; a list item with a token and an image element that has no
    [alt] attribute is appended with the name [Channel <token>] (when the
    logo URL can be joined and the registry is well formed, so that
    nothing raises inside the iteration). *)
Theorem parse_item_robust (s : scraper) (it : li_item) :
  (stream_token it = None ∨ img it = None →
     parse_item urljoin s it = s ∧
     ∀ before after,
       parse_items urljoin s (before ++ it :: after)
       = parse_items urljoin s (before ++ after)) ∧
  (∀ tok i l,
     stream_token it = Some tok → img it = Some i → alt i = None →
     urljoin (base_url s) (default "" (src i)) = Some l →
     registry_wf (channel_mapping s) →
     ∃ v z, int_of_value v = Some z ∧
       channels (parse_item urljoin s it)
       = (channels s ++
          [parsed_record v ("Channel " ++ tok)%string tok l])%list).
Proof.
  split.
  - intros Hskip.
    assert (∀ s0, parse_item urljoin s0 it = s0) as Hid.
    { intros s0. unfold parse_item. unfold stream_token in Hskip.
      destruct (link it) as [a |]; simpl in *; [| done].
      destruct (re_search false stream_re (default "" (onclick a))); [| done].
      destruct Hskip as [? | ->]; done. }
    split; [apply Hid |]. intros before after.
    rewrite !parse_items_app. unfold parse_items at 1. simpl.
    by rewrite Hid.
  - intros tok i l Htok Hi Halt Hl Hwf.
    destruct (assign_step (channel_mapping s) ("Channel " ++ tok) Hwf)
      as (v & z & m' & Ha & Hz & _).
    exists v, z. split; [done |].
    unfold parse_item, py_urljoin. unfold stream_token in Htok.
    destruct (link it) as [a |]; simpl in *; [| done].
    rewrite Htok, Hi, Hl, Halt. simpl. by rewrite Ha.
Qed.

(** ** [parse_html] and [scrape_streams]: the trace *)

(** The runs of [scrape_streams] that return: the mapping is written
    exactly once; the write comes after the whole listing has been parsed,
    carries the whole mapping as parsing left it, and precedes every
    request to the player endpoint; it does not depend on whether parsing
    added a name. *)
Lemma registry_saved_once (s : scraper) (listing : result (list li_item))
    (fetch_urls : bool) (net : nat -> string -> result response)
    (completion : list nat) (chs : list channel_info) (s' : scraper) :
  scrape_streams urljoin s listing fetch_urls net completion = (Ok chs, s') →
  ∃ items requests,
    listing = Ok items ∧
    channel_mapping s' = channel_mapping (parse_items urljoin s items) ∧
    events s' = (events s ++ SaveMapping (channel_mapping s') :: requests)%list ∧
    (∀ e, e ∈ requests → ∃ idx url, e = PlayerRequest idx url) ∧
    length requests = (if fetch_urls then length chs else 0%nat).
Proof.
  unfold scrape_streams, parse_html. destruct listing as [items | e]; [| done].
  destruct (parse_items_frame s items) as (He & Hb & _ & _).
  destruct (sort_by_number (channels (parse_items urljoin s items)))
    as [sorted | e] eqn:Hsort; [| done].
  destruct fetch_urls; simpl; intros [= <- <-]; simpl.
  - eexists items, _. split; [done |]. split; [done |].
    split; [by rewrite He, <- app_assoc |]. split.
    + intros e [t [-> _]]%list_elem_of_fmap. eauto.
    + rewrite length_fmap. unfold submitted. rewrite length_imap.
      by rewrite collect_length.
  - exists items, []. split; [done |]. split; [done |].
    split; [by rewrite He |]. split; [| done].
    intros e He'. by apply elem_of_nil in He'.
Qed.

(** A run that raises writes nothing and requests nothing. *)
Lemma scrape_streams_raise_events (s : scraper) (listing : result (list li_item))
    (fetch_urls : bool) (net : nat -> string -> result response)
    (completion : list nat) (e : exn) (s' : scraper) :
  scrape_streams urljoin s listing fetch_urls net completion = (Raise e, s') →
  events s' = events s.
Proof.
  unfold scrape_streams, parse_html. destruct listing as [items | e0].
  - destruct (parse_items_frame s items) as (He & _).
    destruct (sort_by_number (channels (parse_items urljoin s items))).
    + by destruct fetch_urls.
    + by intros [= <- <-].
  - by intros [= <- <-].
Qed.

(** C7: the fan-out of [scrape_streams].  In a run with resolution that
    returns, with every future yielded once by [as_completed] in whatever
    order, the input of the fan-out is the sorted list of the parsed
    records, and the list returned (the channel list of the scraper) has one
    entry per record, at the position of the record: the record itself with
    its [m3u8_url] set to the result of [fetch_m3u8_url] on its own stream id,
    answered by the request of its own task.  The run makes one request per
    record, after the write of the mapping, and no other; the outcome of the
    request of one record has no part in the entry of another. *)
Theorem fan_out_one_result_per_record (s : scraper)
    (listing : result (list li_item))
    (net : nat -> string -> result response) (completion : list nat)
    (chs : list channel_info) (s' : scraper) :
  scrape_streams urljoin s listing true net completion = (Ok chs, s') →
  Permutation completion (seq 0 (length chs)) →
  ∃ items records,
    listing = Ok items ∧
    sort_by_number (channels (parse_items urljoin s items)) = Ok records ∧
    channels s' = chs ∧
    length chs = length records ∧
    chs = imap (fun i ch =>
                  set_m3u8_url ch
                    (fetch_m3u8_url urljoin (base_url s) (net (S i))
                       (stream_id ch))) records ∧
    events s'
    = (events s ++
       SaveMapping (channel_mapping s')
         :: imap (fun i ch =>
                    PlayerRequest (S i) (player_url (base_url s) (stream_id ch)))
              records)%list.
Proof.
  unfold scrape_streams, parse_html. destruct listing as [items | e]; [| done].
  destruct (parse_items_frame s items) as (He & Hb & _ & _).
  destruct (sort_by_number (channels (parse_items urljoin s items)))
    as [records | e] eqn:Hsort; [| done].
  cbn [_save_channel_mapping base_url channels channel_mapping events].
  intros [= <- <-] Hperm. rewrite collect_length in Hperm.
  exists items, records. cbn [channels channel_mapping events].
  split; [done |]. split; [done |]. split; [done |].
  split; [apply collect_length |]. rewrite Hb, He. split.
  - by apply collect_futures_imap.
  - rewrite <- app_assoc. cbn [app]. do 2 f_equal.
    unfold submitted. rewrite fmap_imap. by apply imap_ext.
Qed.
End ParserFacts.

(** A first run over three channels with resolution; the third task
    completes first, then the first, then the second; the request of the
    second fails. *)
Lemma fan_out_one_result_per_record_witness :
  let items := [item_demo "10" (Some "A"); item_demo "20" (Some "B");
                item_demo "30" (Some "C")] in
  let net (idx : nat) (url : string) :=
    if (idx =? 2)%nat then Raise ConnectionError
    else Ok {| status_code := 200;
               body := "<video src='" ++ url ++ ".m3u8'>" |} in
  let s := init_demo ∅ in
  let run := scrape_streams join_demo s (Ok items) true net [2; 0; 1]%nat in
  let chs := channels (snd run) in
  stream_id <$> chs = ["10"; "20"; "30"] ∧
  m3u8_url <$> chs
  = [Some "http://103.144.89.251/player.php?stream=10.m3u8"; None;
     Some "http://103.144.89.251/player.php?stream=30.m3u8"] ∧
  ∃ items' records,
    Ok items = Ok items' ∧
    sort_by_number (channels (parse_items join_demo s items')) = Ok records ∧
    channels (snd run) = chs ∧
    length chs = length records ∧
    chs = imap (fun i ch =>
                  set_m3u8_url ch
                    (fetch_m3u8_url join_demo (base_url s) (net (S i))
                       (stream_id ch))) records ∧
    events (snd run)
    = (events s ++
       SaveMapping (channel_mapping (snd run))
         :: imap (fun i ch =>
                    PlayerRequest (S i) (player_url (base_url s) (stream_id ch)))
              records)%list.
Proof.
  intros items net s run chs.
  split; [vm_compute; reflexivity |]. split; [vm_compute; reflexivity |].
  apply (fan_out_one_result_per_record join_demo s (Ok items) net
           [2; 0; 1]%nat chs (snd run)).
  - vm_compute. reflexivity.
  - change (length chs) with 3%nat. simpl.
    etrans; [apply perm_swap |]. apply perm_skip, perm_swap.
Defined.

(** C8, at the input where the code departs from it: the mapping file
    gives A the number 1 and the listing names A and the new channel B.
    Parsing numbers B and records it in the mapping held in memory; the
    sort of the channels then raises [TypeError] on the str of A and the int
    of B, before [_save_channel_mapping] is reached: the run ends without
    any write of the mapping and without any request. *)
Theorem registry_not_saved_when_sort_raises :
  let s := init_demo {[ "A" := VStr "1" ]} in
  let listing := Ok [item_demo "10" (Some "A"); item_demo "20" (Some "B")] in
  let net (idx : nat) (url : string) : result response := Raise Timeout in
  let run := scrape_streams join_demo s listing true net [0; 1]%nat in
  fst run = Raise TypeError ∧
  number <$> channels (parse_items join_demo s
                         [item_demo "10" (Some "A"); item_demo "20" (Some "B")])
  = [VStr "1"; VInt 2] ∧
  channel_mapping s !! "B" = None ∧
  channel_mapping (snd run) !! "B" = Some (VStr "2") ∧
  events (snd run) = [] ∧
  ¬ (∃ m, SaveMapping m ∈ events (snd run)).
Proof.
  intros s listing net run.
  assert (events (snd run) = []) as Hev by (vm_compute; reflexivity).
  split; [vm_compute; reflexivity |]. split; [vm_compute; reflexivity |].
  split; [vm_compute; reflexivity |]. split; [vm_compute; reflexivity |].
  split; [exact Hev |]. rewrite Hev. intros [m Hm]. by apply elem_of_nil in Hm.
Qed.

(** C4, the claim fails: a list item with the stream token 7 and no image
    element has no display name, and it is left out of the output instead of
    being listed as Channel 7. *)
Lemma parse_item_without_image_is_skipped :
  ¬ (∀ (urljoin : string -> string -> option string) (s : scraper)
       (it : li_item) (tok : string),
       stream_token it = Some tok → display_name it = None →
       ∃ ch, ch ∈ channels (parse_item urljoin s it) ∧
             name ch = "Channel " ++ tok).
Proof.
  intros H.
  destruct (H join_demo (init_demo ∅)
              {| link := Some {| onclick := Some "play('player.php?stream=7')" |};
                 img := None |} "7")
    as (ch & Hin & _); [vm_compute; reflexivity | reflexivity |].
  simpl in Hin. by apply elem_of_nil in Hin.
Qed.

(** An item with the token 42 and an image without [alt], on the empty
    registry. *)
Lemma parse_item_robust_witness :
  ∃ v z, int_of_value v = Some z ∧
    channels (parse_item join_demo (init_demo ∅) (item_demo "42" None))
    = [parsed_record v "Channel 42" "42" "http://103.144.89.251/logo.png"].
Proof.
  apply (proj2 (parse_item_robust join_demo (init_demo ∅) (item_demo "42" None))
           "42" {| alt := None; src := Some "logo.png" |}
           "http://103.144.89.251/logo.png");
    [vm_compute; reflexivity | reflexivity | reflexivity | vm_compute; reflexivity
    | exact registry_wf_empty].
Defined.

(** A run with one channel that is already in the registry and resolution
    switched on. *)
Lemma registry_saved_once_witness :
  let s := init_demo {[ "A" := VStr "1" ]} in
  let net (idx : nat) (url : string) : result response := Raise Timeout in
  ∃ chs s',
    scrape_streams join_demo s (Ok [item_demo "10" (Some "A")]) true net [0%nat]
    = (Ok chs, s') ∧
    events s'
    = [SaveMapping {[ "A" := VStr "1" ]};
       PlayerRequest 1 "http://103.144.89.251/player.php?stream=10"] ∧
    ∃ items requests,
      Ok [item_demo "10" (Some "A")] = Ok items ∧
      channel_mapping s' = channel_mapping (parse_items join_demo s items) ∧
      events s' = (events s ++ SaveMapping (channel_mapping s') :: requests)%list ∧
      (∀ e, e ∈ requests → ∃ idx url, e = PlayerRequest idx url) ∧
      length requests = length chs.
Proof.
  intros s net. eexists _, _. split; [vm_compute; reflexivity |].
  split; [vm_compute; reflexivity |].
  apply (registry_saved_once join_demo s (Ok [item_demo "10" (Some "A")]) true
           net [0%nat]).
  vm_compute. reflexivity.
Defined.

(** C10, at the input where the code departs from it: a new scraper with an
    empty registry and a listing with the one channel A.  The first
    [scrape_streams] returns the channel with the int 1 as its number; the
    second appends the channel again, now with the str '1' that the registry
    holds, and the sort of [parse_html] raises [TypeError] on the two keys:
    nothing is returned. *)
Theorem scrape_streams_twice_raises :
  let listing := Ok [item_demo "10" (Some "A")] in
  let net (idx : nat) (url : string) : result response := Raise ConnectionError in
  let first := scrape_streams join_demo (init_demo ∅) listing false net [] in
  let second := scrape_streams join_demo (snd first) listing false net [] in
  fst first
  = Ok [parsed_record (VInt 1) "A" "10" "http://103.144.89.251/logo.png"] ∧
  fst second = Raise TypeError ∧
  number <$> channels (parse_items join_demo (snd first)
                         [item_demo "10" (Some "A")])
  = [VInt 1; VStr "1"].
Proof. vm_compute. split; [reflexivity |]. split; reflexivity. Qed.

(* ===================================================================== *)
(** * Sorting by number *)
(* ===================================================================== *)

Lemma insert_by_number_perm (x : channel_info) (l r : list channel_info) :
  insert_by_number x l = Ok r → r ≡ₚ x :: l.
Proof.
  revert r. induction l as [| y l IH]; intros r; simpl.
  - by intros [= <-].
  - destruct (py_lt (number y) (number x)) as [[] | e]; simpl; [| | done].
    + destruct (insert_by_number x l) as [r' | e]; simpl; [| done].
      intros [= <-]. rewrite (IH r' eq_refl). apply perm_swap.
    + by intros [= <-].
Qed.

Lemma sort_by_number_perm (l r : list channel_info) :
  sort_by_number l = Ok r → r ≡ₚ l.
Proof.
  revert r. induction l as [| x l IH]; intros r; simpl.
  - by intros [= <-].
  - destruct (sort_by_number l) as [r' | e]; simpl; [| done].
    intros H%insert_by_number_perm. by rewrite H, (IH r' eq_refl).
Qed.

Lemma insert_by_number_sorted (x : channel_info) (l r : list channel_info) :
  int_numbered x → Forall int_numbered l → StronglySorted key_le l →
  insert_by_number x l = Ok r → StronglySorted key_le r.
Proof.
  intros [zx Hx] Hl Hs. revert r.
  induction Hs as [| y l Hs IH Hy]; intros r; simpl.
  - intros [= <-]. repeat constructor.
  - apply Forall_cons in Hl as [[zy Hzy] Hl]. rewrite Hzy, Hx. simpl.
    destruct (zy <? zx) eqn:Hlt.
    + destruct (insert_by_number x l) as [r' | e] eqn:Hins; simpl; [| done].
      intros [= <-]. constructor; [by apply IH |].
      rewrite (insert_by_number_perm _ _ _ Hins). constructor; [| done].
      unfold key_le, int_key. rewrite Hzy, Hx. apply Z.ltb_lt in Hlt. lia.
    + intros [= <-]. apply Z.ltb_ge in Hlt.
      assert (key_le x y) as Hxy by (unfold key_le, int_key; by rewrite Hzy, Hx).
      constructor; [by constructor |]. constructor; [done |].
      eapply Forall_impl; [exact Hy |]. unfold key_le in *. intros; lia.
Qed.

(** On channels whose numbers are all [int]s the sort succeeds, and sorts. *)
Lemma sort_by_number_ints (l : list channel_info) :
  Forall int_numbered l →
  ∃ r, sort_by_number l = Ok r ∧ StronglySorted key_le r.
Proof.
  induction l as [| x l IH]; intros Hl; simpl.
  - exists []. split; [done | constructor].
  - apply Forall_cons in Hl as [Hx Hl]. destruct (IH Hl) as (r' & Hr' & Hs').
    rewrite Hr'. simpl.
    assert (Forall int_numbered r') as Hl'
      by (by rewrite (sort_by_number_perm _ _ Hr')).
    assert (∃ r, insert_by_number x r' = Ok r) as [r Hr].
    { clear Hr' Hs' IH. destruct Hx as [zx Hx].
      induction Hl' as [| y r' [zy Hy] _ IH']; simpl; [eauto |].
      rewrite Hy, Hx. simpl. destruct (zy <? zx); [| eauto].
      destruct IH' as [r ->]. simpl. eauto. }
    exists r. split; [done |]. by eapply insert_by_number_sorted.
Qed.

Lemma sort_by_number_sorted (l r : list channel_info) :
  Forall int_numbered l → sort_by_number l = Ok r → StronglySorted key_le r.
Proof.
  intros Hl Hr. destruct (sort_by_number_ints l Hl) as (r' & Hr' & Hs).
  congruence.
Qed.

(** The sort raises nothing but [TypeError]. *)
Lemma sort_by_number_raise (l : list channel_info) (e : exn) :
  sort_by_number l = Raise e → e = TypeError.
Proof.
  assert (∀ x l, insert_by_number x l = Raise e → e = TypeError) as Hins.
  { intros x l0. induction l0 as [| y l0 IH]; simpl; [done |].
    destruct (number y), (number x); simpl; try (by intros [= <-]).
    - destruct (z <? z0); [| done].
      destruct (insert_by_number x l0); simpl; [done |].
      intros [= <-]. by apply IH.
    - destruct (s <? s0)%string; [| done].
      destruct (insert_by_number x l0); simpl; [done |].
      intros [= <-]. by apply IH. }
  induction l as [| x l IH]; simpl; [done |].
  destruct (sort_by_number l) as [r |]; simpl.
  - apply Hins.
  - intros [= <-]. by apply IH.
Qed.

(** A list the sort accepts has numbers of one type. *)
Lemma sort_by_number_homogeneous (l r : list channel_info) :
  sort_by_number l = Ok r → Forall int_numbered l ∨ Forall str_numbered l.
Proof.
  revert r. induction l as [| x l IH]; intros r; simpl; [by left |].
  destruct (sort_by_number l) as [r' |] eqn:Hr'; simpl; [| done].
  intros Hins. pose proof (sort_by_number_perm _ _ Hr') as Hp.
  destruct r' as [| y r'].
  - apply Permutation_nil_l in Hp as <-.
    destruct (number x) as [z | t] eqn:Hx.
    + left. constructor; [by exists z | done].
    + right. constructor; [by exists t | done].
  - simpl in Hins. destruct (IH _ eq_refl) as [Hi | Hs].
    + left. constructor; [| done].
      assert (int_numbered y) as [zy Hy].
      { eapply Forall_forall; [exact Hi |]. rewrite <- Hp. by left. }
      rewrite Hy in Hins. destruct (number x) as [z | t] eqn:Hx; [| done].
      by exists z.
    + right. constructor; [| done].
      assert (str_numbered y) as [ty Hy].
      { eapply Forall_forall; [exact Hs |]. rewrite <- Hp. by left. }
      rewrite Hy in Hins. destruct (number x) as [z | t] eqn:Hx; [done |].
      by exists t.
Qed.

(** Two channels, one numbered by an [int] and one by a [str]: the sort
    raises [TypeError]. *)
Lemma sort_by_number_mixed (l : list channel_info) (a b : channel_info) :
  a ∈ l → b ∈ l → int_numbered a → str_numbered b →
  sort_by_number l = Raise TypeError.
Proof.
  intros Ha Hb [z Hz] [t Ht].
  destruct (sort_by_number l) as [r | e] eqn:Hsort.
  - destruct (sort_by_number_homogeneous _ _ Hsort) as [Hi | Hs].
    + destruct (proj1 (Forall_forall _ _) Hi b Hb) as [z' Hz']. congruence.
    + destruct (proj1 (Forall_forall _ _) Hs a Ha) as [t' Ht']. congruence.
  - by rewrite (sort_by_number_raise _ _ Hsort).
Qed.

Lemma StronglySorted_le_lt (zs : list Z) :
  StronglySorted Z.le zs → NoDup zs → StronglySorted Z.lt zs.
Proof.
  induction 1 as [| z zs Hs IH Hz]; intros Hnd; [constructor |].
  apply NoDup_cons in Hnd as [Hnin Hnd]. constructor; [by apply IH |].
  apply Forall_forall. intros y Hy.
  pose proof (proj1 (Forall_forall _ _) Hz y Hy) as Hle.
  assert (z ≠ y) by (intros ->; done). lia.
Qed.

(** Numbers that are all [int]s: the list of these [int]s. *)
Lemma numbers_ints (chs : list channel_info) (zs : list Z) :
  number <$> chs = VInt <$> zs →
  Forall int_numbered chs ∧ zs = int_key <$> chs.
Proof.
  revert zs. induction chs as [| ch chs IH]; intros [| z zs]; simpl; try done.
  intros [= Hn Hrest]. destruct (IH zs Hrest) as [Hf ->].
  split; [constructor; [by exists z | done] |].
  f_equal. unfold int_key. by rewrite Hn.
Qed.

(* ===================================================================== *)
(** * The order of the catalog *)
(* ===================================================================== *)

Lemma registry_inj_insert_fresh (m : gmap string value) (n : string)
    (v : value) (z : Z) :
  registry_inj m → int_of_value v = Some z →
  (∀ k' v' z', m !! k' = Some v' → int_of_value v' = Some z' → z' < z) →
  registry_inj (<[n := v]> m).
Proof.
  intros Hinj Hv Hfresh k1 k2 v1 v2 z0 H1 H2 Hz1 Hz2.
  destruct (decide (n = k1)) as [<- | Hne1];
    destruct (decide (n = k2)) as [<- | Hne2]; [done | | |].
  - rewrite lookup_insert_eq in H1. injection H1 as <-.
    rewrite lookup_insert_ne in H2 by done.
    specialize (Hfresh _ _ _ H2 Hz2). assert (z0 = z) by congruence. lia.
  - rewrite lookup_insert_eq in H2. injection H2 as <-.
    rewrite lookup_insert_ne in H1 by done.
    specialize (Hfresh _ _ _ H1 Hz1). assert (z0 = z) by congruence. lia.
  - rewrite lookup_insert_ne in H1, H2 by done. eauto.
Qed.

(** What a call that returns has done, on any mapping. *)
Lemma assign_ok_inv (m m' : gmap string value) (n : string) (v : value) :
  _assign_channel_number m n = (Ok v, m') →
  (m !! n = Some v ∧ m' = m) ∨
  (m !! n = None ∧ ∃ z, v = VInt z ∧ m' = <[n := VStr (py_str z)]> m ∧
     ∀ k' v' z', m !! k' = Some v' → int_of_value v' = Some z' → z' < z).
Proof.
  unfold _assign_channel_number. destruct (m !! n) as [w |] eqn:Hn.
  - intros [= <- <-]. by left.
  - intros H. right. split; [done |].
    destruct (bool_decide (m = ∅)) eqn:He; simpl in *.
    + injection H as <- <-. exists 1. split; [done |]. split; [done |].
      apply bool_decide_eq_true in He as ->. intros k' v' z'.
      by rewrite lookup_empty.
    + destruct (max_int_values m) as [mx |] eqn:Hmx; simpl in *; [| done].
      injection H as <- <-. exists (mx + 1). split; [done |]. split; [done |].
      intros k' v' z' Hk' Hz'.
      destruct (proj1 (max_int_values_inv _ _ Hmx) _ _ Hk') as (z0 & Hz0 & Hle).
      assert (z0 = z') by congruence. lia.
Qed.

Lemma assign_raise_inv (m m' : gmap string value) (n : string) (e : exn) :
  _assign_channel_number m n = (Raise e, m') → m' = m.
Proof.
  unfold _assign_channel_number. destruct (m !! n); [done |].
  destruct (bool_decide (m = ∅)); simpl; [done |].
  destruct (max_int_values m); simpl; [done |]. by intros [= <- <-].
Qed.

Lemma linked_weaken (m m' : gmap string value) (ch : channel_info) :
  m ⊆ m' → linked m ch → linked m' ch.
Proof.
  intros Hsub (v & Hv & Hz). exists v. split; [| done]. by eapply lookup_weaken.
Qed.

Lemma collect_numbers fs completion (chs : list channel_info) :
  number <$> collect fs completion chs = number <$> chs ∧
  name <$> collect fs completion chs = name <$> chs.
Proof.
  split; apply list_eq; intros j; rewrite !list_lookup_fmap, collect_lookup;
    destruct (decide (j ∈ completion)); try done;
    destruct (chs !! j) as [ch |]; simpl; try done;
    unfold resolved_channel; by destruct (fs !! j) as [[u | err] |].
Qed.

Section CatalogFacts.
Variable urljoin : string -> string -> option string.

(** Parsing keeps the registry injective and every record in agreement with
    the registry. *)
Lemma parse_items_linked (s : scraper) (items : list li_item) :
  registry_inj (channel_mapping s) →
  Forall (linked (channel_mapping s)) (channels s) →
  registry_inj (channel_mapping (parse_items urljoin s items)) ∧
  Forall (linked (channel_mapping (parse_items urljoin s items)))
    (channels (parse_items urljoin s items)).
Proof.
  revert s. induction items as [| it items IH]; intros s Hinj Hl; [done |].
  unfold parse_items in *. simpl. apply IH.
  - destruct (parse_item_cases urljoin s it)
      as [-> | [(e & Ha & _) | (tok & i & l & v & _ & _ & _ & Ha & _)]]; [done | |].
    + by rewrite (assign_raise_inv _ _ _ _ Ha).
    + destruct (assign_ok_inv _ _ _ _ Ha) as [[_ ->] | (Hn & z & -> & -> & Hf)];
        [done |].
      eapply registry_inj_insert_fresh; [done | apply int_of_value_py_str | done].
  - destruct (parse_item_cases urljoin s it)
      as [-> | [(e & Ha & Hc & _) | (tok & i & l & v & _ & _ & _ & Ha & Hc & _)]];
      [done | |].
    + rewrite Hc. by rewrite (assign_raise_inv _ _ _ _ Ha).
    + rewrite Hc. apply Forall_app. split.
      * eapply Forall_impl; [exact Hl |]. intros ch. apply linked_weaken.
        pose proof (assign_subseteq (channel_mapping s)
                      (default ("Channel " ++ tok)%string (alt i))) as Hsub.
        by rewrite Ha in Hsub.
      * constructor; [| done]. unfold linked, parsed_record. simpl.
        destruct (assign_ok_inv _ _ _ _ Ha) as [[Hv ->] | (Hn & z & -> & -> & Hf)].
        -- eauto.
        -- eexists. rewrite lookup_insert_eq. split; [done |].
           apply int_of_value_py_str.
Qed.

(** C2, amended: in a run of [scrape_streams] that returns, the returned
    list is the channel list of the scraper (the one [save_json] and
    [save_m3u] write); when the numbers of its channels are all [int]s, they
    are in ascending order, whatever the order in which the resolutions
    completed; and they are strictly ascending, without duplicates, when the
    scraper started with no channels and an injective registry and the
    display names of the listed channels are pairwise distinct. *)
Theorem catalog_order (s : scraper) (listing : result (list li_item))
    (fetch_urls : bool) (net : nat -> string -> result response)
    (completion : list nat) (chs : list channel_info) (s' : scraper)
    (zs : list Z) :
  scrape_streams urljoin s listing fetch_urls net completion = (Ok chs, s') →
  number <$> chs = VInt <$> zs →
  channels s' = chs ∧
  StronglySorted Z.le zs ∧
  (channels s = [] → registry_inj (channel_mapping s) →
   NoDup (name <$> chs) → StronglySorted Z.lt zs).
Proof.
  unfold scrape_streams, parse_html. destruct listing as [items | e]; [| done].
  destruct (sort_by_number (channels (parse_items urljoin s items)))
    as [sorted | e] eqn:Hsort; [| done].
  intros Hrun Hzs.
  assert (channels s' = chs ∧ number <$> chs = number <$> sorted ∧
          name <$> chs = name <$> sorted) as (Hchs & Hnum & Hname).
  { destruct fetch_urls; simpl in Hrun; injection Hrun as <- <-; simpl;
      [| done].
    split; [done |]. apply collect_numbers. }
  split; [done |]. rewrite Hnum in Hzs. rewrite Hname. clear Hnum Hname.
  destruct (numbers_ints _ _ Hzs) as [Hints ->].
  pose proof (sort_by_number_perm _ _ Hsort) as Hperm.
  assert (StronglySorted Z.le (int_key <$> sorted)) as Hle.
  { apply StronglySorted_fmap with (R1 := key_le); [done |].
    eapply sort_by_number_sorted; [| exact Hsort]. by rewrite <- Hperm. }
  split; [done |]. intros Hempty Hinj Hnames.
  apply StronglySorted_le_lt; [done |].
  destruct (parse_items_linked s items Hinj) as [Hinj' Hlinked];
    [by rewrite Hempty |].
  rewrite <- Hperm in Hlinked.
  apply NoDup_fmap_2_strong; [| by eapply NoDup_fmap_1].
  intros a b Ha Hb Hkey.
  destruct (proj1 (Forall_forall _ _) Hints a Ha) as [za Hza].
  destruct (proj1 (Forall_forall _ _) Hints b Hb) as [zb Hzb].
  destruct (proj1 (Forall_forall _ _) Hlinked a Ha) as (va & Hva & Hia).
  destruct (proj1 (Forall_forall _ _) Hlinked b Hb) as (vb & Hvb & Hib).
  unfold int_key in Hkey. rewrite Hza, Hzb in Hkey. subst zb.
  rewrite Hza in Hia. rewrite Hzb in Hib. simpl in Hia, Hib.
  pose proof (Hinj' _ _ _ _ _ Hva Hvb Hia Hib) as Hsame.
  clear -Hnames Ha Hb Hsame.
  induction sorted as [| c sorted IH]; [by apply elem_of_nil in Ha |].
  rewrite fmap_cons in Hnames. apply NoDup_cons in Hnames as [Hc Hnd].
  apply elem_of_cons in Ha as [-> | Ha]; apply elem_of_cons in Hb as [-> | Hb].
  - done.
  - exfalso. apply Hc. rewrite Hsame. by apply list_elem_of_fmap_2.
  - exfalso. apply Hc. rewrite <- Hsame. by apply list_elem_of_fmap_2.
  - by apply IH.
Qed.
End CatalogFacts.

(** C2, the claim fails: with the registry [{A: '1'}] and a listing that
    names the channel A twice (stream tokens 10 and 11), the run returns two
    channels that both carry the number 1. *)
Lemma catalog_duplicate_numbers :
  ∃ chs s',
    scrape_streams join_demo (init_demo {[ "A" := VStr "1" ]})
      (Ok [item_demo "10" (Some "A"); item_demo "11" (Some "A")]) false
      (fun _ _ => Raise ConnectionError) []
    = (Ok chs, s') ∧
    number <$> chs = [VStr "1"; VStr "1"] ∧
    ¬ strictly_ascending chs.
Proof.
  eexists _, _. split; [vm_compute; reflexivity |]. split; [reflexivity |].
  intros H.
  destruct (H 0%nat 1%nat _ _ ltac:(lia) eq_refl eq_refl)
    as (x & y & Hx & Hy & Hlt).
  vm_compute in Hx, Hy. injection Hx as <-. injection Hy as <-. lia.
Qed.

(** The run of the specification: the registry file gives E, A and C the
    numbers 5, 1 and 3, the listing names them in this order, and the
    resolutions complete in the order 5, 1, 3.  The catalog is 1, 3, 5. *)
Lemma catalog_order_witness :
  let m : gmap string value :=
    <["E" := VInt 5]> (<["C" := VInt 3]> (<["A" := VInt 1]> ∅)) in
  let listing :=
    Ok [item_demo "50" (Some "E"); item_demo "10" (Some "A");
        item_demo "30" (Some "C")] in
  let net (idx : nat) (url : string) : result response := Raise Timeout in
  let run := scrape_streams join_demo (init_demo m) listing true net
               [2; 0; 1]%nat in
  ∃ chs, fst run = Ok chs ∧
    number <$> chs = VInt <$> [1; 3; 5] ∧
    channels (snd run) = chs ∧
    StronglySorted Z.le [1; 3; 5] ∧ StronglySorted Z.lt [1; 3; 5].
Proof.
  intros m listing net run.
  set (logo_url := "http://103.144.89.251/logo.png").
  set (chs := [parsed_record (VInt 1) "A" "10" logo_url;
               parsed_record (VInt 3) "C" "30" logo_url;
               parsed_record (VInt 5) "E" "50" logo_url]).
  assert (scrape_streams join_demo (init_demo m) listing true net [2; 0; 1]%nat
          = (Ok chs, snd run)) as Hrun by (vm_compute; reflexivity).
  exists chs. split; [vm_compute; reflexivity |]. split; [reflexivity |].
  destruct (catalog_order join_demo (init_demo m) listing true net
              [2; 0; 1]%nat chs (snd run) [1; 3; 5] Hrun eq_refl)
    as (Hchs & Hle & Hlt).
  split; [exact Hchs |]. split; [exact Hle |]. apply Hlt.
  - reflexivity.
  - unfold m, init_demo. simpl.
    apply registry_inj_insert_fresh with (z := 5); [| done |].
    + apply registry_inj_insert_fresh with (z := 3); [| done |].
      * apply registry_inj_insert_fresh with (z := 1);
          [apply registry_inj_empty | done |].
        intros k' v' z'. by rewrite lookup_empty.
      * intros k' v' z' [[<- <-] | [_ Hk]]%lookup_insert_Some; [by intros [= <-] |].
        by rewrite lookup_empty in Hk.
    + intros k' v' z' [[<- <-] | [_ Hk]]%lookup_insert_Some; [by intros [= <-] |].
      apply lookup_insert_Some in Hk as [[<- <-] | [_ Hk]]; [by intros [= <-] |].
      by rewrite lookup_empty in Hk.
  - unfold chs. simpl. by apply (bool_decide_unpack _).
Defined.

(* ===================================================================== *)
(** * The matcher finds matches of the pattern only *)
(* ===================================================================== *)

Section MatcherSound.
Context {R : Type}.
Implicit Types (k : list ascii -> option R) (s : list ascii) (r : R).

Lemma m_lit_sound ic (l : list ascii) k s r :
  m_lit ic l k s = Some r →
  ∃ a b, s = (a ++ b)%list ∧
         Forall2 (fun x y => char_eq ic x y = true) l a ∧ k b = Some r.
Proof.
  revert s. induction l as [| x l IH]; intros s; simpl.
  - intros Hk. exists [], s. by repeat split.
  - destruct s as [| y s]; [done |].
    destruct (char_eq ic x y) eqn:Hxy; [| done].
    intros (a & b & -> & Hf & Hk)%IH. exists (y :: a), b.
    split; [done |]. split; [by constructor | done].
Qed.

Lemma m_star_sound (p : ascii -> bool) k s r :
  m_star p k s = Some r →
  ∃ a b, s = (a ++ b)%list ∧ forallb p a = true ∧ k b = Some r.
Proof.
  induction s as [| c s IH]; simpl.
  - intros Hk. by exists [], [].
  - destruct (p c) eqn:Hc.
    + destruct (m_star p k s) as [r' |] eqn:Hs.
      * intros [= <-]. destruct (IH eq_refl) as (a & b & -> & Ha & Hk).
        exists (c :: a), b. split; [done |]. split; [| done].
        simpl. by rewrite Hc.
      * intros Hk. by exists [], (c :: s).
    + intros Hk. by exists [], (c :: s).
Qed.

(** Greedy repetition takes the whole input when the whole input is in the
    class and the rest of the pattern accepts the end of the input. *)
Lemma m_star_all (p : ascii -> bool) k s r :
  forallb p s = true → k [] = Some r → m_star p k s = Some r.
Proof.
  intros Hs Hk. induction s as [| c s IH]; simpl; [done |].
  simpl in Hs. apply andb_true_iff in Hs as [-> Hs]. by rewrite IH.
Qed.

Lemma m_item_sound ic (it : re_item) k s r :
  m_item ic it k s = Some r →
  ∃ a b, s = (a ++ b)%list ∧ item_sem ic it a ∧ k b = Some r.
Proof.
  destruct it as [l | p | p | p | c]; simpl.
  - apply m_lit_sound.
  - destruct s as [| c s]; [done |]. destruct (p c) eqn:Hc; [| done].
    intros Hk. exists [c], s. split; [done |]. split; [| done]. eauto.
  - apply m_star_sound.
  - destruct s as [| c s]; [done |]. destruct (p c) eqn:Hc; [| done].
    intros (a & b & -> & Ha & Hk)%m_star_sound. exists (c :: a), b.
    split; [done |]. split; [| done]. split; [done |]. simpl. by rewrite Hc.
  - destruct s as [| b s].
    + intros Hk. exists [], []. split; [done |]. split; [by left | done].
    + destruct (char_eq ic c b) eqn:Hcb.
      * destruct (k s) as [r' |] eqn:Hs.
        -- intros [= <-]. exists [b], s. split; [done |].
           split; [right; eauto | done].
        -- intros Hk. exists [], (b :: s). split; [done |].
           split; [by left | done].
      * intros Hk. exists [], (b :: s). split; [done |].
        split; [by left | done].
Qed.

Lemma m_items_sound ic (its : list re_item) k s r :
  m_items ic its k s = Some r →
  ∃ a b, s = (a ++ b)%list ∧ items_sem ic its a ∧ k b = Some r.
Proof.
  revert s. induction its as [| it its IH]; intros s; simpl.
  - intros Hk. by exists [], s.
  - intros (a1 & b1 & -> & H1 & (a2 & b & -> & H2 & Hk)%IH)%m_item_sound.
    exists (a1 ++ a2)%list, b. split; [by rewrite app_assoc |].
    split; [| done]. by exists a1, a2.
Qed.

Lemma m_items_app ic (its1 its2 : list re_item) k :
  m_items ic (its1 ++ its2) k = m_items ic its1 (m_items ic its2 k).
Proof. unfold m_items. by rewrite fold_right_app. Qed.
End MatcherSound.

Lemma items_sem_app ic (its1 its2 : list re_item) (a : list ascii) :
  items_sem ic (its1 ++ its2) a →
  ∃ a1 a2, a = (a1 ++ a2)%list ∧ items_sem ic its1 a1 ∧ items_sem ic its2 a2.
Proof.
  revert a. induction its1 as [| it its1 IH]; intros a; simpl.
  - intros H. by exists [], a.
  - intros (a1 & a2 & -> & H1 & (b1 & b2 & -> & Hb1 & Hb2)%IH).
    exists (a1 ++ b1)%list, b2. split; [by rewrite app_assoc |].
    split; [| done]. by exists a1, b1.
Qed.

Lemma items_sem_min ic (its : list re_item) (a : list ascii) :
  items_sem ic its a → (items_min its ≤ length a)%nat.
Proof.
  revert a. induction its as [| it its IH]; intros a; simpl.
  - intros ->. done.
  - intros (a1 & a2 & -> & H1 & H2%IH). rewrite length_app.
    assert (item_min it ≤ length a1)%nat; [| lia].
    destruct it as [l | p | p | p | c]; simpl in *; try lia.
    + by rewrite (Forall2_length _ _ _ H1).
    + destruct H1 as (c & -> & _). done.
    + destruct H1 as [Hne _]. destruct a1; [done | simpl; lia].
Qed.

(** A match of a pattern in its parts: the text before the group, the group,
    the text after it, and what is left of the input. *)
Lemma re_match_sound ic (re : regex) (s g : list ascii) (n : nat) :
  re_match ic re s = Some (g, n) →
  ∃ a c rest,
    s = (a ++ g ++ c ++ rest)%list ∧
    items_sem ic (re_pre re) a ∧ items_sem ic (re_group re) g ∧
    items_sem ic (re_post re) c.
Proof.
  unfold re_match.
  intros (a & s1 & -> & Ha & (g' & s2 & -> & Hg & (c & s3 & -> & Hc & Hr)
            %m_items_sound)%m_items_sound)%m_items_sound.
  injection Hr as <- _. exists a, c, s3.
  assert (firstn (length (g' ++ c ++ s3) - length (c ++ s3)) (g' ++ c ++ s3) = g')
    as ->.
  { rewrite length_app.
    replace (length g' + length (c ++ s3) - length (c ++ s3))%nat
      with (length g') by lia.
    apply take_app_length. }
  done.
Qed.

Lemma findall_chars_sound ic (re : regex) (skip : nat) (s g : list ascii) :
  In g (findall_chars ic re skip s) →
  ∃ before s' n, s = (before ++ s')%list ∧ re_match ic re s' = Some (g, n).
Proof.
  revert skip. induction s as [| c s IH]; intros skip.
  - destruct skip; simpl; [| done].
    destruct (re_match ic re []) as [[g' n] |] eqn:Hm; [| done].
    intros [<- | []]. by exists [], [], n.
  - destruct skip as [| skip]; simpl.
    + destruct (re_match ic re (c :: s)) as [[g' n] |] eqn:Hm.
      * intros [<- | (before & s' & n' & -> & Hm')%IH].
        -- by exists [], (c :: s), n.
        -- by exists (c :: before), s', n'.
      * intros (before & s' & n' & -> & Hm')%IH. by exists (c :: before), s', n'.
    + intros (before & s' & n' & -> & Hm')%IH. by exists (c :: before), s', n'.
Qed.

Lemma search_chars_sound ic (re : regex) (s g : list ascii) :
  search_chars ic re s = Some g →
  ∃ before s' n, s = (before ++ s')%list ∧ re_match ic re s' = Some (g, n).
Proof.
  induction s as [| c s IH]; simpl.
  - destruct (re_match ic re []) as [[g' n] |] eqn:Hm; [| done].
    intros [= <-]. by exists [], [], n.
  - destruct (re_match ic re (c :: s)) as [[g' n] |] eqn:Hm.
    + intros [= <-]. by exists [], (c :: s), n.
    + intros (before & s' & n' & -> & Hm')%IH. by exists (c :: before), s', n'.
Qed.

(* ===================================================================== *)
(** * Bodies that are one quoted stylesheet or script URL *)
(* ===================================================================== *)

Lemma quotes_app (a b : list ascii) :
  quotes (a ++ b) = (quotes a + quotes b)%nat.
Proof. induction a as [| c a IH]; simpl; [done |]. rewrite IH. lia. Qed.

Lemma is_quote_cases (q : ascii) :
  is_quote q = true → q = dquote ∨ q = squote.
Proof.
  unfold is_quote. intros [H | H]%orb_true_iff; apply Ascii.eqb_eq in H; auto.
Qed.

Lemma url_chars_no_quotes (u : list ascii) :
  forallb url_char u = true → quotes u = 0%nat.
Proof.
  induction u as [| c u IH]; simpl; [done |].
  intros [Hc Hu]%andb_true_iff. rewrite (IH Hu).
  unfold url_char in Hc. destruct (is_quote c); [done | done].
Qed.

Lemma url_chars_not_angle_space (u : list ascii) :
  forallb url_char u = true → forallb not_angle_space u = true.
Proof.
  induction u as [| c u IH]; simpl; [done |].
  intros [Hc Hu]%andb_true_iff. rewrite (IH Hu), andb_true_r.
  unfold url_char in Hc. unfold not_angle_space.
  destruct (is_quote c); [done |]. done.
Qed.

Lemma quote_not_angle_space (q : ascii) :
  is_quote q = true → not_angle_space q = true.
Proof. intros [-> | ->]%is_quote_cases; reflexivity. Qed.

Lemma forallb_suffix (p : ascii -> bool) (l1 l2 : list ascii) :
  forallb p (l1 ++ l2) = true → forallb p l2 = true.
Proof. rewrite forallb_app. by intros [_ ?]%andb_true_iff. Qed.

(** Of two ends of a text, the shorter is an end of the longer. *)
Lemma suffix_of_suffix (t g l : list ascii) :
  t `suffix_of` l → g `suffix_of` l → (length t ≤ length g)%nat →
  t `suffix_of` g.
Proof.
  intros [k1 ->] [k2 Heq] Hlen.
  apply app_eq_app in Heq as [x [[-> ->] | [-> ->]]].
  - by exists x.
  - rewrite length_app in Hlen. assert (length x = 0%nat) as Hx by lia.
    apply nil_length_inv in Hx as ->. by exists [].
Qed.

Section QuotedBody.
Variables (q1 q2 : ascii) (u e : list ascii).
Hypothesis Hq1 : is_quote q1 = true.
Hypothesis Hq2 : is_quote q2 = true.
Hypothesis Hu : forallb url_char u = true.
Hypothesis He : asset_extension e.
Hypothesis Heu : e `suffix_of` u.

Local Abbreviation html := (quoted q1 u q2).

Lemma body_quotes : quotes html = 2%nat.
Proof.
  unfold html. simpl. rewrite quotes_app, Hq1, (url_chars_no_quotes u Hu).
  simpl. by rewrite Hq2.
Qed.

Lemma body_not_angle_space : forallb not_angle_space html = true.
Proof.
  unfold html. simpl. rewrite (quote_not_angle_space q1 Hq1). simpl.
  rewrite forallb_app, (url_chars_not_angle_space u Hu). simpl.
  by rewrite (quote_not_angle_space q2 Hq2).
Qed.

(** A text that begins the body and is not empty contains a quote. *)
Lemma body_prefix_quote (w rest : list ascii) :
  html = (w ++ rest)%list → w ≠ [] → (1 ≤ quotes w)%nat.
Proof.
  unfold html. destruct w as [| c w]; [done |]. simpl.
  intros [= <- _] _. rewrite Hq1. lia.
Qed.

(** A text that ends the body and is not empty contains a quote. *)
Lemma body_suffix_quote (before w : list ascii) :
  html = (before ++ w)%list → w ≠ [] → (1 ≤ quotes w)%nat.
Proof.
  unfold html. destruct w as [| c w _] using rev_ind; [done |].
  intros Heq _. rewrite app_comm_cons, app_assoc in Heq.
  apply app_inj_tail in Heq as [_ <-].
  rewrite quotes_app. simpl. rewrite Hq2. lia.
Qed.

(** The patterns that ask for text before a quoted group match nowhere in
    the body: the body has its two quotes at its two ends. *)
Lemma quoted_after_text_no_match ic (re : regex) (before s' g : list ascii)
    (n : nat) :
  quoted_after_text re → html = (before ++ s')%list →
  re_match ic re s' = Some (g, n) → False.
Proof.
  intros (front & back & Hpre & Hmin & Hpost) Hbody
    (a & c & rest & -> & Ha & _ & Hc)%re_match_sound.
  rewrite Hpre in Ha. rewrite Hpost in Hc.
  apply items_sem_app in Ha as (a0 & aq & -> & Ha0 & Haq).
  simpl in Haq. destruct Haq as (? & ? & -> & (q & -> & Hq) & ->).
  simpl in Hc. destruct Hc as (? & c2 & -> & (q' & -> & Hq') & _).
  apply items_sem_min in Ha0.
  assert (before ++ a0 ≠ [])%list as Hne.
  { destruct a0; [simpl in Ha0; lia |]. by destruct before. }
  pose proof body_quotes as H2. rewrite Hbody in H2.
  assert (html = ((before ++ a0) ++ ([q] ++ []) ++ g ++ ([q'] ++ c2) ++ rest))%list
    as Hsplit by (rewrite Hbody; by rewrite <- !app_assoc).
  pose proof (body_prefix_quote _ _ Hsplit Hne) as H1.
  rewrite <- !app_assoc in H2. rewrite !quotes_app in H2, H1.
  rewrite !quotes_app in H2. simpl in H2. rewrite Hq, Hq' in H2. lia.
Qed.

(** Pattern 4 can only capture the URL between the two quotes. *)
Lemma pattern_4_capture (before s' g : list ascii) (n : nat) :
  html = (before ++ s')%list →
  re_match true pattern_4 s' = Some (g, n) → g = u.
Proof.
  intros Hbody (a & c & rest & -> & Ha & _ & Hc)%re_match_sound.
  simpl in Ha, Hc.
  destruct Ha as (? & ? & -> & (qa & -> & Hqa) & ->).
  destruct Hc as (? & ? & -> & (qb & -> & Hqb) & ->).
  pose proof body_quotes as H2. rewrite Hbody in H2.
  rewrite !quotes_app in H2. simpl in H2. rewrite Hqa, Hqb in H2.
  assert (before = []) as ->.
  { destruct (decide (before = [])) as [| Hne]; [done |].
    pose proof (body_prefix_quote before _ Hbody Hne). lia. }
  assert (rest = []) as ->.
  { destruct (decide (rest = [])) as [| Hne]; [done |].
    assert (html = (([] ++ ([qa] ++ []) ++ g ++ [qb] ++ []) ++ rest))%list
      as Hsplit by (rewrite Hbody; simpl; by rewrite <- !app_assoc).
    pose proof (body_suffix_quote _ rest Hsplit Hne). lia. }
  unfold html in Hbody. simpl in Hbody. injection Hbody as _ Hbody.
  by apply app_inj_tail in Hbody as [-> _].
Qed.

(** Pattern 5 runs to the end of the body: every character of the body is
    in the class of its last repetition. *)
Lemma pattern_5_capture (before s' g : list ascii) (n : nat) :
  html = (before ++ s')%list →
  re_match true pattern_5 s' = Some (g, n) →
  g = s' ∧ (13 ≤ length g)%nat.
Proof.
  intros Hbody Hm.
  change (m_items true
            ([Lit "http"; Opt "s"; Lit "://"; Plus not_angle_space; Lit ".m3u8"]
             ++ [Star not_angle_space])
            (fun s2 => Some (firstn (length s' - length s2) s',
                             (length s' - length s2)%nat)) s'
          = Some (g, n)) in Hm.
  rewrite m_items_app in Hm.
  apply m_items_sound in Hm as (a & b & -> & Ha & Hstar).
  apply items_sem_min in Ha. simpl in Ha.
  assert (forallb not_angle_space b = true) as Hb.
  { pose proof body_not_angle_space as Hall. rewrite Hbody in Hall.
    by do 2 apply forallb_suffix in Hall. }
  simpl in Hstar.
  erewrite m_star_all in Hstar; [| exact Hb | reflexivity].
  injection Hstar as <- _. simpl. rewrite Nat.sub_0_r, firstn_all.
  split; [done |]. rewrite length_app. lia.
Qed.

(** The end of the body, and of every text that ends the body and has at
    least five characters. *)
Lemma body_tail (g : list ascii) :
  g `suffix_of` html → (5 ≤ length g)%nat →
  ∃ t, asset_tail t ∧ t `suffix_of` g.
Proof.
  intros Hg Hlen. exists (e ++ [q2])%list. split.
  - exists e. split; [done |]. right. by exists q2.
  - apply (suffix_of_suffix _ _ html); [| done |].
    + destruct Heu as [k ->]. exists (q1 :: k). unfold html.
      by rewrite <- app_assoc.
    + rewrite length_app. simpl.
      destruct He as [-> | ->]; simpl; lia.
Qed.

Lemma url_tail : ∃ t, asset_tail t ∧ t `suffix_of` u.
Proof. exists e. split; [| done]. exists e. split; [done | by left]. Qed.
End QuotedBody.

(* ===================================================================== *)
(** * The exclusion list *)
(* ===================================================================== *)

Lemma chars_text (l : list ascii) : chars (text l) = l.
Proof. apply list_ascii_of_string_of_list_ascii. Qed.

Lemma contains_app_r (sub a b : list ascii) :
  contains sub b = true → contains sub (a ++ b) = true.
Proof.
  intros Hb. induction a as [| c a IH]; simpl; [done |].
  rewrite IH. apply orb_true_r.
Qed.

(** A URL that ends like a stylesheet or a script is on the exclusion
    list. *)
Lemma excluded_of_tail (url : string) (t : list ascii) :
  asset_tail t → t `suffix_of` chars url → excluded url = true.
Proof.
  intros (e & He & Ht) [k Hk]. unfold excluded, exclusions, str_in, str_lower.
  simpl existsb. rewrite !chars_text, Hk. unfold lower. rewrite map_app.
  assert (contains (chars "css") (List.map lower_char t) = true ∨
          contains (chars "js") (List.map lower_char t) = true) as [H | H].
  { destruct He as [-> | ->]; destruct Ht as [-> | (q & Hq & ->)];
      try destruct (is_quote_cases q Hq) as [-> | ->];
      (by left) || (by right). }
  - by rewrite (contains_app_r _ _ _ H).
  - rewrite (contains_app_r (chars "js") _ _ H). by rewrite orb_true_r.
Qed.

Lemma quoted_after_text_patterns :
  quoted_after_text pattern_1 ∧ quoted_after_text pattern_2 ∧
  quoted_after_text pattern_3 ∧ quoted_after_text pattern_6 ∧
  quoted_after_text pattern_7 ∧ quoted_after_text iframe_re.
Proof.
  repeat split.
  - exists [Lit "src="], []. simpl. repeat split; lia.
  - exists [Lit "src"; Star py_isspace; Lit ":"; Star py_isspace], [].
    simpl. repeat split; lia.
  - exists [Lit "<source"; Plus not_gt; Lit "src="], []. simpl. repeat split; lia.
  - exists [Lit "data-src="], []. simpl. repeat split; lia.
  - exists [Lit "<iframe"; Plus not_gt; Lit "src="], [Star not_gt; Lit ">"].
    simpl. repeat split; lia.
  - exists [Lit "<iframe"; Plus not_gt; Lit "src="], []. simpl. repeat split; lia.
Qed.

Section Exclusion.
Variable urljoin : string -> string -> option string.

(** The loop never returns a URL of the exclusion list. *)
Lemma try_match_not_excluded (base url u : string) :
  try_match urljoin base url = Ok (Some u) → excluded u = false.
Proof.
  unfold try_match.
  destruct (str_in ".m3u8" (str_lower url) || str_in "stream" (str_lower url)
            || str_startswith url "http"); [| done].
  destruct (if negb (str_startswith url "http") then py_urljoin urljoin base url
            else Ok url) as [url' | e]; simpl; [| done].
  destruct (excluded url') eqn:Hex; [done |]. by intros [= <-].
Qed.

Lemma scan_matches_not_excluded (base : string) (matches : list string)
    (u : string) :
  scan_matches urljoin base matches = Ok (Some u) → excluded u = false.
Proof.
  induction matches as [| url rest IH]; simpl; [done |].
  destruct (try_match urljoin base url) as [[u' |] | e] eqn:Ht; simpl;
    [| done | done].
  intros [= <-]. by eapply try_match_not_excluded.
Qed.

Lemma scan_patterns_not_excluded (base : string) (patterns : list regex)
    (html_content u : string) :
  scan_patterns urljoin base patterns html_content = Ok (Some u) →
  excluded u = false.
Proof.
  induction patterns as [| p ps IH]; simpl; [done |].
  destruct (scan_matches urljoin base (re_findall true p html_content))
    as [[u' |] | e] eqn:Hs; simpl; [| done | done].
  intros [= <-]. by eapply scan_matches_not_excluded.
Qed.

(** A candidate that ends like a stylesheet or a script is skipped, unless
    joining it raises. *)
Lemma try_match_asset (base url : string) (t : list ascii) :
  urljoin_keeps_tail urljoin → asset_tail t → t `suffix_of` chars url →
  try_match urljoin base url = Ok None ∨
  ∃ e, try_match urljoin base url = Raise e.
Proof.
  intros Hjoin Ht Hsuf. unfold try_match.
  destruct (str_in ".m3u8" (str_lower url) || str_in "stream" (str_lower url)
            || str_startswith url "http"); [| by left].
  destruct (str_startswith url "http"); simpl.
  - rewrite (excluded_of_tail url t Ht Hsuf). by left.
  - unfold py_urljoin. destruct (urljoin base url) as [res |] eqn:Hres; simpl.
    + rewrite (excluded_of_tail res t Ht (Hjoin _ _ _ _ Hres Ht Hsuf)). by left.
    + right. eauto.
Qed.

Lemma scan_matches_assets (base : string) (matches : list string) :
  urljoin_keeps_tail urljoin →
  (∀ url, url ∈ matches → ∃ t, asset_tail t ∧ t `suffix_of` chars url) →
  scan_matches urljoin base matches = Ok None ∨
  ∃ e, scan_matches urljoin base matches = Raise e.
Proof.
  intros Hjoin. induction matches as [| url rest IH]; intros Hall; simpl;
    [by left |].
  destruct (Hall url) as (t & Ht & Hsuf); [by left |].
  destruct (try_match_asset base url t Hjoin Ht Hsuf) as [-> | [e ->]]; simpl.
  - apply IH. intros url' Hin. apply Hall. by right.
  - right. eauto.
Qed.

(** In a body that is one quoted stylesheet or script URL, every candidate
    of every pattern ends like a stylesheet or a script. *)
Lemma quoted_asset_candidates (html_content : string) (p : regex) (url : string) :
  quoted_asset_body html_content → p ∈ m3u8_patterns →
  url ∈ re_findall true p html_content →
  ∃ t, asset_tail t ∧ t `suffix_of` chars url.
Proof.
  intros (q1 & q2 & u & e & -> & Hq1 & Hq2 & Hu & He & Heu) Hp.
  unfold re_findall. rewrite chars_text.
  intros (g & -> & Hg%list_elem_of_In%findall_chars_sound)%list_elem_of_fmap.
  destruct Hg as (before & s' & n & Hbody & Hm). rewrite chars_text.
  destruct quoted_after_text_patterns as (H1 & H2 & H3 & H6 & H7 & _).
  unfold m3u8_patterns in Hp.
  repeat (apply elem_of_cons in Hp as [-> | Hp]);
    try (exfalso;
         refine (quoted_after_text_no_match q1 q2 u Hq1 Hq2 Hu _ _ _ _ _ _ _
                   Hbody Hm); assumption).
  - rewrite (pattern_4_capture q1 q2 u e Hq1 Hq2 Hu Heu _ _ _ _ Hbody Hm).
    by apply (url_tail u e).
  - destruct (pattern_5_capture q1 q2 u Hq1 Hq2 Hu _ _ _ _ Hbody Hm) as [-> Hlen].
    apply (body_tail q1 q2 u e Hq2 Hu He Heu); [by exists before | lia].
  - by apply elem_of_nil in Hp.
Qed.

Lemma scan_patterns_quoted_asset (base html_content : string)
    (patterns : list regex) :
  urljoin_keeps_tail urljoin → quoted_asset_body html_content →
  (∀ p, p ∈ patterns → p ∈ m3u8_patterns) →
  scan_patterns urljoin base patterns html_content = Ok None ∨
  ∃ e, scan_patterns urljoin base patterns html_content = Raise e.
Proof.
  intros Hjoin Hbody. induction patterns as [| p ps IH]; intros Hsub; simpl;
    [by left |].
  destruct (scan_matches_assets base (re_findall true p html_content) Hjoin)
    as [-> | [e ->]]; simpl.
  - intros url Hurl. eapply quoted_asset_candidates; [done | | done].
    apply Hsub. by left.
  - apply IH. intros p' Hp'. apply Hsub. by right.
  - right. eauto.
Qed.

Lemma iframe_fallback_quoted_asset (base html_content : string) :
  quoted_asset_body html_content →
  iframe_fallback urljoin base html_content = Ok None.
Proof.
  intros (q1 & q2 & u & e & -> & Hq1 & Hq2 & Hu & He & Heu).
  unfold iframe_fallback, re_search. rewrite chars_text.
  destruct (search_chars false iframe_re (quoted q1 u q2)) as [g |] eqn:Hs;
    [| done].
  exfalso. apply search_chars_sound in Hs as (before & s' & n & Hbody & Hm).
  destruct quoted_after_text_patterns as (_ & _ & _ & _ & _ & Hf).
  exact (quoted_after_text_no_match q1 q2 u Hq1 Hq2 Hu _ _ _ _ _ _ Hf Hbody Hm).
Qed.

(** C5: when the response body is one quoted URL that ends in [.css] or
    [.js] (a quote, URL characters, a quote), [fetch_m3u8_url] returns
    [None]; a candidate whose URL contains a fragment of the exclusion list
    is never returned by the loop over the patterns, and after a candidate
    that is skipped the loop goes on with the next candidate of the same
    pattern, then with the next pattern. *)
Theorem resolver_exclusion (base : string) :
  (∀ get stream_number r,
     urljoin_keeps_tail urljoin →
     get (player_url base stream_number) = Ok r →
     quoted_asset_body (body r) →
     fetch_m3u8_url urljoin base get stream_number = None) ∧
  (∀ patterns html_content u,
     scan_patterns urljoin base patterns html_content = Ok (Some u) →
     excluded u = false) ∧
  (∀ url rest,
     try_match urljoin base url = Ok None →
     scan_matches urljoin base (url :: rest) = scan_matches urljoin base rest) ∧
  (∀ p ps html_content,
     scan_matches urljoin base (re_findall true p html_content) = Ok None →
     scan_patterns urljoin base (p :: ps) html_content
     = scan_patterns urljoin base ps html_content).
Proof.
  split; [| split; [| split]].
  - intros get stream_number r Hjoin Hget Hbody.
    unfold fetch_m3u8_url, fetch_attempt. rewrite Hget. simpl.
    destruct (raise_for_status r) as [[] | e0]; simpl;
      [| by destruct (is_request_exception e0)].
    unfold extract_url.
    destruct (scan_patterns_quoted_asset base (body r) m3u8_patterns Hjoin Hbody)
      as [-> | [e ->]]; [done | | by simpl; destruct (is_request_exception e)].
    simpl. by rewrite iframe_fallback_quoted_asset.
  - intros patterns html_content u. apply scan_patterns_not_excluded.
  - intros url rest H. simpl. by rewrite H.
  - intros p ps html_content H. simpl. by rewrite H.
Qed.
End Exclusion.

Lemma join_demo_keeps_tail : urljoin_keeps_tail join_demo.
Proof.
  intros base ref res t Hres _ [k Hk]. unfold join_demo in Hres.
  destruct (str_startswith ref "http"); injection Hres as <-.
  - by exists k.
  - exists (chars base ++ chars "/" ++ k)%list.
    rewrite <- !app_assoc, <- Hk.
    assert (∀ a b : string, chars (a ++ b)%string = (chars a ++ chars b)%list)
      as Happ.
    { intros a b. induction a as [| c a IH]; simpl; [done |]. by rewrite IH. }
    by rewrite !Happ.
Qed.

(** The body ['http://cdn/player.m3u8.css'], answered with status 200. *)
Lemma resolver_exclusion_witness :
  let r := {| status_code := 200; body := "'http://cdn/player.m3u8.css'" |} in
  urljoin_keeps_tail join_demo ∧ quoted_asset_body (body r) ∧
  fetch_m3u8_url join_demo "http://h" (fun _ => Ok r) "42" = None.
Proof.
  intros r.
  assert (quoted_asset_body (body r)) as Hbody.
  { exists squote, squote, (chars "http://cdn/player.m3u8.css"), (chars ".css").
    split; [reflexivity |]. split; [reflexivity |]. split; [reflexivity |].
    split; [reflexivity |]. split; [by left |].
    by exists (chars "http://cdn/player.m3u8"). }
  split; [exact join_demo_keeps_tail |]. split; [exact Hbody |].
  apply (proj1 (resolver_exclusion join_demo "http://h") (fun _ => Ok r) "42" r
           join_demo_keeps_tail eq_refl Hbody).
Defined.

(* ===================================================================== *)
(** * The parsing loop as a sequence of calls on the registry *)
(* ===================================================================== *)

Section ParseSpec.
Variable urljoin : string -> string -> option string.

(** One iteration: the guards, then the call on the registry. *)
Lemma parse_item_accepted (s : scraper) (it : li_item) :
  parse_item urljoin s it =
  match accepted_item urljoin (base_url s) it with
  | None => s
  | Some (n, tok, l) =>
      match _assign_channel_number (channel_mapping s) n with
      | (Ok v, m) =>
          {| base_url := base_url s; channel_mapping := m;
             channels := channels s ++ [parsed_record v n tok l];
             events := events s |}
      | (Raise _, m) =>
          {| base_url := base_url s; channel_mapping := m;
             channels := channels s; events := events s |}
      end
  end.
Proof.
  unfold parse_item, accepted_item, py_urljoin.
  destruct (link it) as [a |]; simpl; [| done].
  destruct (re_search false stream_re (default "" (onclick a))) as [tok |];
    simpl; [| done].
  destruct (img it) as [i |]; simpl; [| done].
  destruct (urljoin (base_url s) (default "" (src i))) as [l |]; simpl; [| done].
  by destruct (_assign_channel_number (channel_mapping s)
                 (default ("Channel " ++ tok)%string (alt i))) as [[v | e] m].
Qed.

Lemma assign_all_cons (m : gmap string value) (n : string) (ns : list string) :
  assign_all m (n :: ns)
  = (fst (_assign_channel_number m n)
       :: fst (assign_all (snd (_assign_channel_number m n)) ns),
     snd (assign_all (snd (_assign_channel_number m n)) ns)).
Proof.
  simpl. destruct (_assign_channel_number m n) as [r m1]. simpl.
  by destruct (assign_all m1 ns).
Qed.

(** The loop over the listing is the sequence of calls of
    [_assign_channel_number] for the accepted items, in listing order; the
    records appended are those of the calls that returned. *)
Lemma parse_items_assign_all (s : scraper) (items : list li_item) :
  let acc := omap (accepted_item urljoin (base_url s)) items in
  let run := assign_all (channel_mapping s) (accepted_name <$> acc) in
  channel_mapping (parse_items urljoin s items) = snd run ∧
  channels (parse_items urljoin s items)
  = (channels s ++ records acc (fst run))%list.
Proof.
  revert s. induction items as [| it items IH]; intros s.
  - simpl. split; [done | by rewrite app_nil_r].
  - cbv zeta in *. unfold parse_items in *. cbn [fold_left].
    destruct (parse_item_frame urljoin s it) as (_ & Hb & _).
    specialize (IH (parse_item urljoin s it)). rewrite Hb in IH.
    destruct IH as [IHm IHc]. rewrite IHm, IHc. clear IHm IHc.
    rewrite parse_item_accepted. cbn [omap list_omap].
    destruct (accepted_item urljoin (base_url s) it) as [[[n tok] l] |];
      [| done].
    rewrite fmap_cons. change (accepted_name (n, tok, l)) with n.
    rewrite assign_all_cons.
    destruct (_assign_channel_number (channel_mapping s) n) as [[v | e] m];
      cbn [fst snd channel_mapping channels records]; split; try done.
    by rewrite <- app_assoc.
Qed.

(** Whatever a run of [scrape_streams] does, and whether it returns or
    raises, every entry the registry had before the run is still there with
    the same value: a name never loses or changes its number. *)
Theorem registry_only_grows (s : scraper) (listing : result (list li_item))
    (fetch_urls : bool) (net : nat -> string -> result response)
    (completion : list nat) :
  channel_mapping s
  ⊆ channel_mapping (snd (scrape_streams urljoin s listing fetch_urls net
                            completion)).
Proof.
  unfold scrape_streams, parse_html. destruct listing as [items | e]; [| done].
  destruct (parse_items_frame urljoin s items) as (_ & _ & Hsub & _).
  destruct (sort_by_number (channels (parse_items urljoin s items)));
    [| done].
  by destruct fetch_urls.
Qed.
End ParseSpec.

(* ===================================================================== *)
(** * Numbering from an empty registry *)
(* ===================================================================== *)

Lemma dense_empty : dense ∅.
Proof.
  split.
  - intros n v. by rewrite lookup_empty.
  - intros z. rewrite map_size_empty. lia.
Qed.

Lemma dense_wf (m : gmap string value) : dense m → registry_wf m.
Proof. intros [H _] k v Hk. destruct (H _ _ Hk) as (z & Hz & _). eauto. Qed.

(** On a dense mapping a new name receives the number of names plus one,
    and the mapping stays dense. *)
Lemma assign_dense (m : gmap string value) (n : string) :
  dense m → m !! n = None →
  _assign_channel_number m n
  = (Ok (VInt (Z.of_nat (size m) + 1)),
     <[n := VStr (py_str (Z.of_nat (size m) + 1))]> m) ∧
  dense (<[n := VStr (py_str (Z.of_nat (size m) + 1))]> m).
Proof.
  intros Hd Hn. pose proof (dense_wf m Hd) as Hwf. destruct Hd as [Hle Hex].
  destruct (assign_step m n Hwf)
    as (v & z & m' & Heq & _ & _ & _ & _ & _ & Hnew & _).
  destruct (Hnew Hn) as (-> & -> & Hz1 & Hzmx & _).
  assert (z = Z.of_nat (size m) + 1) as ->.
  { destruct (decide (m = ∅)) as [-> | Hne].
    - rewrite map_size_empty. by apply Hz1.
    - destruct (max_int_values_wf m Hwf Hne) as (mx & Hmx & Hall & k & w & Hk & Hw).
      rewrite (Hzmx mx Hmx). f_equal.
      destruct (Hle _ _ Hk) as (z' & Hz' & Hb).
      assert (z' = mx) as -> by congruence.
      destruct (Hex (Z.of_nat (size m))) as (k2 & w2 & Hk2 & Hw2).
      { apply map_size_non_empty_iff in Hne. lia. }
      specialize (Hall _ _ _ Hk2 Hw2). lia. }
  split; [done |]. unfold dense. rewrite map_size_insert_None by done. split.
  - intros k w Hk. destruct (decide (n = k)) as [<- | Hne].
    + rewrite lookup_insert_eq in Hk. injection Hk as <-.
      rewrite int_of_value_py_str. eexists. split; [done | lia].
    + rewrite lookup_insert_ne in Hk; [| done].
      destruct (Hle _ _ Hk) as (z' & Hz' & Hb). exists z'. split; [done | lia].
  - intros z Hz. destruct (decide (z = Z.of_nat (size m) + 1)) as [-> | Hne].
    + exists n. eexists. rewrite lookup_insert_eq. split; [done |].
      apply int_of_value_py_str.
    + destruct (Hex z) as (k & w & Hk & Hw); [lia |].
      exists k, w. split; [| done]. rewrite lookup_insert_ne; [done |].
      intros ->. congruence.
Qed.

Lemma registry_after_take_subseteq (names : list string) (k : nat) :
  registry_after (take k names) ⊆ registry_after names.
Proof.
  unfold registry_after. rewrite <- (take_drop k names) at 2.
  rewrite assign_all_app. simpl.
  destruct (registry_after_wf (take k names)) as [Hwf Hinj].
  by destruct (assign_all_spec (registry_after (take k names)) (drop k names)
                 Hwf Hinj) as (_ & _ & Hsub & _).
Qed.

(** The registry after the first [k] of pairwise distinct names. *)
Lemma registry_after_prefix (names : list string) (k : nat) :
  NoDup names → (k ≤ length names)%nat →
  dense (registry_after (take k names)) ∧
  size (registry_after (take k names)) = k ∧
  ∀ n, is_Some (registry_after (take k names) !! n) ↔ n ∈ take k names.
Proof.
  intros Hnd. induction k as [| k IH]; intros Hk.
  - rewrite take_0. unfold registry_after. simpl.
    split; [apply dense_empty |]. split; [apply map_size_empty |].
    intros n. rewrite lookup_empty. split; [by intros [] | by intros ?%elem_of_nil].
  - destruct IH as (Hd & Hsize & Hdom); [lia |].
    destruct (lookup_lt_is_Some_2 names k ltac:(lia)) as [n Hn].
    destruct (registry_after_step names k n Hn) as [Hstep _].
    assert (registry_after (take k names) !! n = None) as Hnew.
    { apply eq_None_not_Some. rewrite Hdom.
      intros (j & Hj & Hlt)%elem_of_take.
      pose proof (NoDup_lookup _ _ _ _ Hnd Hj Hn). lia. }
    destruct (assign_dense _ n Hd Hnew) as [Heq Hd'].
    rewrite Hstep, Heq. simpl. split; [done |].
    split; [rewrite map_size_insert_None; [lia | done] |].
    intros n'. rewrite (take_S_r _ _ _ Hn), elem_of_app, list_elem_of_singleton.
    rewrite <- Hdom. destruct (decide (n = n')) as [<- | Hne].
    + rewrite lookup_insert_eq. split; [by right | eauto].
    + rewrite lookup_insert_ne; [| done]. split; [by left |].
      intros [? | ?]; [done | congruence].
Qed.

(** Starting from the empty registry, pairwise distinct names are numbered
    1, 2, 3, ... in the order of the calls: the call at position [i] (from
    0) returns the int [i + 1], and the registry records it as the string of
    its decimal digits. *)
Theorem numbers_follow_call_order (names : list string) (i : nat) (n : string) :
  NoDup names → names !! i = Some n →
  returned names !! i = Some (Ok (VInt (Z.of_nat i + 1))) ∧
  registry_after names !! n = Some (VStr (py_str (Z.of_nat i + 1))).
Proof.
  intros Hnd Hi.
  destruct (registry_after_prefix names i Hnd) as (Hd & Hsize & Hdom).
  { apply lookup_lt_Some in Hi. lia. }
  destruct (registry_after_step names i n Hi) as [Hstep Hret].
  assert (registry_after (take i names) !! n = None) as Hnew.
  { apply eq_None_not_Some. rewrite Hdom.
    intros (j & Hj & Hlt)%elem_of_take.
    pose proof (NoDup_lookup _ _ _ _ Hnd Hj Hi). lia. }
  destruct (assign_dense _ n Hd Hnew) as [Heq _]. rewrite Hsize in Heq.
  split; [by rewrite Hret, Heq |].
  eapply lookup_weaken; [| apply (registry_after_take_subseteq names (S i))].
  rewrite Hstep, Heq. simpl. apply lookup_insert_eq.
Qed.

Lemma numbers_follow_call_order_witness :
  NoDup ["News"; "Sports"; "Kids"] ∧
  returned ["News"; "Sports"; "Kids"] !! 2%nat = Some (Ok (VInt 3)) ∧
  registry_after ["News"; "Sports"; "Kids"] !! "Kids" = Some (VStr "3").
Proof.
  assert (NoDup ["News"; "Sports"; "Kids"]) as Hnd
    by (by apply (bool_decide_unpack _)).
  split; [exact Hnd |].
  apply (numbers_follow_call_order ["News"; "Sports"; "Kids"] 2 "Kids" Hnd).
  reflexivity.
Defined.

(* ===================================================================== *)
(** * A second pass over the same listing *)
(* ===================================================================== *)

Lemma assign_raise_malformed (m m' : gmap string value) (n : string) (e : exn) :
  _assign_channel_number m n = (Raise e, m') →
  ∃ k v, m !! k = Some v ∧ int_of_value v = None.
Proof.
  unfold _assign_channel_number. destruct (m !! n); [done |].
  destruct (bool_decide (m = ∅)) eqn:Hemp; simpl; [done |].
  unfold max_int_values. pose proof (max_fold_spec m) as Hspec.
  destruct (max_fold m) as [[mx |] | e']; simpl in *; [done | | by destruct Hspec].
  apply bool_decide_eq_false in Hemp. done.
Qed.

Lemma settled_assign (m : gmap string value) (n : string) :
  settled m n → snd (_assign_channel_number m n) = m.
Proof.
  intros [[v Hv] | (k & v & Hk & Hv)].
  - by rewrite (assign_existing m n v Hv).
  - destruct (m !! n) as [w |] eqn:Hn.
    + by rewrite (assign_existing m n w Hn).
    + by rewrite (assign_new_malformed m n k v Hn Hk Hv).
Qed.

Lemma settled_weaken (m m' : gmap string value) (n : string) :
  m ⊆ m' → settled m n → settled m' n.
Proof.
  intros Hsub [[v Hv] | (k & v & Hk & Hv)].
  - left. exists v. by eapply lookup_weaken.
  - right. exists k, v. split; [by eapply lookup_weaken | done].
Qed.

Lemma assign_settles (m : gmap string value) (n : string) :
  settled (snd (_assign_channel_number m n)) n.
Proof.
  destruct (_assign_channel_number m n) as [[v | e] m'] eqn:Ha; simpl.
  - destruct (assign_ok_inv _ _ _ _ Ha) as [[Hv ->] | (_ & z & _ & -> & _)].
    + left. eauto.
    + left. rewrite lookup_insert_eq. eauto.
  - rewrite (assign_raise_inv _ _ _ _ Ha). right.
    by eapply assign_raise_malformed.
Qed.

Lemma assign_all_subseteq (m : gmap string value) (ns : list string) :
  m ⊆ snd (assign_all m ns).
Proof.
  revert m. induction ns as [| n ns IH]; intros m; [done |].
  rewrite assign_all_cons. simpl. etrans; [apply (assign_subseteq m n) | apply IH].
Qed.

Lemma assign_all_settled (m : gmap string value) (ns : list string) :
  Forall (settled m) ns → snd (assign_all m ns) = m.
Proof.
  induction 1 as [| n ns Hn _ IH]; [done |].
  rewrite assign_all_cons. simpl. by rewrite (settled_assign m n Hn).
Qed.

Lemma assign_all_settles (m : gmap string value) (ns : list string) :
  Forall (settled (snd (assign_all m ns))) ns.
Proof.
  revert m. induction ns as [| n ns IH]; intros m; [constructor |].
  rewrite assign_all_cons. simpl. constructor; [| apply IH].
  eapply settled_weaken; [apply assign_all_subseteq | apply assign_settles].
Qed.

Section SecondPass.
Variable urljoin : string -> string -> option string.

(** What a run leaves in the registry. *)
Lemma scrape_streams_registry (s : scraper) (listing : result (list li_item))
    (fetch_urls : bool) (net : nat -> string -> result response)
    (completion : list nat) :
  let s' := snd (scrape_streams urljoin s listing fetch_urls net completion) in
  base_url s' = base_url s ∧
  channel_mapping s'
  = match listing with
    | Ok items =>
        snd (assign_all (channel_mapping s)
               (accepted_name <$> omap (accepted_item urljoin (base_url s)) items))
    | Raise _ => channel_mapping s
    end.
Proof.
  unfold scrape_streams, parse_html. destruct listing as [items | e]; [| done].
  destruct (parse_items_frame urljoin s items) as (_ & Hb & _).
  destruct (parse_items_assign_all urljoin s items) as [Hm _].
  destruct (sort_by_number (channels (parse_items urljoin s items))); [| done].
  by destruct fetch_urls.
Qed.

(** A second run on the same listing leaves the registry as the first run
    left it, whatever the two runs fetch and whether they return or raise:
    every name of the listing already has its number, and no number is
    assigned twice. *)
Theorem second_run_keeps_registry (s : scraper) (listing : result (list li_item))
    (fetch1 fetch2 : bool) (net1 net2 : nat -> string -> result response)
    (completion1 completion2 : list nat) :
  let s1 := snd (scrape_streams urljoin s listing fetch1 net1 completion1) in
  let s2 := snd (scrape_streams urljoin s1 listing fetch2 net2 completion2) in
  channel_mapping s2 = channel_mapping s1.
Proof.
  intros s1 s2.
  destruct (scrape_streams_registry s listing fetch1 net1 completion1)
    as [Hb1 Hm1].
  destruct (scrape_streams_registry s1 listing fetch2 net2 completion2)
    as [_ Hm2].
  fold s1 in Hb1, Hm1. fold s2 in Hm2. rewrite Hm2.
  destruct listing as [items | e]; [| done].
  rewrite Hb1. rewrite Hm1 at 1 2. apply assign_all_settled, assign_all_settles.
Qed.
End SecondPass.

(* ===================================================================== *)
(** * What the parsing loop appends *)
(* ===================================================================== *)

(** On a well-formed registry every call of a sequence returns. *)
Lemma assign_all_wf (m : gmap string value) (ns : list string) :
  registry_wf m →
  ∃ vs, fst (assign_all m ns) = Ok <$> vs ∧ length vs = length ns ∧
        Forall (fun v => is_Some (int_of_value v)) vs ∧
        registry_wf (snd (assign_all m ns)).
Proof.
  revert m. induction ns as [| n ns IH]; intros m Hwf.
  - exists []. simpl. by repeat split.
  - destruct (assign_step m n Hwf) as (v & z & m1 & Ha & Hz & _ & _ & Hwf1 & _).
    destruct (IH m1 Hwf1) as (vs & Hvs & Hlen & Hall & Hwf2).
    exists (v :: vs). rewrite assign_all_cons, Ha. simpl. rewrite Hvs.
    split; [done |]. split; [by rewrite Hlen |]. split; [| done].
    constructor; [by rewrite Hz | done].
Qed.

Lemma records_ok (acc : list (string * string * string)) (vs : list value) :
  length vs = length acc →
  item_fields <$> records acc (Ok <$> vs) = acc ∧
  number <$> records acc (Ok <$> vs) = vs ∧
  Forall (fun c => m3u8_url c = None) (records acc (Ok <$> vs)).
Proof.
  revert vs. induction acc as [| [[n tok] l] acc IH]; intros [| v vs] Hlen;
    simpl in *; try done.
  destruct (IH vs) as (H1 & H2 & H3); [lia |].
  split; [f_equal; exact H1 |]. split; [f_equal; exact H2 |]. by constructor.
Qed.

Lemma accepted_item_token (urljoin : string -> string -> option string)
    (base : string) (it : li_item) (n tok l : string) :
  accepted_item urljoin base it = Some (n, tok, l) → token_ok tok.
Proof.
  unfold accepted_item. destruct (link it) as [a |]; simpl; [| done].
  unfold re_search.
  destruct (search_chars false stream_re (chars (default "" (onclick a))))
    as [g |] eqn:Hs; simpl; [| done].
  destruct (img it) as [i |]; simpl; [| done].
  destruct (urljoin base (default "" (src i))); simpl; [| done].
  intros [= _ <- _].
  apply search_chars_sound in Hs as (before & s' & k & _ & Hm).
  apply re_match_sound in Hm as (a0 & c & rest & _ & _ & Hg & _).
  simpl in Hg. destruct Hg as (g1 & g2 & -> & [Hne Hd] & ->).
  rewrite app_nil_r. split.
  - destruct g1; [done | discriminate].
  - by rewrite chars_text.
Qed.

Section LoopSpec.
Variable urljoin : string -> string -> option string.

(** On a well-formed registry the loop of [parse_html] appends exactly one
    record for every list item that passes its guards (an anchor with a
    stream token, an image, a logo URL that can be joined), in the order of
    the listing; the record carries the name, token and logo of its item, a
    number that stands for an integer, and no stream URL; the records the
    scraper held before stay in front, untouched. *)
Theorem parse_items_appends_accepted (s : scraper) (items : list li_item) :
  registry_wf (channel_mapping s) →
  ∃ new,
    channels (parse_items urljoin s items) = (channels s ++ new)%list ∧
    item_fields <$> new = omap (accepted_item urljoin (base_url s)) items ∧
    Forall (fun c => m3u8_url c = None ∧ is_Some (number_of c)) new.
Proof.
  intros Hwf. destruct (parse_items_assign_all urljoin s items) as [_ Hc].
  set (acc := omap (accepted_item urljoin (base_url s)) items) in *.
  destruct (assign_all_wf (channel_mapping s) (accepted_name <$> acc) Hwf)
    as (vs & Hvs & Hlen & Hall & _).
  rewrite length_fmap in Hlen.
  destruct (records_ok acc vs Hlen) as (H1 & H2 & H3).
  exists (records acc (Ok <$> vs)). rewrite Hc, Hvs.
  split; [done |]. split; [done |].
  apply Forall_forall. intros c Hin. split.
  - by apply (proj1 (Forall_forall _ _) H3).
  - unfold number_of.
    apply (list_elem_of_fmap_2 number) in Hin. rewrite H2 in Hin.
    by apply (proj1 (Forall_forall _ _) Hall).
Qed.

(** Every stream id in the catalog is a non-empty string of digits, and
    every request of a run goes to [<base>/player.php?stream=<digits>]:
    nothing else of the listing reaches the URL of a request.  (The stream
    ids the scraper held before the run are assumed to be of this shape.) *)
Theorem stream_ids_are_digits (s : scraper) (listing : result (list li_item))
    (fetch_urls : bool) (net : nat -> string -> result response)
    (completion : list nat) (chs : list channel_info) (s' : scraper) :
  Forall token_ok (stream_id <$> channels s) →
  scrape_streams urljoin s listing fetch_urls net completion = (Ok chs, s') →
  Forall token_ok (stream_id <$> chs) ∧
  ∀ idx url, PlayerRequest idx url ∈ events s' →
    PlayerRequest idx url ∈ events s ∨
    ∃ tok, token_ok tok ∧ url = player_url (base_url s) tok.
Proof.
  intros Hold. unfold scrape_streams, parse_html.
  destruct listing as [items | e]; [| done].
  destruct (parse_items_frame urljoin s items) as (He & Hb & _ & _).
  destruct (parse_items_assign_all urljoin s items) as [_ Hc].
  set (acc := omap (accepted_item urljoin (base_url s)) items) in *.
  assert (Forall token_ok (stream_id <$> channels (parse_items urljoin s items)))
    as Hparsed.
  { rewrite Hc, fmap_app. apply Forall_app. split; [done |].
    assert (Forall (fun x => token_ok x.1.2) acc) as Hacc.
    { apply Forall_forall. intros [[n tok] l] Hin.
      apply list_elem_of_omap in Hin as (it & _ & Hit).
      by eapply accepted_item_token. }
    clear Hc. generalize (fst (assign_all (channel_mapping s) (accepted_name <$> acc))).
    induction Hacc as [| [[n tok] l] acc' Hx _ IH]; intros rs; [by destruct rs |].
    destruct rs as [| [v | e] rs]; simpl; [constructor | | apply IH].
    constructor; [done | apply IH]. }
  destruct (sort_by_number (channels (parse_items urljoin s items)))
    as [sorted |] eqn:Hsort; [| done].
  assert (Forall token_ok (stream_id <$> sorted)) as Hsorted.
  { by rewrite (sort_by_number_perm _ _ Hsort). }
  destruct fetch_urls; simpl; intros [= <- <-]; simpl.
  - split.
    + apply Forall_fmap, Forall_lookup. intros j c Hj.
      rewrite collect_lookup in Hj.
      rewrite Forall_fmap in Hsorted.
      destruct (decide (j ∈ completion)).
      * destruct (sorted !! j) as [c0 |] eqn:Hc0; simpl in Hj; [| done].
        injection Hj as <-. pose proof (Forall_lookup_1 _ _ _ _ Hsorted Hc0) as H.
        unfold resolved_channel. simpl in *.
        by destruct (futures urljoin _ net sorted !! j) as [[u | e'] |].
      * by apply (Forall_lookup_1 _ _ _ _ Hsorted Hj).
    + intros idx url. rewrite He, !elem_of_app. intros [[Hin | Hin] | Hin].
      * by left.
      * by apply list_elem_of_singleton in Hin.
      * right. apply list_elem_of_fmap in Hin as ([i tok] & [= -> ->] & Hin).
        unfold submitted in Hin. apply list_elem_of_lookup in Hin as [j Hj].
        rewrite list_lookup_imap in Hj.
        destruct (sorted !! j) as [c0 |] eqn:Hc0; simpl in Hj; [| done].
        injection Hj as <- <-. exists (stream_id c0). rewrite Hb. split; [| done].
        rewrite Forall_fmap in Hsorted.
        by apply (Forall_lookup_1 _ _ _ _ Hsorted Hc0).
  - split; [done |]. intros idx url. rewrite He, elem_of_app.
    intros [Hin | Hin]; [by left |]. by apply list_elem_of_singleton in Hin.
Qed.
End LoopSpec.

(** A listing of three items, the second of which has neither anchor nor
    image, read with a registry that knows the first channel. *)
Lemma parse_items_appends_accepted_witness :
  let s := init_demo {[ "A" := VStr "1" ]} in
  let items := [item_demo "10" (Some "A"); {| link := None; img := None |};
                item_demo "20" None] in
  registry_wf (channel_mapping s) ∧
  ∃ new,
    channels (parse_items join_demo s items) = (channels s ++ new)%list ∧
    item_fields <$> new = omap (accepted_item join_demo (base_url s)) items ∧
    Forall (fun c => m3u8_url c = None ∧ is_Some (number_of c)) new.
Proof.
  intros s items.
  assert (registry_wf (channel_mapping s)) as Hwf.
  { unfold s, init_demo. simpl.
    intros k v [<- <-]%lookup_singleton_Some. vm_compute. by eexists. }
  split; [exact Hwf |].
  exact (parse_items_appends_accepted join_demo s items Hwf).
Defined.

(** A first run over a listing of one channel, with resolution switched on. *)
Lemma stream_ids_are_digits_witness :
  let s := init_demo ∅ in
  let net (idx : nat) (url : string) : result response := Raise Timeout in
  ∃ chs s',
    scrape_streams join_demo s (Ok [item_demo "10" (Some "A")]) true net [0%nat]
    = (Ok chs, s') ∧
    stream_id <$> chs = ["10"] ∧
    Forall token_ok (stream_id <$> chs) ∧
    ∀ idx url, PlayerRequest idx url ∈ events s' →
      PlayerRequest idx url ∈ events s ∨
      ∃ tok, token_ok tok ∧ url = player_url (base_url s) tok.
Proof.
  intros s net. eexists _, _. split; [vm_compute; reflexivity |].
  split; [vm_compute; reflexivity |].
  apply (stream_ids_are_digits join_demo s (Ok [item_demo "10" (Some "A")]) true
           net [0%nat]).
  - constructor.
  - vm_compute. reflexivity.
Defined.

(* ===================================================================== *)
(** * Which runs the sort lets through *)
(* ===================================================================== *)

Lemma insert_by_number_strs (x : channel_info) (l : list channel_info) :
  str_numbered x → Forall str_numbered l → ∃ r, insert_by_number x l = Ok r.
Proof.
  intros [tx Hx] Hl. induction Hl as [| y l [ty Hy] _ IH]; simpl; [eauto |].
  rewrite Hy, Hx. simpl. destruct (ty <? tx)%string; [| eauto].
  destruct IH as [r ->]. simpl. eauto.
Qed.

Lemma sort_by_number_strs (l : list channel_info) :
  Forall str_numbered l → ∃ r, sort_by_number l = Ok r.
Proof.
  induction l as [| x l IH]; intros Hl; simpl; [eauto |].
  apply Forall_cons in Hl as [Hx Hl]. destruct (IH Hl) as [r Hr].
  rewrite Hr. simpl. apply insert_by_number_strs; [done |].
  by rewrite (sort_by_number_perm _ _ Hr).
Qed.

Lemma str_valued_insert (m : gmap string value) (n t : string) :
  str_valued m → str_valued (<[n := VStr t]> m).
Proof.
  intros Hm k v [[_ <-] | [_ Hk]]%lookup_insert_Some; [eauto | by eapply Hm].
Qed.

(** The type of every number a sequence of calls returns: an [int] for the
    first call with a name the registry does not hold, a [str] for every
    other call. *)
Lemma assign_all_kinds (m : gmap string value) (names : list string) :
  registry_wf m → str_valued m →
  ∃ vs, fst (assign_all m names) = Ok <$> vs ∧ length vs = length names ∧
    ∀ i n v, names !! i = Some n → vs !! i = Some v →
      ((∃ z, v = VInt z) ↔ m !! n = None ∧ n ∉ take i names) ∧
      ((∃ t, v = VStr t) ↔ is_Some (m !! n) ∨ n ∈ take i names).
Proof.
  revert m. induction names as [| n0 names IH]; intros m Hwf Hstr.
  - exists []. by repeat split.
  - destruct (assign_step m n0 Hwf) as (v0 & z0 & m1 & Ha & _ & _ & _ & Hwf1 & _
                                        & Hnew & Hold).
    assert (str_valued m1) as Hstr1.
    { destruct (m !! n0) as [w |] eqn:Hn0.
      - by destruct (Hold w eq_refl) as [_ ->].
      - destruct (Hnew eq_refl) as (_ & -> & _). by apply str_valued_insert. }
    destruct (IH m1 Hwf1 Hstr1) as (vs & Hvs & Hlen & Hk).
    exists (v0 :: vs). rewrite assign_all_cons, Ha. simpl. rewrite Hvs.
    split; [done |]. split; [by rewrite Hlen |].
    intros [| i] n v; simpl.
    + intros [= <-] [= <-]. destruct (m !! n0) as [w |] eqn:Hn0.
      * destruct (Hold w eq_refl) as [-> _]. destruct (Hstr _ _ Hn0) as [t ->].
        split; split.
        -- by intros [z [=]].
        -- by intros [[=] _].
        -- eauto.
        -- eauto.
      * destruct (Hnew eq_refl) as (-> & _). split; split.
        -- intros _. split; [done | apply not_elem_of_nil].
        -- eauto.
        -- by intros [t [=]].
        -- intros [[? [=]] | []%elem_of_nil].
    + intros Hn Hv. destruct (Hk i n v Hn Hv) as [Hint Hs].
      assert (m1 !! n = None ↔ m !! n = None ∧ n ≠ n0) as Hm1.
      { destruct (m !! n0) as [w |] eqn:Hn0.
        - destruct (Hold w eq_refl) as [_ ->]. split; [| by intros []].
          intros Hnone. split; [done |]. intros ->. congruence.
        - destruct (Hnew eq_refl) as (_ & -> & _).
          rewrite lookup_insert_None. intuition congruence. }
      split.
      * rewrite Hint, Hm1, not_elem_of_cons. tauto.
      * rewrite Hs, elem_of_cons, <- !not_eq_None_Some.
        destruct (decide (n = n0)), (m !! n) as [w |], (m1 !! n) as [w1 |];
          intuition congruence.
Qed.

Lemma one_kind_of_ints (m : gmap string value) (names : list string) :
  (∀ i n, names !! i = Some n → m !! n = None ∧ n ∉ take i names) →
  NoDup names ∧ ∀ n, n ∈ names → m !! n = None.
Proof.
  intros H. split.
  - apply NoDup_alt. intros i j n Hi Hj.
    destruct (Nat.lt_trichotomy i j) as [Hlt | [-> | Hlt]]; [| done |].
    + destruct (H j n Hj) as [_ Hnin]. exfalso. apply Hnin.
      apply list_elem_of_lookup. exists i. by rewrite lookup_take_lt.
    + destruct (H i n Hi) as [_ Hnin]. exfalso. apply Hnin.
      apply list_elem_of_lookup. exists j. by rewrite lookup_take_lt.
  - intros n [i Hi]%list_elem_of_lookup. by apply (H i).
Qed.

Lemma one_kind_of_strs (m : gmap string value) (names : list string) :
  (∀ i n, names !! i = Some n → is_Some (m !! n) ∨ n ∈ take i names) →
  ∀ n, n ∈ names → is_Some (m !! n).
Proof.
  intros H n [i Hi]%list_elem_of_lookup. revert n Hi.
  induction (lt_wf i) as [i _ IH]. intros n Hi.
  destruct (H i n Hi) as [Hk | [j Hj]%list_elem_of_lookup]; [done |].
  apply lookup_take_Some in Hj as [Hj Hlt]. by apply (IH j).
Qed.

Section SortOutcome.
Variable urljoin : string -> string -> option string.

(** The numbers of the records the loop leaves in a scraper that had none:
    all [int]s exactly when every listed name is new and listed once, all
    [str]s exactly when every listed name is in the registry. *)
Lemma parsed_kinds (s : scraper) (items : list li_item) :
  registry_wf (channel_mapping s) → str_valued (channel_mapping s) →
  channels s = [] →
  let parsed := channels (parse_items urljoin s items) in
  let names := listed_names urljoin s items in
  length parsed = length names ∧
  (Forall int_numbered parsed ↔
     NoDup names ∧ ∀ n, n ∈ names → channel_mapping s !! n = None) ∧
  (Forall str_numbered parsed ↔
     ∀ n, n ∈ names → is_Some (channel_mapping s !! n)).
Proof.
  intros Hwf Hstr Hnil parsed names.
  destruct (parse_items_assign_all urljoin s items) as [_ Hc].
  fold (listed_names urljoin s items) in Hc. fold names in Hc.
  destruct (assign_all_kinds (channel_mapping s) names Hwf Hstr)
    as (vs & Hvs & Hlen & Hk).
  unfold names, listed_names in Hlen. rewrite length_fmap in Hlen.
  destruct (records_ok _ vs Hlen) as (_ & Hnum & _).
  rewrite Hnil, Hvs in Hc. simpl in Hc. fold parsed in Hc.
  assert (number <$> parsed = vs) as Hnums by (by rewrite Hc).
  assert (length vs = length names) as Hlen'.
  { unfold names, listed_names. by rewrite length_fmap. }
  assert (∀ P : value → Prop, Forall (fun c => P (number c)) parsed ↔
            ∀ i n v, names !! i = Some n → vs !! i = Some v → P v) as Hall.
  { intros P. rewrite Forall_lookup. split.
    - intros H i n v _ Hv. rewrite <- Hnums, list_lookup_fmap in Hv.
      destruct (parsed !! i) as [c |] eqn:Hi; [| done].
      injection Hv as <-. by apply (H i).
    - intros H i c Hi.
      destruct (lookup_lt_is_Some_2 names i) as [n Hn].
      { rewrite <- Hlen', <- Hnums, length_fmap. by eapply lookup_lt_Some. }
      apply (H i n); [done |]. by rewrite <- Hnums, list_lookup_fmap, Hi. }
  split; [by rewrite <- Hlen', <- Hnums, length_fmap |]. split; split.
  - intros Hi. apply one_kind_of_ints. intros i n Hn.
    destruct (lookup_lt_is_Some_2 vs i) as [v Hv].
    { rewrite Hlen'. by eapply lookup_lt_Some. }
    apply (Hk i n v Hn Hv).
    by apply (proj1 (Hall (fun v => ∃ z, v = VInt z)) Hi i n v).
  - intros [Hnd Hnew].
    apply (Hall (fun v => ∃ z, v = VInt z)). intros i n v Hn Hv.
    apply (Hk i n v Hn Hv). split.
    + apply Hnew. by eapply list_elem_of_lookup_2.
    + intros [j Hj]%list_elem_of_lookup.
      apply lookup_take_Some in Hj as [Hj Hlt].
      pose proof (NoDup_lookup _ _ _ _ Hnd Hn Hj). lia.
  - intros Hs. apply one_kind_of_strs. intros i n Hn.
    destruct (lookup_lt_is_Some_2 vs i) as [v Hv].
    { rewrite Hlen'. by eapply lookup_lt_Some. }
    apply (Hk i n v Hn Hv).
    by apply (proj1 (Hall (fun v => ∃ t, v = VStr t)) Hs i n v).
  - intros Hknown.
    apply (Hall (fun v => ∃ t, v = VStr t)). intros i n v Hn Hv.
    apply (Hk i n v Hn Hv). left. apply Hknown.
    by eapply list_elem_of_lookup_2.
Qed.

(** A new scraper whose registry holds strings of digits, as the code
    writes them, is given a listing that could be fetched.  The run returns
    exactly when the accepted names are all in the registry, or are all new
    with none listed twice; in every other case (a known and a new name, or
    a new name twice) it ends in the [TypeError] of the sort, whatever the
    network does. *)
Theorem scrape_streams_returns_iff (s : scraper) (items : list li_item)
    (fetch_urls : bool) (net : nat -> string -> result response)
    (completion : list nat) :
  registry_wf (channel_mapping s) → str_valued (channel_mapping s) →
  channels s = [] →
  let run := scrape_streams urljoin s (Ok items) fetch_urls net completion in
  let names := listed_names urljoin s items in
  ((∃ chs, fst run = Ok chs) ↔ one_kind (channel_mapping s) names) ∧
  (fst run = Raise TypeError ↔ ¬ one_kind (channel_mapping s) names).
Proof.
  intros Hwf Hstr Hnil run names.
  destruct (parsed_kinds s items Hwf Hstr Hnil) as (_ & Hints & Hstrs).
  fold names in Hints, Hstrs.
  set (parsed := channels (parse_items urljoin s items)) in *.
  assert ((∃ r, sort_by_number parsed = Ok r) ↔
          one_kind (channel_mapping s) names) as Hsort.
  { unfold one_kind. rewrite <- Hints, <- Hstrs. split.
    - intros [r Hr]. destruct (sort_by_number_homogeneous _ _ Hr); tauto.
    - intros [Hs | Hi].
      + by apply sort_by_number_strs.
      + destruct (sort_by_number_ints parsed Hi) as (r & Hr & _). eauto. }
  assert ((∃ chs, fst run = Ok chs) ↔ ∃ r, sort_by_number parsed = Ok r)
    as Hrun.
  { unfold run, scrape_streams, parse_html. fold parsed.
    destruct (sort_by_number parsed) as [r | e]; simpl.
    - destruct fetch_urls; simpl; split; eauto.
    - split; intros [? [=]]. }
  split; [by rewrite Hrun |].
  rewrite <- Hsort, <- Hrun. split.
  - intros Hr [chs Hchs]. congruence.
  - intros Hno. unfold run, scrape_streams, parse_html in *. fold parsed in Hno |- *.
    destruct (sort_by_number parsed) as [r | e] eqn:Hs; simpl in *.
    + exfalso. apply Hno. destruct fetch_urls; simpl; eauto.
    + by rewrite (sort_by_number_raise _ _ Hs).
Qed.
End SortOutcome.

(** A registry that knows A, and a listing with A and the new channel B:
    the run ends in the [TypeError] of the sort. *)
Lemma scrape_streams_returns_iff_witness :
  let s := init_demo {[ "A" := VStr "1" ]} in
  let items := [item_demo "10" (Some "A"); item_demo "20" (Some "B")] in
  let net (idx : nat) (url : string) : result response := Raise Timeout in
  let run := scrape_streams join_demo s (Ok items) true net [0; 1]%nat in
  listed_names join_demo s items = ["A"; "B"] ∧
  fst run = Raise TypeError ∧
  ¬ one_kind (channel_mapping s) (listed_names join_demo s items).
Proof.
  intros s items net run.
  split; [vm_compute; reflexivity |]. split; [vm_compute; reflexivity |].
  assert (registry_wf (channel_mapping s)) as Hwf.
  { unfold s, init_demo. simpl.
    intros k v [<- <-]%lookup_singleton_Some. vm_compute. by eexists. }
  assert (str_valued (channel_mapping s)) as Hstr.
  { unfold s, init_demo. simpl.
    intros k v [<- <-]%lookup_singleton_Some. by eexists. }
  apply (proj2 (scrape_streams_returns_iff join_demo s items true net
                  [0; 1]%nat Hwf Hstr eq_refl)).
  vm_compute. reflexivity.
Defined.

(* ===================================================================== *)
(** * Numbers from one session to the next *)
(* ===================================================================== *)

Lemma records_elem (acc : list (string * string * string))
    (rs : list (result value)) (c : channel_info) :
  c ∈ records acc rs →
  ∃ i, (accepted_name <$> acc) !! i = Some (name c) ∧
       rs !! i = Some (Ok (number c)).
Proof.
  revert rs. induction acc as [| [[n tok] l] acc IH]; intros rs; simpl.
  - by intros ?%elem_of_nil.
  - destruct rs as [| [v | e] rs]; simpl.
    + by intros ?%elem_of_nil.
    + intros [-> | Hin]%elem_of_cons; [by exists 0%nat |].
      destruct (IH rs Hin) as [i Hi]. by exists (S i).
    + intros Hin. destruct (IH rs Hin) as [i Hi]. by exists (S i).
Qed.

(** A call with a name the registry holds returns the stored value,
    wherever it stands in a sequence of calls. *)
Lemma assign_all_lookup_known (m : gmap string value) (names : list string)
    (i : nat) (n : string) (v : value) :
  m !! n = Some v → names !! i = Some n →
  fst (assign_all m names) !! i = Some (Ok v).
Proof.
  revert m i. induction names as [| n0 names IH]; intros m i Hm; [done |].
  rewrite assign_all_cons. destruct i as [| i]; simpl.
  - intros [= ->]. by rewrite (assign_existing m n v Hm).
  - apply IH. eapply lookup_weaken; [exact Hm | apply assign_subseteq].
Qed.

(** What a call returned and what the registry holds for its name
    afterwards stand for the same integer. *)
Lemma assign_all_lookup_linked (m : gmap string value) (names : list string)
    (i : nat) (n : string) (v : value) :
  names !! i = Some n → fst (assign_all m names) !! i = Some (Ok v) →
  ∃ w, snd (assign_all m names) !! n = Some w ∧
       int_of_value w = int_of_value v.
Proof.
  revert m i. induction names as [| n0 names IH]; intros m i; [done |].
  rewrite assign_all_cons. destruct i as [| i]; simpl; [| apply IH].
  intros [= ->].
  destruct (_assign_channel_number m n) as [r m1] eqn:Ha. simpl.
  intros [= ->].
  assert (∃ w, m1 !! n = Some w ∧ int_of_value w = int_of_value v)
    as (w & Hw & Hwv).
  { destruct (assign_ok_inv _ _ _ _ Ha) as [[Hv ->] | (_ & z & -> & -> & _)].
    - eauto.
    - eexists. rewrite lookup_insert_eq. split; [done |].
      apply int_of_value_py_str. }
  exists w. split; [| done].
  eapply lookup_weaken; [exact Hw | apply assign_all_subseteq].
Qed.

Lemma collect_elem fs (completion : list nat) (chs : list channel_info)
    (c : channel_info) :
  c ∈ collect fs completion chs →
  ∃ c0, c0 ∈ chs ∧ name c = name c0 ∧ number c = number c0.
Proof.
  intros [j Hj]%list_elem_of_lookup. rewrite collect_lookup in Hj.
  destruct (decide (j ∈ completion)).
  - destruct (chs !! j) as [c0 |] eqn:Hc0; simpl in Hj; [| done].
    injection Hj as <-. exists c0. split; [by eapply list_elem_of_lookup_2 |].
    unfold resolved_channel. by destruct (fs !! j) as [[u | e'] |].
  - exists c. split; [by eapply list_elem_of_lookup_2 | done].
Qed.

Lemma mapping_file_after_requests (file : option (result (gmap string value)))
    (evs : list event) :
  (∀ e, e ∈ evs → ∃ idx url, e = PlayerRequest idx url) →
  mapping_file_after file evs = file.
Proof.
  unfold mapping_file_after. revert file.
  induction evs as [| e evs IH]; intros file Hall; simpl; [done |].
  destruct (Hall e) as (idx & url & ->); [by left |].
  apply IH. intros e' He'. apply Hall. by right.
Qed.

Section Sessions.
Variable urljoin : string -> string -> option string.

(** Every channel of a run that started without channels is one of the
    listed names together with what [_assign_channel_number] returned for
    it. *)
Lemma scrape_streams_catalog (s : scraper) (items : list li_item)
    (fetch_urls : bool) (net : nat -> string -> result response)
    (completion : list nat) (chs : list channel_info) (s' : scraper)
    (c : channel_info) :
  channels s = [] →
  scrape_streams urljoin s (Ok items) fetch_urls net completion = (Ok chs, s') →
  c ∈ chs →
  ∃ i, listed_names urljoin s items !! i = Some (name c) ∧
       fst (assign_all (channel_mapping s) (listed_names urljoin s items)) !! i
       = Some (Ok (number c)).
Proof.
  intros Hnil. unfold scrape_streams, parse_html.
  destruct (parse_items_assign_all urljoin s items) as [_ Hc].
  rewrite Hnil in Hc. simpl in Hc.
  destruct (sort_by_number (channels (parse_items urljoin s items)))
    as [sorted |] eqn:Hsort; [| done].
  pose proof (sort_by_number_perm _ _ Hsort) as Hperm.
  assert (∀ c0, c0 ∈ sorted →
            ∃ i, listed_names urljoin s items !! i = Some (name c0) ∧
                 fst (assign_all (channel_mapping s)
                        (listed_names urljoin s items)) !! i
                 = Some (Ok (number c0))) as Hsorted.
  { intros c0 Hc0. rewrite Hperm, Hc in Hc0. by apply records_elem in Hc0. }
  destruct fetch_urls; simpl; intros [= <- <-] Hin.
  - apply collect_elem in Hin as (c0 & Hc0 & -> & ->). by apply Hsorted.
  - by apply Hsorted.
Qed.

Lemma scrape_streams_saved (s : scraper) (listing : result (list li_item))
    (fetch_urls : bool) (net : nat -> string -> result response)
    (completion : list nat) (chs : list channel_info) (s' : scraper)
    (file : option (result (gmap string value))) :
  scrape_streams urljoin s listing fetch_urls net completion = (Ok chs, s') →
  mapping_file_after file (events s') = Some (Ok (channel_mapping s')).
Proof.
  unfold scrape_streams, parse_html. destruct listing as [items | e]; [| done].
  destruct (sort_by_number (channels (parse_items urljoin s items)))
    as [sorted |]; [| done].
  destruct fetch_urls; simpl; intros [= <- <-]; simpl; unfold mapping_file_after.
  - rewrite !fold_left_app. simpl.
    apply mapping_file_after_requests.
    intros e [t [-> _]]%list_elem_of_fmap. eauto.
  - by rewrite fold_left_app.
Qed.

(** The feature the scraper is built around, across two sessions.  A
    session runs on some mapping file and returns; a later session, a new
    scraper that loads the file the first one wrote, runs on a listing of
    its own and returns.  A channel that carries the same name in both
    catalogs carries the same number, as an integer, in both; in the later
    catalog its number is the very value the first session stored for the
    name (the string of the number when the first session gave the name its
    number). *)
Theorem numbers_persist_across_sessions (url : string)
    (file : option (result (gmap string value)))
    (listing1 listing2 : result (list li_item)) (fetch1 fetch2 : bool)
    (net1 net2 : nat -> string -> result response)
    (completion1 completion2 : list nat)
    (chs1 chs2 : list channel_info) (s1 s2 : scraper) :
  scrape_streams urljoin (IPTVScraper url file) listing1 fetch1 net1 completion1
  = (Ok chs1, s1) →
  scrape_streams urljoin
    (IPTVScraper url (mapping_file_after file (events s1)))
    listing2 fetch2 net2 completion2
  = (Ok chs2, s2) →
  ∀ c1 c2, c1 ∈ chs1 → c2 ∈ chs2 → name c2 = name c1 →
    channel_mapping s1 !! name c1 = Some (number c2) ∧
    number_of c2 = number_of c1.
Proof.
  intros Hrun1 Hrun2 c1 c2 Hc1 Hc2 Hname.
  rewrite (scrape_streams_saved _ _ _ _ _ _ _ file Hrun1) in Hrun2.
  destruct listing1 as [items1 | e]; [| done].
  destruct listing2 as [items2 | e]; [| done].
  destruct (scrape_streams_catalog (IPTVScraper url file) _ _ _ _ _ _ c1
              eq_refl Hrun1 Hc1) as (i & Hi & Hri).
  destruct (assign_all_lookup_linked _ _ _ _ _ Hi Hri) as (w & Hw & Hwv).
  destruct (scrape_streams_registry urljoin (IPTVScraper url file) (Ok items1)
              fetch1 net1 completion1) as [_ Hm1].
  cbv zeta in Hm1. rewrite Hrun1 in Hm1. cbn [snd] in Hm1.
  unfold listed_names in Hw. rewrite <- Hm1 in Hw.
  destruct (scrape_streams_catalog
              (IPTVScraper url (Some (Ok (channel_mapping s1)))) _ _ _ _ _ _ c2
              eq_refl Hrun2 Hc2) as (j & Hj & Hrj).
  rewrite Hname in Hj.
  change (channel_mapping (IPTVScraper url (Some (Ok (channel_mapping s1)))))
    with (channel_mapping s1) in Hrj.
  rewrite (assign_all_lookup_known _ _ _ _ _ Hw Hj) in Hrj.
  injection Hrj as Hrj. unfold number_of. by rewrite <- Hrj.
Qed.
End Sessions.

(** A first session without a mapping file lists A and B; the second
    session lists them the other way round.  A has the number 1 in both,
    an [int] in the first and a [str] in the second. *)
Lemma numbers_persist_across_sessions_witness :
  let net (idx : nat) (url : string) : result response := Raise Timeout in
  let url := "http://103.144.89.251" in
  let logo_url := "http://103.144.89.251/logo.png" in
  let run1 := scrape_streams join_demo (IPTVScraper url None)
                (Ok [item_demo "10" (Some "A"); item_demo "20" (Some "B")])
                false net [] in
  let run2 := scrape_streams join_demo
                (IPTVScraper url (mapping_file_after None (events (snd run1))))
                (Ok [item_demo "20" (Some "B"); item_demo "10" (Some "A")])
                false net [] in
  fst run1 = Ok [parsed_record (VInt 1) "A" "10" logo_url;
                 parsed_record (VInt 2) "B" "20" logo_url] ∧
  fst run2 = Ok [parsed_record (VStr "1") "A" "10" logo_url;
                 parsed_record (VStr "2") "B" "20" logo_url] ∧
  channel_mapping (snd run1) !! "A" = Some (VStr "1") ∧
  number_of (parsed_record (VStr "1") "A" "10" logo_url)
  = number_of (parsed_record (VInt 1) "A" "10" logo_url).
Proof.
  intros net url logo_url run1 run2.
  split; [vm_compute; reflexivity |]. split; [vm_compute; reflexivity |].
  refine (numbers_persist_across_sessions join_demo url None
           (Ok [item_demo "10" (Some "A"); item_demo "20" (Some "B")])
           (Ok [item_demo "20" (Some "B"); item_demo "10" (Some "A")])
           false false net net [] []
           [parsed_record (VInt 1) "A" "10" logo_url;
            parsed_record (VInt 2) "B" "20" logo_url]
           [parsed_record (VStr "1") "A" "10" logo_url;
            parsed_record (VStr "2") "B" "20" logo_url]
           (snd run1) (snd run2) _ _
           (parsed_record (VInt 1) "A" "10" logo_url)
           (parsed_record (VStr "1") "A" "10" logo_url) _ _ _).
  - vm_compute. reflexivity.
  - vm_compute. reflexivity.
  - constructor.
  - constructor.
  - reflexivity.
Defined.

(* ===================================================================== *)
(** * A run without resolution *)
(* ===================================================================== *)

Lemma records_no_url (acc : list (string * string * string))
    (rs : list (result value)) :
  Forall (fun c => m3u8_url c = None) (records acc rs).
Proof.
  revert rs. induction acc as [| [[n tok] l] acc IH]; intros rs; simpl;
    [constructor |].
  destruct rs as [| [v | e] rs]; [constructor | | apply IH].
  constructor; [done | apply IH].
Qed.

Lemma save_m3u_no_url (chs : list channel_info) :
  Forall (fun c => m3u8_url c = None) chs → save_m3u chs = "#EXTM3U" ++ nl.
Proof.
  intros Hall. unfold save_m3u.
  replace (written (m3u_entry <$> chs)) with ""; [done |].
  induction Hall as [| c chs Hc _ IH]; [done |].
  rewrite fmap_cons, written_cons, <- IH. unfold m3u_entry. by rewrite Hc.
Qed.

Lemma working_streams_no_url (chs : list channel_info) :
  Forall (fun c => m3u8_url c = None) chs → working_streams chs = 0%nat.
Proof.
  intros Hall. unfold working_streams.
  induction Hall as [| c chs Hc _ IH]; [done |]. simpl. by rewrite Hc.
Qed.

(** With [--no-fetch], a run of [main] that returns makes no request to the
    player endpoint and leaves every channel without a stream URL: the JSON
    document lists the channels of the catalog with [m3u8_url] null and the
    summary counts no working stream, and the playlist is the header line
    and nothing else. *)
Theorem main_no_fetch (urljoin : string -> string -> option string)
    (url : string) (file : option (result (gmap string value)))
    (listing : result (list li_item))
    (net : nat -> string -> result response) (completion : list nat)
    (timestamp : string) (doc : json) (m3u : string) (s : scraper) :
  main urljoin url file listing false net completion timestamp
  = (Ok (doc, m3u), s) →
  doc = output_data timestamp (channels s) ∧
  Forall (fun c => m3u8_url c = None) (channels s) ∧
  snd (save_json timestamp (channels s))
  = (length (channels s), 0%nat, length (channels s)) ∧
  m3u = "#EXTM3U" ++ nl ∧
  events s = [SaveMapping (channel_mapping s)].
Proof.
  unfold main, scrape_streams, parse_html.
  destruct listing as [items | e]; [| done].
  destruct (parse_items_assign_all urljoin (IPTVScraper url file) items)
    as [_ Hc].
  destruct (parse_items_frame urljoin (IPTVScraper url file) items)
    as (He & _).
  simpl in Hc.
  destruct (sort_by_number
              (channels (parse_items urljoin (IPTVScraper url file) items)))
    as [sorted |] eqn:Hsort; [| done].
  simpl. intros [= <- <- <-]. simpl.
  assert (Forall (fun c => m3u8_url c = None) sorted) as Hnone.
  { rewrite (sort_by_number_perm _ _ Hsort), Hc. apply records_no_url. }
  split; [done |]. split; [done |]. split.
  - unfold failed_streams. rewrite (working_streams_no_url _ Hnone).
    by rewrite Nat.sub_0_r.
  - split; [by apply save_m3u_no_url |]. by rewrite He.
Qed.

(** A run of [main] with [--no-fetch] over a listing of two channels. *)
Lemma main_no_fetch_witness :
  let net (idx : nat) (url : string) : result response := Raise Timeout in
  let run := main join_demo "http://103.144.89.251" None
               (Ok [item_demo "10" (Some "A"); item_demo "20" (Some "B")])
               false net [] "2024-01-01 00:00:00 GMT+6" in
  ∃ doc m3u, fst run = Ok (doc, m3u) ∧
    length (channels (snd run)) = 2%nat ∧
    doc = output_data "2024-01-01 00:00:00 GMT+6" (channels (snd run)) ∧
    Forall (fun c => m3u8_url c = None) (channels (snd run)) ∧
    snd (save_json "2024-01-01 00:00:00 GMT+6" (channels (snd run)))
    = (length (channels (snd run)), 0%nat, length (channels (snd run))) ∧
    m3u = "#EXTM3U" ++ nl ∧
    events (snd run) = [SaveMapping (channel_mapping (snd run))].
Proof.
  intros net run. eexists _, _. split; [vm_compute; reflexivity |].
  split; [vm_compute; reflexivity |].
  apply (main_no_fetch join_demo "http://103.144.89.251" None
           (Ok [item_demo "10" (Some "A"); item_demo "20" (Some "B")])
           net [] "2024-01-01 00:00:00 GMT+6").
  vm_compute. reflexivity.
Defined.

(* ===================================================================== *)
(** * [quickstart.py] *)
(* ===================================================================== *)

Lemma channel_lines_ints (i : nat) (chs : list channel_info) :
  (∃ ls, channel_lines i chs = Ok ls) ↔ Forall int_numbered chs.
Proof.
  revert i. induction chs as [| c chs IH]; intros i; simpl.
  - split; [constructor | eauto].
  - unfold channel_line, format_3d. rewrite Forall_cons, <- (IH (S i)).
    unfold int_numbered.
    destruct (number c) as [z | t]; simpl.
    + destruct (channel_lines (S i) chs) as [ls | e]; simpl.
      * split; eauto.
      * split; [by intros [? [=]] | by intros [_ [? [=]]]].
    + split; [by intros [? [=]] | by intros [[? [=]] _]].
Qed.

Section Quickstart.
Variable urljoin : string -> string -> option string.

(** [run_basic_scrape] returns [True] exactly when every record the loop
    appended carries an [int]. *)
Lemma run_basic_scrape_true (file : option (result (gmap string value)))
    (items : list li_item) :
  fst (run_basic_scrape urljoin file (Ok items)) = true ↔
  Forall int_numbered
    (channels (parse_items urljoin (IPTVScraper default_base_url file) items)).
Proof.
  unfold run_basic_scrape, scrape_streams, parse_html.
  set (parsed := channels (parse_items urljoin
                             (IPTVScraper default_base_url file) items)).
  destruct (sort_by_number parsed) as [sorted | e] eqn:Hsort; simpl.
  - pose proof (sort_by_number_perm _ _ Hsort) as Hperm.
    destruct (channel_lines 1 (take 5 sorted)) as [ls | e] eqn:Hlines.
    + split; [intros _ | done].
      assert (Forall int_numbered (take 5 sorted)) as Hfirst.
      { apply (channel_lines_ints 1). eauto. }
      destruct (sort_by_number_homogeneous _ _ Hsort) as [Hi | Hs]; [done |].
      rewrite <- Hperm in Hs |- *.
      destruct sorted as [| c sorted]; [constructor |].
      apply Forall_cons in Hs as [[t Ht] _].
      simpl in Hfirst. apply Forall_cons in Hfirst as [[z Hz] _]. congruence.
    + split; [done |]. intros Hi. exfalso.
      assert (∃ ls, channel_lines 1 (take 5 sorted) = Ok ls) as [ls Hls].
      { apply channel_lines_ints. apply Forall_take. by rewrite Hperm. }
      congruence.
  - split; [done |]. intros Hi.
    destruct (sort_by_number_ints parsed Hi) as (r & Hr & _). congruence.
Qed.

(** The quick start succeeds exactly when every channel of the listing is
    new to the registry and listed once (the registry holding strings of
    digits, as the code writes them).  As soon as the listing names a channel
    the registry knows, the run fails: the number of a known channel is a
    [str], and either the sort or the format code [d] rejects it. *)
Theorem run_basic_scrape_succeeds_iff
    (file : option (result (gmap string value))) (items : list li_item) :
  let s := IPTVScraper default_base_url file in
  let names := listed_names urljoin s items in
  registry_wf (channel_mapping s) → str_valued (channel_mapping s) →
  (fst (run_basic_scrape urljoin file (Ok items)) = true ↔
   NoDup names ∧ ∀ n, n ∈ names → channel_mapping s !! n = None).
Proof.
  intros s names Hwf Hstr. rewrite run_basic_scrape_true.
  by destruct (parsed_kinds urljoin s items Hwf Hstr eq_refl) as (_ & Hints & _).
Qed.

Lemma str_valued_empty : str_valued ∅.
Proof. intros k v. by rewrite lookup_empty. Qed.

Lemma assign_all_str_valued (m : gmap string value) (ns : list string) :
  str_valued m → str_valued (snd (assign_all m ns)).
Proof.
  revert m. induction ns as [| n ns IH]; intros m Hm; [done |].
  rewrite assign_all_cons. simpl. apply IH.
  destruct (_assign_channel_number m n) as [[v | e] m1] eqn:Ha; simpl.
  - destruct (assign_ok_inv _ _ _ _ Ha) as [[_ ->] | (_ & z & _ & -> & _)];
      [done | by apply str_valued_insert].
  - by rewrite (assign_raise_inv _ _ _ _ Ha).
Qed.

(** The quick start works once.  Without a mapping file, and on a listing
    of at least one channel with no name listed twice, the first run
    succeeds and writes the mapping file; the second run on the same listing
    fails and leaves the mapping file as the first run wrote it, so that
    the runs after it meet what the second met. *)
Theorem quickstart_works_once (items : list li_item) :
  let names := listed_names urljoin (IPTVScraper default_base_url None) items in
  names ≠ [] → NoDup names →
  let first := run_basic_scrape urljoin None (Ok items) in
  let second := run_basic_scrape urljoin (snd first) (Ok items) in
  fst first = true ∧ fst second = false ∧ snd second = snd first.
Proof.
  intros names Hne Hnd first second.
  set (s0 := IPTVScraper default_base_url None).
  assert (fst first = true) as H1.
  { apply run_basic_scrape_true.
    apply (parsed_kinds urljoin s0 items);
      [apply registry_wf_empty | apply str_valued_empty | done |].
    split; [done |]. intros n _. apply lookup_empty. }
  set (m1 := snd (assign_all (channel_mapping s0) names)).
  assert (snd first = Some (Ok m1)) as Hfile.
  { unfold first, run_basic_scrape. cbn [snd]. fold s0.
    destruct (scrape_streams urljoin s0 (Ok items) false no_network [])
      as [[chs | e] s1] eqn:Hrun; cbn [snd].
    - rewrite (scrape_streams_saved urljoin _ _ _ _ _ _ _ None Hrun).
      destruct (scrape_streams_registry urljoin s0 (Ok items) false
                  no_network []) as [_ Hm].
      cbv zeta in Hm. rewrite Hrun in Hm. simpl in Hm. by rewrite Hm.
    - exfalso. unfold first, run_basic_scrape in H1. fold s0 in H1.
      by rewrite Hrun in H1. }
  assert (registry_wf m1) as Hwf1.
  { by destruct (assign_all_wf (channel_mapping s0) names registry_wf_empty)
      as (_ & _ & _ & _ & ?). }
  assert (str_valued m1) as Hstr1.
  { apply assign_all_str_valued. apply str_valued_empty. }
  assert (∀ n, n ∈ names → is_Some (m1 !! n)) as Hknown.
  { intros n Hn.
    destruct (proj1 (Forall_forall _ _)
                (assign_all_settles (channel_mapping s0) names) n Hn)
      as [? | (k & v & Hk & Hv)]; [done |].
    destruct (Hwf1 k v Hk) as [z Hz]. congruence. }
  set (s1 := IPTVScraper default_base_url (Some (Ok m1))).
  assert (snd (assign_all m1 names) = m1) as Hsame.
  { apply assign_all_settled. apply Forall_forall. intros n Hn.
    left. by apply Hknown. }
  split; [done |]. unfold second. rewrite Hfile. split.
  - apply not_true_is_false. rewrite run_basic_scrape_true. intros Hints.
    destruct (parsed_kinds urljoin s1 items Hwf1 Hstr1 eq_refl)
      as (_ & Hi & _).
    apply Hi in Hints as [_ Hnew].
    destruct names as [| n names'] eqn:Hnames; [done |].
    assert (n ∈ listed_names urljoin s1 items) as Hn.
    { change (listed_names urljoin s1 items) with names. rewrite Hnames.
      by left. }
    specialize (Hnew n Hn). simpl in Hnew.
    destruct (Hknown n) as [v Hv]; [by left |]. congruence.
  - unfold run_basic_scrape. cbn [snd]. fold s1.
    destruct (scrape_streams urljoin s1 (Ok items) false no_network [])
      as [[chs | e] s2] eqn:Hrun; cbn [snd].
    + rewrite (scrape_streams_saved urljoin _ _ _ _ _ _ _ (Some (Ok m1)) Hrun).
      destruct (scrape_streams_registry urljoin s1 (Ok items) false
                  no_network []) as [_ Hm].
      cbv zeta in Hm. rewrite Hrun in Hm. cbn [snd] in Hm.
      rewrite Hm. do 2 f_equal. exact Hsame.
    + by rewrite (scrape_streams_raise_events urljoin _ _ _ _ _ _ _ Hrun).
Qed.
End Quickstart.

(** A registry that knows A, and a listing with A alone: the quick start
    fails. *)
Lemma run_basic_scrape_succeeds_iff_witness :
  let file : option (result (gmap string value)) :=
    Some (Ok {[ "A" := VStr "1" ]}) in
  let items := [item_demo "10" (Some "A")] in
  let s := IPTVScraper default_base_url file in
  let names := listed_names join_demo s items in
  fst (run_basic_scrape join_demo file (Ok items)) = false ∧
  (fst (run_basic_scrape join_demo file (Ok items)) = true ↔
   NoDup names ∧ ∀ n, n ∈ names → channel_mapping s !! n = None).
Proof.
  intros file items s names. split; [vm_compute; reflexivity |].
  apply (run_basic_scrape_succeeds_iff join_demo file items).
  - unfold file. simpl.
    intros k v [<- <-]%lookup_singleton_Some. vm_compute. by eexists.
  - unfold file. simpl.
    intros k v [<- <-]%lookup_singleton_Some. by eexists.
Defined.

(** Two runs of the quick start over a listing of two channels. *)
Lemma quickstart_works_once_witness :
  let items := [item_demo "10" (Some "A"); item_demo "20" (Some "B")] in
  let first := run_basic_scrape join_demo None (Ok items) in
  let second := run_basic_scrape join_demo (snd first) (Ok items) in
  listed_names join_demo (IPTVScraper default_base_url None) items = ["A"; "B"] ∧
  fst first = true ∧ fst second = false ∧ snd second = snd first.
Proof.
  intros items first second. split; [vm_compute; reflexivity |].
  apply (quickstart_works_once join_demo items).
  - vm_compute. discriminate.
  - change (listed_names join_demo (IPTVScraper default_base_url None) items)
      with ["A"; "B"].
    by apply (bool_decide_unpack _).
Defined.

(* ===================================================================== *)
(** * [example_usage.py]: the examples and the document of [save_json] *)
(* ===================================================================== *)

Lemma getitem_name (c : channel_info) :
  py_getitem (channel_json c) "name" = Done (JStr (name c)).
Proof. reflexivity. Qed.

Lemma getitem_number (c : channel_info) :
  py_getitem (channel_json c) "number" = Done (value_json (number c)).
Proof. reflexivity. Qed.

Lemma sports_only_channels (chs : list channel_info) :
  sports_only (channel_json <$> chs)
  = Done (channel_json <$>
            filter (fun c => str_in "SPORTS" (str_upper (name c)) = true) chs).
Proof.
  induction chs as [| c chs IH]; [done |].
  rewrite fmap_cons. cbn [sports_only]. rewrite getitem_name.
  cbn [mbind outcome_bind py_upper]. rewrite IH. cbn [mbind outcome_bind].
  rewrite filter_cons.
  destruct (decide (str_in "SPORTS" (str_upper (name c)) = true)) as [-> | Hn].
  - done.
  - by apply not_true_is_false in Hn as ->.
Qed.

Lemma print_found_channels (chs : list channel_info) :
  print_found (channel_json <$> chs) = Done tt.
Proof.
  induction chs as [| c chs IH]; [done |].
  rewrite fmap_cons. cbn [print_found]. by rewrite getitem_number, getitem_name.
Qed.

(** The examples that read [channels_sample.json] expect a list of channel
    dictionaries, and [example_1_basic_parsing] leaves the document of
    [save_json] there, a dictionary with the keys [_metadata] and
    [channels].  Whatever the listing and the registry, when the first
    example returns, [example_3_custom_processing] and
    [example_4_filter_channels] both end in a [TypeError] on the file it
    wrote: their loops run over the keys of the dictionary and index the
    first key, a string, by [name]. *)
Theorem examples_raise_on_saved_document
    (urljoin : string -> string -> option string)
    (file : option (result (gmap string value)))
    (listing : result (list li_item)) (timestamp : string) (doc : json) :
  example_1_basic_parsing urljoin file listing timestamp = Ok doc →
  example_3_custom_processing (Some doc) = Raised (Exn TypeError) ∧
  example_4_filter_channels (Some doc) = Raised (Exn TypeError).
Proof.
  unfold example_1_basic_parsing.
  destruct (scrape_streams urljoin (IPTVScraper default_base_url file) listing
              false no_network []) as [[chs | e] s]; [| done].
  by intros [= <-].
Qed.

(** The first example over a listing of one channel, and the two examples
    that read its file. *)
Lemma examples_raise_on_saved_document_witness :
  ∃ doc,
    example_1_basic_parsing join_demo None (Ok [item_demo "10" (Some "A")])
      "2024-01-01 00:00:00 GMT+6" = Ok doc ∧
    example_3_custom_processing (Some doc) = Raised (Exn TypeError) ∧
    example_4_filter_channels (Some doc) = Raised (Exn TypeError).
Proof.
  eexists. split; [vm_compute; reflexivity |].
  apply (examples_raise_on_saved_document join_demo None
           (Ok [item_demo "10" (Some "A")]) "2024-01-01 00:00:00 GMT+6").
  vm_compute. reflexivity.
Defined.

(** On the document it expects, the list of the channel dictionaries,
    [example_4_filter_channels] writes the channels whose name holds
    [SPORTS] in any mix of cases, in the order of the list, each as it
    was. *)
Theorem example_4_filters_sports (chs : list channel_info) :
  example_4_filter_channels (Some (JList (channel_json <$> chs)))
  = Done (Some (channel_json <$>
                  filter (fun c => str_in "SPORTS" (str_upper (name c)) = true)
                    chs)).
Proof.
  unfold example_4_filter_channels. cbn [py_iter mbind outcome_bind].
  rewrite sports_only_channels. cbn [mbind outcome_bind].
  by rewrite print_found_channels.
Qed.

(** ** The categories of [example_3_custom_processing] *)

Lemma category_str (name : string) :
  category (JStr name) = Done (category_of name).
Proof.
  unfold category, category_of. cbn [any_in py_in mbind outcome_bind].
  destruct (str_in "SPORTS" name); [done |].
  destruct (str_in "CRICKET" name); [done |].
  destruct (str_in "GOLF" name); [done |]. cbn [orb mbind outcome_bind].
  destruct (str_in "CARTOON" name); [done |].
  destruct (str_in "KIDS" name); [done |].
  destruct (str_in "NICK" name); [done |].
  destruct (str_in "POGO" name); [done |]. cbn [orb mbind outcome_bind].
  destruct (str_in "NEWS" name); [done |]. cbn [mbind outcome_bind].
  by destruct (str_in "MUSIC" name).
Qed.

Lemma append_to_lookup (key : string) (channel : json)
    (categories : list (string * list json)) :
  NoDup categories.*1 →
  NoDup (append_to key channel categories).*1 ∧
  ∀ k, (list_to_map (append_to key channel categories)
          : gmap string (list json)) !! k
       = if decide (k = key)
         then Some (default [] ((list_to_map categories
                                   : gmap string (list json)) !! key)
                    ++ [channel])%list
         else (list_to_map categories : gmap string (list json)) !! k.
Proof.
  induction categories as [| [k0 l0] categories IH]; intros Hnd.
  - split; [apply NoDup_singleton |]. intros k. simpl.
    destruct (decide (k = key)) as [-> | Hne].
    + by rewrite lookup_insert_eq.
    + by rewrite lookup_insert_ne.
  - simpl in Hnd. apply NoDup_cons in Hnd as [Hnin Hnd].
    destruct (IH Hnd) as [IHnd IHl]. simpl.
    destruct (String.eqb_spec k0 key) as [-> | Hne]; simpl.
    + split; [by apply NoDup_cons |]. intros k.
      rewrite lookup_insert_eq. destruct (decide (k = key)) as [-> | Hk].
      * by rewrite lookup_insert_eq.
      * by rewrite !lookup_insert_ne.
    + split.
      * apply NoDup_cons. split; [| done]. intros Hin.
        apply list_elem_of_fmap in Hin as ([k1 l1] & -> & Hin). simpl in *.
        assert (is_Some ((list_to_map (append_to key channel categories)
                            : gmap string (list json)) !! k1)) as Hs.
        { apply elem_of_dom. rewrite dom_list_to_map. apply elem_of_list_to_set.
          apply list_elem_of_fmap. by exists (k1, l1). }
        rewrite IHl in Hs. destruct (decide (k1 = key)) as [| _]; [done |].
        apply Hnin. apply elem_of_dom in Hs. rewrite dom_list_to_map in Hs.
        by apply elem_of_list_to_set in Hs.
      * intros k. destruct (decide (k = k0)) as [-> | Hk].
        -- rewrite !lookup_insert_eq. by destruct (decide (k0 = key)).
        -- rewrite !lookup_insert_ne by done. apply IHl.
Qed.

Lemma group_channels_spec (rest seen : list channel_info)
    (categories : list (string * list json)) :
  NoDup categories.*1 →
  (∀ k, (list_to_map categories : gmap string (list json)) !! k
        = match filter (fun c => category_of (name c) = k) seen with
          | [] => None
          | l => Some (channel_json <$> l)
          end) →
  ∃ categories',
    group_channels (channel_json <$> rest) categories = Done categories' ∧
    NoDup categories'.*1 ∧
    ∀ k, (list_to_map categories' : gmap string (list json)) !! k
         = match filter (fun c => category_of (name c) = k) (seen ++ rest)%list with
           | [] => None
           | l => Some (channel_json <$> l)
           end.
Proof.
  revert seen categories. induction rest as [| c rest IH];
    intros seen categories Hnd Hinv.
  - exists categories. rewrite app_nil_r. by repeat split.
  - rewrite fmap_cons. cbn [group_channels]. rewrite getitem_name.
    cbn [mbind outcome_bind]. rewrite category_str. cbn [mbind outcome_bind].
    destruct (append_to_lookup (category_of (name c)) (channel_json c)
                categories Hnd) as [Hnd' Hl'].
    destruct (IH (seen ++ [c])%list _ Hnd') as (cats & Hrun & Hnd2 & Hinv2).
    + intros k. rewrite Hl', filter_app, filter_cons, filter_nil.
      destruct (decide (k = category_of (name c))) as [-> | Hk].
      * rewrite decide_True by done. rewrite Hinv.
        destruct (filter _ seen) as [| c0 l0]; [done |].
        simpl. by rewrite fmap_app.
      * rewrite decide_False by done. by rewrite Hinv, app_nil_r.
    + exists cats. rewrite <- app_assoc in Hinv2. by repeat split.
Qed.

(** On the document it expects, the list of the channel dictionaries,
    [example_3_custom_processing] sorts every channel into the one category
    of its name: the dictionary it builds has, for every category that owns
    a channel, the channels of this category in the order of the list, and
    no other key. *)
Theorem example_3_groups_by_category (chs : list channel_info) :
  ∃ categories,
    example_3_custom_processing (Some (JList (channel_json <$> chs)))
    = Done (Some categories) ∧
    NoDup categories.*1 ∧
    ∀ k, (list_to_map categories : gmap string (list json)) !! k
         = match filter (fun c => category_of (name c) = k) chs with
           | [] => None
           | l => Some (channel_json <$> l)
           end.
Proof.
  destruct (group_channels_spec chs [] []) as (cats & Hrun & Hnd & Hinv).
  - constructor.
  - intros k. by rewrite filter_nil.
  - exists cats. unfold example_3_custom_processing.
    cbn [py_len py_iter mbind outcome_bind]. rewrite Hrun. by repeat split.
Qed.

(* ===================================================================== *)
(** * Where a resolved URL comes from *)
(* ===================================================================== *)

(** The group of a match is a piece of the text searched. *)
Lemma re_match_substring ic (re : regex) (s g : list ascii) (n : nat) :
  re_match ic re s = Some (g, n) →
  ∃ before after, s = (before ++ g ++ after)%list.
Proof.
  intros (a & c & rest & -> & _)%re_match_sound. by exists a, (c ++ rest)%list.
Qed.

Lemma re_findall_substring ic (re : regex) (s raw : string) :
  raw ∈ re_findall ic re s →
  ∃ before after, chars s = (before ++ chars raw ++ after)%list.
Proof.
  unfold re_findall. intros (g & -> & Hg)%list_elem_of_fmap.
  apply list_elem_of_In, findall_chars_sound in Hg as (b & s' & n & Hs & Hm).
  apply re_match_substring in Hm as (a & c & ->).
  exists (b ++ a)%list, c. by rewrite chars_text, Hs, <- app_assoc.
Qed.

Lemma re_search_substring ic (re : regex) (s raw : string) :
  re_search ic re s = Some raw →
  ∃ before after, chars s = (before ++ chars raw ++ after)%list.
Proof.
  unfold re_search.
  destruct (search_chars ic re (chars s)) as [g |] eqn:Hg; [| done].
  intros [= <-]. apply search_chars_sound in Hg as (b & s' & n & Hs & Hm).
  apply re_match_substring in Hm as (a & c & ->).
  exists (b ++ a)%list, c. by rewrite chars_text, Hs, <- app_assoc.
Qed.

Section Provenance.
Variable urljoin : string -> string -> option string.

Lemma try_match_origin (base url u : string) :
  try_match urljoin base url = Ok (Some u) →
  if str_startswith url "http" then u = url else urljoin base url = Some u.
Proof.
  unfold try_match, py_urljoin.
  destruct (_ || _ || _); [| done].
  destruct (str_startswith url "http"); simpl.
  - destruct (excluded url); [done | by intros [= <-]].
  - destruct (urljoin base url) as [u' |]; simpl; [| done].
    destruct (excluded u'); [done | by intros [= <-]].
Qed.

Lemma scan_matches_origin (base : string) (matches : list string) (u : string) :
  scan_matches urljoin base matches = Ok (Some u) →
  ∃ raw, raw ∈ matches ∧
    if str_startswith raw "http" then u = raw else urljoin base raw = Some u.
Proof.
  induction matches as [| url rest IH]; simpl; [done |].
  destruct (try_match urljoin base url) as [[u' |] | e] eqn:Ht; simpl;
    [| | done].
  - intros [= <-]. exists url. split; [by left | by apply try_match_origin].
  - intros (raw & Hin & Hraw)%IH. exists raw. split; [by right | done].
Qed.

Lemma scan_patterns_origin (base : string) (patterns : list regex)
    (html_content u : string) :
  scan_patterns urljoin base patterns html_content = Ok (Some u) →
  ∃ raw before after,
    chars html_content = (before ++ chars raw ++ after)%list ∧
    if str_startswith raw "http" then u = raw else urljoin base raw = Some u.
Proof.
  induction patterns as [| p rest IH]; simpl; [done |].
  destruct (scan_matches urljoin base (re_findall true p html_content))
    as [[u' |] | e] eqn:Hs; simpl; [| done | done].
  intros [= <-]. apply scan_matches_origin in Hs as (raw & Hin & Hraw).
  apply re_findall_substring in Hin as (b & a & Hb). by exists raw, b, a.
Qed.

(** [fetch_m3u8_url] invents nothing.  A URL it returns was read in the
    body of the answer to its one request, an answer with a status outside
    400 to 599: some piece of the body is returned as it stands when it
    begins with [http], and joined to the base URL otherwise. *)
Theorem fetch_m3u8_url_origin (base : string)
    (get : string -> result response) (stream_number u : string) :
  fetch_m3u8_url urljoin base get stream_number = Some u →
  ∃ r raw before after,
    get (player_url base stream_number) = Ok r ∧
    ¬ (400 ≤ status_code r < 600) ∧
    chars (body r) = (before ++ chars raw ++ after)%list ∧
    if str_startswith raw "http" then u = raw else urljoin base raw = Some u.
Proof.
  unfold fetch_m3u8_url, fetch_attempt.
  destruct (get (player_url base stream_number)) as [r | e]; simpl;
    [| by destruct (is_request_exception e)].
  unfold raise_for_status.
  destruct ((400 <=? status_code r) && (status_code r <? 600)) eqn:Hst; simpl;
    [done |].
  assert (¬ (400 ≤ status_code r < 600)) as Hstatus.
  { intros [H1 H2]. apply andb_false_iff in Hst as [Hf | Hf]; lia. }
  unfold extract_url.
  destruct (scan_patterns urljoin base m3u8_patterns (body r))
    as [[u' |] | e] eqn:Hscan; simpl.
  - intros [= <-]. apply scan_patterns_origin in Hscan as (raw & b & a & Hb & Hraw).
    by exists r, raw, b, a.
  - unfold iframe_fallback, py_urljoin.
    destruct (re_search false iframe_re (body r)) as [raw |] eqn:Hsearch;
      [| done].
    apply re_search_substring in Hsearch as (b & a & Hb).
    destruct (str_startswith raw "http") eqn:Hhttp; simpl.
    + intros [= <-]. exists r, raw, b, a. by rewrite Hhttp.
    + destruct (urljoin base raw) as [u' |] eqn:Hjoin; simpl.
      * intros [= <-]. exists r, raw, b, a. by rewrite Hhttp.
      * done.
  - by destruct (is_request_exception e).
Qed.
End Provenance.

(** A player page with the stream URL in an iframe. *)
Lemma fetch_m3u8_url_origin_witness :
  let page := "<iframe id=p src=" ++ dq ++ "http://h/x.m3u8" ++ dq ++ ">" in
  let get (url : string) : result response :=
    Ok {| status_code := 200; body := page |} in
  fetch_m3u8_url join_demo "http://103.144.89.251" get "10"
  = Some "http://h/x.m3u8" ∧
  ∃ r raw before after,
    get (player_url "http://103.144.89.251" "10") = Ok r ∧
    ¬ (400 ≤ status_code r < 600) ∧
    chars (body r) = (before ++ chars raw ++ after)%list ∧
    if str_startswith raw "http" then "http://h/x.m3u8" = raw
    else join_demo "http://103.144.89.251" raw = Some "http://h/x.m3u8".
Proof.
  intros page get. split; [vm_compute; reflexivity |].
  apply (fetch_m3u8_url_origin join_demo "http://103.144.89.251" get "10").
  vm_compute. reflexivity.
Defined.

(* ===================================================================== *)
(** * The matcher finds a match when there is one *)
(* ===================================================================== *)

Lemma m_lit_complete {R : Type} ic (l a b : list ascii)
    (k : list ascii -> option R) :
  Forall2 (fun x y => char_eq ic x y = true) l a →
  m_lit ic l k (a ++ b) = k b.
Proof.
  induction 1 as [| x y l a Hxy _ IH]; simpl; [done |]. by rewrite Hxy.
Qed.

Lemma m_star_complete {R : Type} (p : ascii -> bool) (a b : list ascii)
    (k : list ascii -> option R) (r : R) :
  forallb p a = true → k b = Some r → ∃ r', m_star p k (a ++ b) = Some r'.
Proof.
  intros Ha Hk. induction a as [| c a IH]; simpl.
  - destruct b as [| c b]; simpl; [eauto |].
    destruct (p c); [| eauto].
    destruct (m_star p k b); eauto.
  - simpl in Ha. apply andb_true_iff in Ha as [-> Ha].
    destruct (IH Ha) as [r' ->]. eauto.
Qed.

Lemma m_item_complete {R : Type} ic (it : re_item) (a b : list ascii)
    (k : list ascii -> option R) (r : R) :
  item_sem ic it a → k b = Some r → ∃ r', m_item ic it k (a ++ b) = Some r'.
Proof.
  destruct it as [l | p | p | p | c]; simpl.
  - intros Hl Hk. rewrite (m_lit_complete ic _ _ _ _ Hl). eauto.
  - intros (c & -> & Hc) Hk. simpl. rewrite Hc. eauto.
  - apply m_star_complete.
  - intros [Hne Ha] Hk. destruct a as [| c a]; [done |]. simpl in *.
    apply andb_true_iff in Ha as [-> Ha]. by eapply m_star_complete.
  - intros [-> | (c' & -> & Hc)] Hk; simpl.
    + destruct b as [| c' b]; [eauto |].
      destruct (char_eq ic c c'); [| eauto]. destruct (k b); eauto.
    + rewrite Hc, Hk. eauto.
Qed.

Lemma m_items_complete {R : Type} ic (its : list re_item) (a b : list ascii)
    (k : list ascii -> option R) (r : R) :
  items_sem ic its a → k b = Some r → ∃ r', m_items ic its k (a ++ b) = Some r'.
Proof.
  revert a r. induction its as [| it its IH]; intros a r; simpl.
  - intros -> Hk. eauto.
  - intros (a1 & a2 & -> & H1 & H2) Hk.
    destruct (IH a2 r H2 Hk) as [r1 Hr1].
    rewrite <- app_assoc. by eapply m_item_complete.
Qed.

(** A text that begins with a match of the pattern is matched. *)
Lemma re_match_complete ic (re : regex) (a g c rest : list ascii) :
  items_sem ic (re_pre re) a → items_sem ic (re_group re) g →
  items_sem ic (re_post re) c →
  ∃ g' n, re_match ic re (a ++ g ++ c ++ rest) = Some (g', n).
Proof.
  intros Ha Hg Hc. unfold re_match.
  set (s := (a ++ g ++ c ++ rest)%list).
  set (k3 := fun s1 s2 s3 : list ascii =>
               Some (firstn (length s1 - length s2) s1,
                     (length s - length s3)%nat)).
  set (k2 := fun s1 s2 : list ascii => m_items ic (re_post re) (k3 s1 s2) s2).
  set (k1 := fun s1 : list ascii => m_items ic (re_group re) (k2 s1) s1).
  change (∃ g' n, m_items ic (re_pre re) k1 s = Some (g', n)).
  assert (∀ s1, ∃ r, k2 s1 (c ++ rest)%list = Some r) as H2.
  { intros s1. unfold k2. by eapply m_items_complete. }
  assert (∃ r, k1 (g ++ c ++ rest)%list = Some r) as [r1 H1].
  { unfold k1. destruct (H2 (g ++ c ++ rest)%list) as [r Hr].
    by eapply m_items_complete. }
  destruct (m_items_complete ic _ a _ k1 r1 Ha H1) as [[g' n] Hr].
  by exists g', n.
Qed.

(** ** Texts that mention [.m3u8] *)

Lemma starts_with_split (sub s : list ascii) :
  starts_with sub s = true → ∃ rest, s = (sub ++ rest)%list.
Proof.
  revert s. induction sub as [| a sub IH]; intros s; simpl; [eauto |].
  destruct s as [| b s]; [done |].
  intros [->%Ascii.eqb_eq [rest ->]%IH]%andb_true_iff. eauto.
Qed.

Lemma starts_with_app (sub rest : list ascii) :
  starts_with sub (sub ++ rest) = true.
Proof.
  induction sub as [| a sub IH]; simpl; [done |].
  by rewrite Ascii.eqb_refl, IH.
Qed.

Lemma contains_split (sub s : list ascii) :
  contains sub s = true → ∃ x y, s = (x ++ sub ++ y)%list.
Proof.
  induction s as [| c s IH]; simpl.
  - rewrite orb_false_r. intros [rest Hr]%starts_with_split. by exists [], rest.
  - intros [[rest Hr]%starts_with_split | (x & y & ->)%IH]%orb_true_iff.
    + by exists [], rest.
    + by exists (c :: x), y.
Qed.

Lemma contains_middle (sub x y : list ascii) :
  contains sub (x ++ sub ++ y) = true.
Proof.
  apply contains_app_r. destruct (sub ++ y)%list eqn:Heq; simpl.
  - destruct sub; [done | discriminate].
  - rewrite <- Heq, starts_with_app. done.
Qed.

Lemma lower_app (a b : list ascii) : lower (a ++ b) = (lower a ++ lower b)%list.
Proof. apply map_app. Qed.

(** The texts equal to [.m3u8] up to case are the texts whose lower case
    is [.m3u8]. *)
Lemma m3u8_lower (m : list ascii) :
  Forall2 (fun x y => char_eq true x y = true) (chars ".m3u8") m ↔
  lower m = chars ".m3u8".
Proof.
  split.
  - intros H. repeat (inversion H as [| ? ? ? ? ?Hc H']; subst; clear H;
                      rename H' into H). inversion H; subst.
    simpl. repeat f_equal;
      match goal with
      | Hx : char_eq true ?a ?b = true |- lower_char ?b = _ =>
          unfold char_eq in Hx; apply Ascii.eqb_eq in Hx; by rewrite <- Hx
      end.
  - destruct m as [| c1 [| c2 [| c3 [| c4 [| c5 [| c6 m]]]]]]; try done.
    simpl. intros [= H1 H2 H3 H4 H5].
    repeat constructor; unfold char_eq; apply Ascii.eqb_eq;
      by (rewrite H1 || rewrite H2 || rewrite H3 || rewrite H4 || rewrite H5).
Qed.

Lemma mentions_m3u8_split (s : list ascii) :
  mentions_m3u8 s = true ↔
  ∃ x m y, s = (x ++ m ++ y)%list ∧
    Forall2 (fun a b => char_eq true a b = true) (chars ".m3u8") m.
Proof.
  unfold mentions_m3u8, lower. split.
  - intros (x & y & Hs)%contains_split.
    apply map_eq_app in Hs as (x' & r & -> & <- & Hr).
    apply map_eq_app in Hr as (m & y' & -> & Hm & <-).
    exists x', m, y'. split; [done |]. by apply m3u8_lower.
  - intros (x & m & y & -> & Hm%m3u8_lower).
    rewrite !map_app. unfold lower in Hm. rewrite Hm. apply contains_middle.
Qed.

Lemma m3u8_not_quote (m : list ascii) :
  Forall2 (fun x y => char_eq true x y = true) (chars ".m3u8") m →
  forallb not_quote m = true.
Proof.
  assert (∀ x c, char_eq true x c = true → is_quote (lower_char x) = false →
                 is_quote c = false) as Hq.
  { intros x c Hc Hx. destruct (is_quote c) eqn:Hqc; [| done].
    apply is_quote_cases in Hqc as [-> | ->];
      unfold char_eq in Hc; apply Ascii.eqb_eq in Hc; by rewrite Hc in Hx. }
  intros H. repeat (inversion H as [| ? ? ? ? ?Hc H']; subst; clear H;
                    rename H' into H). inversion H; subst.
  simpl. unfold not_quote.
  repeat match goal with
         | Hx : char_eq true ?a ?b = true |- _ =>
             rewrite (Hq a b Hx eq_refl); clear Hx
         end.
  done.
Qed.

Lemma mentions_m3u8_before_src (pre : list ascii) :
  mentions_m3u8 pre = false → mentions_m3u8 (pre ++ chars "src=") = false.
Proof.
  intros Hpre. apply not_true_is_false.
  intros (x & m & y & Heq & Hm)%mentions_m3u8_split.
  rewrite app_assoc in Heq. apply app_eq_inv in Heq as [(k & Hk & _) | (k & Hk & Hy)].
  - rewrite <- not_true_iff_false in Hpre. apply Hpre.
    apply mentions_m3u8_split. exists x, m, k. by rewrite Hk, <- app_assoc.
  - destruct k as [| c1 k].
    + rewrite app_nil_r in Hk. rewrite <- not_true_iff_false in Hpre.
      apply Hpre. apply mentions_m3u8_split. exists x, m, []. by rewrite app_nil_r.
    + repeat (inversion Hm as [| ? ? ? ? ?Hc H']; subst; clear Hm;
              rename H' into Hm). inversion Hm; subst.
      apply (f_equal last) in Hk. rewrite !last_app in Hk. simpl in Hk.
      destruct k as [| c2 [| c3 [| c4 [| c5 k]]]]; simpl in Hy, Hk;
        simplify_eq; vm_compute in Hc3; discriminate.
Qed.

(** Of two texts without quotes that are each followed by a quote in the
    same text, one is the other. *)
Lemma quote_free_prefix_unique (g u : list ascii) (c q : ascii)
    (r r' : list ascii) :
  forallb not_quote g = true → forallb not_quote u = true →
  is_quote c = true → is_quote q = true →
  (g ++ c :: r)%list = (u ++ q :: r')%list → g = u.
Proof.
  intros Hg Hu Hc Hq. revert u Hu.
  induction g as [| x g IH]; intros [| y u] Hu; simpl in *.
  - done.
  - intros [= -> _]. apply andb_true_iff in Hu as [Hy _].
    unfold not_quote in Hy. by rewrite Hc in Hy.
  - intros [= -> _]. apply andb_true_iff in Hg as [Hx _].
    unfold not_quote in Hx. by rewrite Hq in Hx.
  - apply andb_true_iff in Hg as [_ Hg]. apply andb_true_iff in Hu as [_ Hu].
    intros [= -> Heq]. f_equal. by apply IH.
Qed.

Lemma m3u8_group_sem (g : list ascii) :
  items_sem true m3u8_group g ↔
  forallb not_quote g = true ∧ mentions_m3u8 g = true.
Proof.
  unfold m3u8_group. simpl. split.
  - intros (g1 & ? & -> & Hg1 & m & ? & -> & Hm & g2 & ? & -> & Hg2 & ->).
    rewrite app_nil_r. split.
    + rewrite !forallb_app, Hg1, Hg2, (m3u8_not_quote m Hm). done.
    + apply mentions_m3u8_split. by exists g1, m, g2.
  - intros [Hq (x & m & y & -> & Hm)%mentions_m3u8_split].
    rewrite !forallb_app in Hq.
    apply andb_true_iff in Hq as [Hx [_ Hy]%andb_true_iff].
    exists x, (m ++ y)%list. split; [done |]. split; [done |].
    exists m, y. split; [done |]. split; [done |].
    exists y, []. by rewrite app_nil_r.
Qed.

Lemma pattern_1_pre_sem (a : list ascii) :
  items_sem true (re_pre pattern_1) a →
  ∃ a1 qa, a = (a1 ++ [qa])%list ∧ length a1 = 4%nat ∧ is_quote qa = true.
Proof.
  simpl. intros (a1 & ? & -> & Ha1 & ? & ? & -> & (qa & -> & Hqa) & ->).
  exists a1, qa. rewrite app_nil_r. split; [done |]. split; [| done].
  by apply Forall2_length in Ha1.
Qed.

Section SrcAttribute.
Variables (pre : list ascii) (q : ascii) (u : list ascii) (q' : ascii)
  (post : list ascii).
Hypothesis Hpre : mentions_m3u8 pre = false.
Hypothesis Hq : is_quote q = true.
Hypothesis Hq' : is_quote q' = true.
Hypothesis Hu : forallb not_quote u = true.
Hypothesis Hm3u8 : mentions_m3u8 u = true.

(** The first pattern matches at the attribute, and its group is the text
    between the quotes. *)
Lemma pattern_1_at_src :
  ∃ n, re_match true pattern_1 (chars "src=" ++ q :: u ++ q' :: post)%list
       = Some (u, n).
Proof.
  destruct (re_match_complete true pattern_1 (chars "src=" ++ [q])%list u [q']
              post) as (g & n & Hmatch).
  - simpl. exists (chars "src="), [q]. split; [done |]. split.
    + repeat constructor.
    + exists [q], []. split; [done |]. split; [by exists q | done].
  - by apply m3u8_group_sem.
  - simpl. exists [q'], []. split; [done |]. split; [by exists q' | done].
  - replace ((chars "src=" ++ [q]) ++ u ++ [q'] ++ post)%list
      with (chars "src=" ++ q :: u ++ q' :: post)%list in Hmatch
      by (by rewrite <- app_assoc).
    exists n. rewrite Hmatch. do 2 f_equal.
    apply re_match_sound in Hmatch as (a & c & rest & Heq & Ha & Hg & Hc).
    apply pattern_1_pre_sem in Ha as (a1 & qa & -> & Hlen & Hqa).
    apply m3u8_group_sem in Hg as [Hg _].
    simpl in Hc. destruct Hc as (? & ? & -> & (qc & -> & Hqc) & ->).
    destruct a1 as [| x1 [| x2 [| x3 [| x4 [| x5 a1]]]]]; try done.
    simpl in Heq. injection Heq as _ _ _ _ _ Heq. symmetry in Heq.
    by apply quote_free_prefix_unique in Heq.
Qed.

(** The first pattern matches nowhere before the attribute. *)
Lemma pattern_1_not_before (p1 p2 : list ascii) (z : list ascii) :
  pre = (p1 ++ p2)%list → p2 ≠ [] →
  re_match true pattern_1 (p2 ++ chars "src=" ++ q :: z)%list = None.
Proof.
  intros Hsplit Hne.
  destruct (re_match true pattern_1 (p2 ++ chars "src=" ++ q :: z)%list)
    as [[g n] |] eqn:Hmatch; [exfalso | done].
  apply mentions_m3u8_before_src in Hpre as Hno.
  rewrite <- not_true_iff_false in Hno. apply Hno. clear Hno.
  apply re_match_sound in Hmatch as (a & c & rest & Heq & Ha & Hg & _).
  apply pattern_1_pre_sem in Ha as (a1 & qa & -> & Hlen & Hqa).
  simpl in Hg.
  destruct Hg as (g1 & ? & -> & Hg1 & m & ? & -> & Hm & g2 & ? & -> & Hg2 & ->).
  rewrite app_nil_r in Heq.
  assert (((p2 ++ chars "src=") ++ q :: z)%list
          = (((a1 ++ [qa]) ++ g1 ++ m) ++ g2 ++ c ++ rest)%list) as Heq'.
  { rewrite <- !app_assoc. rewrite <- !app_assoc in Heq. exact Heq. }
  apply mentions_m3u8_split.
  apply app_eq_inv in Heq' as [(k & Hk & _) | (k & Hk & Hz)].
  - exists (p1 ++ (a1 ++ [qa]) ++ g1)%list, m, k. split; [| done].
    rewrite Hsplit, <- !app_assoc. rewrite <- !app_assoc in Hk.
    by rewrite Hk.
  - destruct k as [| q0 k].
    + exists (p1 ++ (a1 ++ [qa]) ++ g1)%list, m, []. split; [| done].
      rewrite app_nil_r in Hk.
      rewrite Hsplit, <- !app_assoc. rewrite <- !app_assoc in Hk.
      by rewrite <- Hk, app_nil_r.
    + exfalso. simpl in Hz. injection Hz as <- _.
      assert (forallb not_quote (g1 ++ m) = true) as Hfree.
      { by rewrite forallb_app, Hg1, (m3u8_not_quote m Hm). }
      assert (∃ k', (g1 ++ m)%list = (k' ++ q :: k)%list) as [k' Hk'].
      { apply app_eq_inv in Hk as [(k' & Hk' & Hgm) | (k' & _ & Hk')].
        - apply (f_equal length) in Hk'. rewrite !length_app in Hk'.
          simpl in Hk'. destruct p2 as [| ? p2]; [done |]. simpl in Hk'.
          assert (length k' = 0%nat) as ->%nil_length_inv by lia.
          simpl in Hgm. exists []. by rewrite Hgm.
        - eauto. }
      rewrite Hk', forallb_app in Hfree. simpl in Hfree.
      unfold not_quote in Hfree. rewrite Hq in Hfree. simpl in Hfree.
      by rewrite andb_false_r in Hfree.
Qed.

Lemma findall_before_src (p1 p2 : list ascii) (z : list ascii) :
  pre = (p1 ++ p2)%list →
  findall_chars true pattern_1 0 (p2 ++ chars "src=" ++ q :: z)%list
  = findall_chars true pattern_1 0 (chars "src=" ++ q :: z)%list.
Proof.
  revert p1. induction p2 as [| c p2 IH]; intros p1 Hsplit; [done |].
  pose proof (pattern_1_not_before p1 (c :: p2) z Hsplit) as Hno.
  rewrite <- app_comm_cons in Hno |- *. cbn [findall_chars].
  rewrite Hno by done.
  apply (IH (p1 ++ [c])%list). by rewrite <- app_assoc.
Qed.

(** The candidates of the first pattern begin with the text between the
    quotes. *)
Lemma findall_src :
  ∃ others,
    re_findall true pattern_1 (src_page pre q u q' post) = text u :: others.
Proof.
  unfold re_findall, src_page. rewrite chars_text.
  rewrite (findall_before_src [] pre (u ++ q' :: post)%list eq_refl).
  destruct pattern_1_at_src as [n Hn].
  change (chars "src=" ++ q :: u ++ q' :: post)%list
    with ("s"%char :: (chars "rc=" ++ q :: u ++ q' :: post)%list) in Hn |- *.
  cbn [findall_chars]. rewrite Hn. rewrite fmap_cons. eauto.
Qed.
End SrcAttribute.

Section FindsSrc.
Variable urljoin : string -> string -> option string.

(** The resolver finds the stream URL of a [src] attribute.  The player
    page answers with a status outside 400 to 599; its first mention of
    [.m3u8], in any mix of cases, is in the quoted value of a [src=]
    attribute; the value, taken as it stands when it begins with [http] and
    joined to the base URL otherwise, holds no fragment of the exclusion
    list.  Then [fetch_m3u8_url] returns this URL, whatever comes before
    and after the attribute in the page. *)
Theorem fetch_finds_src_attribute (base : string)
    (get : string -> result response) (stream_number : string) (r : response)
    (pre : list ascii) (q : ascii) (u : list ascii) (q' : ascii)
    (post : list ascii) (url : string) :
  get (player_url base stream_number) = Ok r →
  ¬ (400 ≤ status_code r < 600) →
  body r = src_page pre q u q' post →
  mentions_m3u8 pre = false →
  is_quote q = true → is_quote q' = true →
  forallb not_quote u = true → mentions_m3u8 u = true →
  (if str_startswith (text u) "http" then text u = url
   else urljoin base (text u) = Some url) →
  excluded url = false →
  fetch_m3u8_url urljoin base get stream_number = Some url.
Proof.
  intros Hget Hstatus Hbody Hpre Hq Hq' Hu Hm Hurl Hex.
  unfold fetch_m3u8_url, fetch_attempt. rewrite Hget. cbn [mbind result_bind].
  unfold raise_for_status.
  replace ((400 <=? status_code r) && (status_code r <? 600)) with false.
  2: { symmetry. apply not_true_is_false.
       intros [H1 H2]%andb_true_iff. apply Hstatus. lia. }
  cbn [mbind result_bind]. unfold extract_url, m3u8_patterns.
  cbn [scan_patterns]. rewrite Hbody.
  destruct (findall_src pre q u q' post Hpre Hq Hq' Hu Hm) as [others ->].
  cbn [scan_matches].
  assert (try_match urljoin base (text u) = Ok (Some url)) as ->; [| done].
  unfold try_match, str_in, str_lower. rewrite !chars_text.
  fold (mentions_m3u8 u). rewrite Hm. cbn [orb].
  destruct (str_startswith (text u) "http"); cbn [negb].
  - subst url. cbn [mbind result_bind]. by rewrite Hex.
  - unfold py_urljoin. rewrite Hurl. cbn [mbind result_bind]. by rewrite Hex.
Qed.
End FindsSrc.

(** A player page with a script, a stylesheet and a video element. *)
Lemma fetch_finds_src_attribute_witness :
  let pre := chars ("<script src=" ++ dq ++ "player.js" ++ dq ++ "></script>"
                    ++ "<video ") in
  let post := chars " controls></video>" in
  let u := chars "live/10/index.M3U8?token=7" in
  let page := src_page pre dquote u dquote post in
  let get (url : string) : result response :=
    Ok {| status_code := 200; body := page |} in
  page = "<script src=" ++ dq ++ "player.js" ++ dq ++ "></script>"
         ++ "<video src=" ++ dq ++ "live/10/index.M3U8?token=7" ++ dq
         ++ " controls></video>" ∧
  fetch_m3u8_url join_demo "http://103.144.89.251" get "10"
  = Some "http://103.144.89.251/live/10/index.M3U8?token=7".
Proof.
  intros pre post u page get. split; [vm_compute; reflexivity |].
  apply (fetch_finds_src_attribute join_demo "http://103.144.89.251" get "10"
           {| status_code := 200; body := page |} pre dquote u dquote post).
  - reflexivity.
  - simpl. lia.
  - reflexivity.
  - vm_compute. reflexivity.
  - reflexivity.
  - reflexivity.
  - vm_compute. reflexivity.
  - vm_compute. reflexivity.
  - vm_compute. reflexivity.
  - vm_compute. reflexivity.
Defined.

(* ===================================================================== *)
(** * The order of a catalog whose numbers are strings *)
(* ===================================================================== *)

Lemma ltb_lt (a b : string) :
  (a <? b)%string = true ↔ OrderedTypeEx.String_as_OT.lt a b.
Proof.
  rewrite <- OrderedTypeEx.String_as_OT.cmp_lt. unfold String.ltb.
  change (OrderedTypeEx.String_as_OT.cmp a b) with (a ?= b)%string.
  destruct (a ?= b)%string; split; done.
Qed.

Lemma str_le_of_lt (a b : string) : (a <? b)%string = true → str_le a b.
Proof.
  unfold str_le, String.ltb. rewrite (String.compare_antisym b a).
  by destruct (a ?= b)%string.
Qed.

Lemma str_le_trans (a b c : string) : str_le a b → str_le b c → str_le a c.
Proof.
  unfold str_le. intros Hab Hbc. apply not_true_is_false. intros Hca.
  apply ltb_lt in Hca.
  destruct (b ?= a)%string eqn:Hcmp.
  - apply String.compare_eq_iff in Hcmp as ->.
    apply ltb_lt in Hca. congruence.
  - unfold String.ltb in Hab. by rewrite Hcmp in Hab.
  - assert ((a <? b)%string = true) as Hlt.
    { unfold String.ltb. rewrite (String.compare_antisym a b), Hcmp. done. }
    apply ltb_lt in Hlt.
    pose proof (OrderedTypeEx.String_as_OT.lt_trans _ _ _ Hca Hlt) as Hcb.
    apply ltb_lt in Hcb. congruence.
Qed.

Lemma insert_by_number_sorted_strs (x : channel_info) (l r : list channel_info) :
  str_numbered x → Forall str_numbered l →
  StronglySorted (fun a b => str_le (str_key a) (str_key b)) l →
  insert_by_number x l = Ok r →
  StronglySorted (fun a b => str_le (str_key a) (str_key b)) r.
Proof.
  intros [tx Hx] Hl Hs. revert r.
  induction Hs as [| y l Hs IH Hy]; intros r; simpl.
  - intros [= <-]. repeat constructor.
  - apply Forall_cons in Hl as [[ty Hty] Hl]. rewrite Hty, Hx. simpl.
    destruct (ty <? tx)%string eqn:Hlt.
    + destruct (insert_by_number x l) as [r' | e] eqn:Hins; simpl; [| done].
      intros [= <-]. constructor; [by apply IH |].
      rewrite (insert_by_number_perm _ _ _ Hins). constructor; [| done].
      unfold str_key. rewrite Hty, Hx. by apply str_le_of_lt.
    + intros [= <-].
      assert (str_le (str_key x) (str_key y)) as Hxy.
      { unfold str_key. by rewrite Hty, Hx. }
      constructor; [by constructor |]. constructor; [done |].
      eapply Forall_impl; [exact Hy |]. intros z Hz. simpl in *.
      by eapply str_le_trans.
Qed.

Lemma sort_by_number_sorted_strs (l r : list channel_info) :
  Forall str_numbered l → sort_by_number l = Ok r →
  StronglySorted (fun a b => str_le (str_key a) (str_key b)) r.
Proof.
  revert r. induction l as [| x l IH]; intros r Hl; simpl.
  - intros [= <-]. constructor.
  - apply Forall_cons in Hl as [Hx Hl].
    destruct (sort_by_number l) as [r' |] eqn:Hr'; simpl; [| done].
    apply insert_by_number_sorted_strs; [done | | by apply IH].
    by rewrite (sort_by_number_perm _ _ Hr').
Qed.

Lemma numbers_strs (chs : list channel_info) (ts : list string) :
  number <$> chs = VStr <$> ts →
  Forall str_numbered chs ∧ ts = str_key <$> chs.
Proof.
  revert ts. induction chs as [| ch chs IH]; intros [| t ts]; simpl; try done.
  intros [= Hn Hrest]. destruct (IH ts Hrest) as [Hf ->].
  split; [constructor; [by exists t | done] |].
  f_equal. unfold str_key. by rewrite Hn.
Qed.

Section StringOrder.
Variable urljoin : string -> string -> option string.

(** In a run of [scrape_streams] that returns a catalog whose numbers are
    all [str]s (the numbers of channels the registry knew), the catalog is
    in the order of these strings, not of the integers they stand for:
    the channel numbered [10] comes before the channel numbered [2]. *)
Theorem catalog_order_of_strings (s : scraper) (listing : result (list li_item))
    (fetch_urls : bool) (net : nat -> string -> result response)
    (completion : list nat) (chs : list channel_info) (s' : scraper)
    (ts : list string) :
  scrape_streams urljoin s listing fetch_urls net completion = (Ok chs, s') →
  number <$> chs = VStr <$> ts →
  StronglySorted str_le ts.
Proof.
  unfold scrape_streams, parse_html. destruct listing as [items | e]; [| done].
  destruct (sort_by_number (channels (parse_items urljoin s items)))
    as [sorted |] eqn:Hsort; [| done].
  intros Hrun Hnums.
  assert (number <$> sorted = VStr <$> ts) as Hsorted.
  { destruct fetch_urls; simpl in Hrun; injection Hrun as <- _; [| done].
    by rewrite (proj1 (collect_numbers _ _ _)) in Hnums. }
  destruct (numbers_strs _ _ Hsorted) as [Hstrs ->].
  apply StronglySorted_fmap with
    (R1 := fun a b => str_le (str_key a) (str_key b)); [done |].
  apply (sort_by_number_sorted_strs (channels (parse_items urljoin s items)));
    [| done].
  by rewrite <- (sort_by_number_perm _ _ Hsort).
Qed.
End StringOrder.

(** A session whose registry gives A the number 2 and B the number 10: the
    catalog lists B before A. *)
Lemma catalog_order_of_strings_witness :
  let m : gmap string value := <["B" := VStr "10"]> (<["A" := VStr "2"]> ∅) in
  let listing := Ok [item_demo "7" (Some "A"); item_demo "8" (Some "B")] in
  let net (idx : nat) (url : string) : result response := Raise Timeout in
  let run := scrape_streams join_demo (init_demo m) listing true net
               [0; 1]%nat in
  ∃ chs, fst run = Ok chs ∧
    name <$> chs = ["B"; "A"] ∧
    number <$> chs = VStr <$> ["10"; "2"] ∧
    StronglySorted str_le ["10"; "2"].
Proof.
  intros m listing net run. eexists. split; [vm_compute; reflexivity |].
  split; [vm_compute; reflexivity |]. split; [vm_compute; reflexivity |].
  refine (catalog_order_of_strings join_demo (init_demo m) listing true net
            [0; 1]%nat _ (snd run) ["10"; "2"] _ _).
  - vm_compute. reflexivity.
  - vm_compute. reflexivity.
Defined.

(* ===================================================================== *)
(** * Pages without a stream URL *)
(* ===================================================================== *)

Lemma lit_lower ic (l m : list ascii) :
  Forall2 (fun x y => char_eq ic x y = true) l m → lower m = lower l.
Proof.
  induction 1 as [| x y l m Hxy _ IH]; [done |]. simpl. rewrite IH. f_equal.
  unfold char_eq in Hxy. destruct ic; apply Ascii.eqb_eq in Hxy; congruence.
Qed.

(** A text matched by items with a literal among them holds the literal,
    up to case. *)
Lemma items_sem_lit ic (its : list re_item) (a : list ascii) (l : string) :
  In (Lit l) its → items_sem ic its a →
  contains (lower (chars l)) (lower a) = true.
Proof.
  revert a. induction its as [| it its IH]; intros a; simpl; [done |].
  intros [-> | Hin] (a1 & a2 & -> & H1 & H2); rewrite lower_app.
  - simpl in H1. rewrite (lit_lower _ _ _ H1).
    apply (contains_middle _ []).
  - apply contains_app_r. by apply IH.
Qed.

Lemma contains_app_l (sub a b : list ascii) :
  contains sub a = true → contains sub (a ++ b) = true.
Proof.
  intros (x & y & ->)%contains_split. rewrite <- !app_assoc.
  apply contains_middle.
Qed.

Lemma re_match_lit ic (re : regex) (l : string) (s g : list ascii) (n : nat) :
  In (Lit l) (re_pre re ++ re_group re) →
  re_match ic re s = Some (g, n) →
  contains (lower (chars l)) (lower s) = true.
Proof.
  intros Hin (a & c & rest & -> & Ha & Hg & _)%re_match_sound.
  rewrite !lower_app. apply in_app_or in Hin as [Hin | Hin].
  - apply contains_app_l. by eapply items_sem_lit.
  - apply contains_app_r, contains_app_l. by eapply items_sem_lit.
Qed.

(** A pattern with a literal finds nothing in a text that does not hold
    the literal. *)
Lemma re_findall_none ic (re : regex) (l s : string) :
  In (Lit l) (re_pre re ++ re_group re) →
  contains (lower (chars l)) (lower (chars s)) = false →
  re_findall ic re s = [].
Proof.
  intros Hin Hno. unfold re_findall.
  destruct (findall_chars ic re 0 (chars s)) as [| g gs] eqn:Hf; [done |].
  assert (In g (findall_chars ic re 0 (chars s))) as Hg by (rewrite Hf; by left).
  apply findall_chars_sound in Hg as (before & s' & n & Hs & Hm).
  apply (re_match_lit _ _ l) in Hm; [| done].
  rewrite Hs, lower_app, (contains_app_r _ _ _ Hm) in Hno. done.
Qed.

Lemma re_search_none ic (re : regex) (l s : string) :
  In (Lit l) (re_pre re ++ re_group re) →
  contains (lower (chars l)) (lower (chars s)) = false →
  re_search ic re s = None.
Proof.
  intros Hin Hno. unfold re_search.
  destruct (search_chars ic re (chars s)) as [g |] eqn:Hf; [| done].
  apply search_chars_sound in Hf as (before & s' & n & Hs & Hm).
  apply (re_match_lit _ _ l) in Hm; [| done].
  rewrite Hs, lower_app, (contains_app_r _ _ _ Hm) in Hno. done.
Qed.

Section NoStream.
Variable urljoin : string -> string -> option string.

(** A player page that mentions neither [.m3u8] nor [<iframe], in any mix
    of cases, resolves to nothing: no pattern of the loop and no last
    resort can match, and [fetch_m3u8_url] returns [None]. *)
Theorem fetch_none_without_mention (base : string)
    (get : string -> result response) (stream_number : string) :
  (∀ r, get (player_url base stream_number) = Ok r →
        mentions_m3u8 (chars (body r)) = false ∧
        contains (chars "<iframe") (lower (chars (body r))) = false) →
  fetch_m3u8_url urljoin base get stream_number = None.
Proof.
  intros Hpage. unfold fetch_m3u8_url, fetch_attempt.
  destruct (get (player_url base stream_number)) as [r | e] eqn:Hget;
    cbn [mbind result_bind]; [| by destruct (is_request_exception e)].
  destruct (Hpage r eq_refl) as [Hm Hi]. unfold mentions_m3u8 in Hm.
  destruct (raise_for_status r) as [[] | e]; cbn [mbind result_bind];
    [| by destruct (is_request_exception e)].
  unfold extract_url, m3u8_patterns. cbn [scan_patterns].
  rewrite (re_findall_none true pattern_1 ".m3u8"),
    (re_findall_none true pattern_2 ".m3u8"),
    (re_findall_none true pattern_3 ".m3u8"),
    (re_findall_none true pattern_4 ".m3u8"),
    (re_findall_none true pattern_5 ".m3u8"),
    (re_findall_none true pattern_6 ".m3u8"),
    (re_findall_none true pattern_7 "<iframe");
    try done; try (simpl; tauto).
  cbn [scan_matches mbind result_bind]. unfold iframe_fallback.
  rewrite (re_search_none false iframe_re "<iframe"); [done | | done].
  simpl. tauto.
Qed.
End NoStream.

(** A player page that only says that the channel is off the air. *)
Lemma fetch_none_without_mention_witness :
  let get (url : string) : result response :=
    Ok {| status_code := 200;
          body := "<html><body><p>Channel offline</p></body></html>" |} in
  fetch_m3u8_url join_demo "http://103.144.89.251" get "10" = None.
Proof.
  intros get.
  apply (fetch_none_without_mention join_demo "http://103.144.89.251" get "10").
  intros r [= <-]. split; vm_compute; reflexivity.
Defined.

(* ===================================================================== *)
(** * The catalog of a first run *)
(* ===================================================================== *)

Lemma numbered_from_cons (k : nat) (x : string * string * string)
    (acc : list (string * string * string)) :
  numbered_from k (x :: acc)
  = parsed_record (VInt (Z.of_nat k + 1)) x.1.1 x.1.2 x.2
      :: numbered_from (S k) acc.
Proof.
  unfold numbered_from. rewrite imap_cons. rewrite Nat.add_0_r. f_equal.
  apply imap_ext. intros i y _. simpl. by rewrite Nat.add_succ_r.
Qed.

(** Calls for new, pairwise distinct names on a dense mapping return the
    numbers that follow its size. *)
Lemma assign_all_fresh (m : gmap string value)
    (acc : list (string * string * string)) :
  dense m → NoDup (accepted_name <$> acc) →
  (∀ n, n ∈ accepted_name <$> acc → m !! n = None) →
  records acc (fst (assign_all m (accepted_name <$> acc)))
  = numbered_from (size m) acc.
Proof.
  revert m. induction acc as [| [[n tok] l] acc IH]; intros m Hd Hnd Hnew;
    [done |].
  rewrite fmap_cons in Hnd, Hnew |- *. apply NoDup_cons in Hnd as [Hnin Hnd].
  change (accepted_name (n, tok, l)) with n in *.
  destruct (assign_dense m n Hd) as [Ha Hd1]; [apply Hnew; by left |].
  rewrite assign_all_cons, Ha. cbn [fst snd records].
  rewrite numbered_from_cons. f_equal.
  rewrite IH; [| done | done |].
  - by rewrite map_size_insert_None by (apply Hnew; by left).
  - intros n' Hn'. rewrite lookup_insert_ne; [apply Hnew; by right |].
    intros ->. done.
Qed.

Lemma insert_before_greater (x : channel_info) (l : list channel_info) :
  int_numbered x →
  Forall (fun y => int_numbered y ∧ int_key x < int_key y) l →
  insert_by_number x l = Ok (x :: l).
Proof.
  intros [zx Hx] Hl. destruct Hl as [| y l [[zy Hy] Hlt] _]; [done |].
  simpl. unfold int_key in Hlt. rewrite Hx, Hy in Hlt |- *. simpl.
  by replace (zy <? zx) with false by (symmetry; apply Z.ltb_ge; lia).
Qed.

Lemma numbered_from_keys (k : nat) (acc : list (string * string * string)) :
  Forall (fun y => int_numbered y ∧ Z.of_nat k < int_key y) (numbered_from k acc).
Proof.
  revert k. induction acc as [| x acc IH]; intros k; [constructor |].
  rewrite numbered_from_cons. constructor.
  - split; [by eexists |]. unfold int_key. simpl. lia.
  - eapply Forall_impl; [apply (IH (S k)) |]. intros y [Hy Hlt].
    split; [done | lia].
Qed.

(** Records numbered in ascending order are left as they are by the
    sort. *)
Lemma sort_numbered_from (k : nat) (acc : list (string * string * string)) :
  sort_by_number (numbered_from k acc) = Ok (numbered_from k acc).
Proof.
  revert k. induction acc as [| x acc IH]; intros k; [done |].
  rewrite numbered_from_cons. cbn [sort_by_number]. rewrite IH.
  cbn [mbind result_bind]. apply insert_before_greater; [by eexists |].
  eapply Forall_impl; [apply (numbered_from_keys (S k)) |].
  intros y [Hy Hlt]. split; [done |]. unfold int_key at 1. simpl. lia.
Qed.

Lemma collect_fields fs completion (chs : list channel_info) :
  item_fields <$> collect fs completion chs = item_fields <$> chs.
Proof.
  apply list_eq; intros j; rewrite !list_lookup_fmap, collect_lookup;
    destruct (decide (j ∈ completion)); try done;
    destruct (chs !! j) as [ch |]; simpl; try done;
    unfold resolved_channel; by destruct (fs !! j) as [[u | err] |].
Qed.

Lemma numbered_from_fields (k : nat) (acc : list (string * string * string)) :
  item_fields <$> numbered_from k acc = acc ∧
  number <$> numbered_from k acc
  = (fun i => VInt (Z.of_nat (k + i) + 1)) <$> seq 0 (length acc).
Proof.
  revert k. induction acc as [| [[n tok] l] acc IH]; intros k; [done |].
  rewrite numbered_from_cons, !fmap_cons. destruct (IH (S k)) as [-> ->].
  split; [done |]. cbn [length seq]. rewrite fmap_cons, Nat.add_0_r. f_equal.
  rewrite <- seq_shift, <- list_fmap_compose. apply list_fmap_ext.
  intros i y _. simpl. by rewrite Nat.add_succ_r.
Qed.

Section FirstRun.
Variable urljoin : string -> string -> option string.

(** The first run.  A scraper that found no mapping file, or could not
    read it, and a listing whose accepted items carry pairwise distinct
    names: [scrape_streams] returns, the catalog lists the accepted items in
    the order of the listing and numbers them 1, 2, 3, ... in this order,
    and the mapping it writes is the one of that many calls of
    [_assign_channel_number] from the empty mapping.  Without resolution the
    catalog is these records and nothing else. *)
Theorem first_run_numbers_listing_order (url : string)
    (file : option (result (gmap string value))) (items : list li_item)
    (fetch_urls : bool) (net : nat -> string -> result response)
    (completion : list nat) :
  let s := IPTVScraper url file in
  let acc := omap (accepted_item urljoin (base_url s)) items in
  _load_channel_mapping file = ∅ →
  NoDup (accepted_name <$> acc) →
  ∃ chs s',
    scrape_streams urljoin s (Ok items) fetch_urls net completion = (Ok chs, s') ∧
    item_fields <$> chs = acc ∧
    number <$> chs = (fun i => VInt (Z.of_nat i + 1)) <$> seq 0 (length acc) ∧
    channel_mapping s' = registry_after (accepted_name <$> acc) ∧
    (fetch_urls = false → chs = numbered_in_order acc).
Proof.
  intros s acc Hfile Hnd.
  destruct (parse_items_assign_all urljoin s items) as [Hm Hc].
  fold acc in Hm, Hc. cbn [channels s IPTVScraper app] in Hc.
  assert (channel_mapping s = ∅) as Hempty by exact Hfile.
  rewrite Hempty in Hm, Hc.
  rewrite (assign_all_fresh ∅ acc dense_empty Hnd) in Hc
    by (intros n _; apply lookup_empty).
  rewrite map_size_empty in Hc. fold (numbered_in_order acc) in Hc.
  destruct (numbered_from_fields 0 acc) as [Hfields Hnums].
  fold (numbered_in_order acc) in Hfields, Hnums.
  unfold scrape_streams, parse_html. rewrite Hc.
  unfold numbered_in_order at 1. rewrite sort_numbered_from.
  fold (numbered_in_order acc).
  destruct fetch_urls; eexists _, _; (split; [reflexivity |]); cbn [channels].
  - rewrite collect_fields, (proj1 (collect_numbers _ _ _)).
    split; [done |]. split; [done |]. split; [exact Hm | done].
  - split; [done |]. split; [done |]. split; [exact Hm | done].
Qed.
End FirstRun.

(** A first run over three items, the second of which has no image. *)
Lemma first_run_numbers_listing_order_witness :
  let items := [item_demo "30" (Some "C"); {| link := None; img := None |};
                item_demo "10" (Some "A")] in
  let net (idx : nat) (url : string) : result response := Raise Timeout in
  let s := IPTVScraper "http://103.144.89.251" None in
  let acc := omap (accepted_item join_demo (base_url s)) items in
  accepted_name <$> acc = ["C"; "A"] ∧
  ∃ chs s',
    scrape_streams join_demo s (Ok items) false net [] = (Ok chs, s') ∧
    item_fields <$> chs = acc ∧
    number <$> chs = (fun i => VInt (Z.of_nat i + 1)) <$> seq 0 (length acc) ∧
    channel_mapping s' = registry_after (accepted_name <$> acc) ∧
    (false = false → chs = numbered_in_order acc).
Proof.
  intros items net s acc. split; [vm_compute; reflexivity |].
  apply (first_run_numbers_listing_order join_demo "http://103.144.89.251" None
           items false net []).
  - reflexivity.
  - change (NoDup ["C"; "A"]). by apply (bool_decide_unpack _).
Defined.

(* ===================================================================== *)
(** * A mapping file with a value that is no integer *)
(* ===================================================================== *)

Lemma records_malformed (m : gmap string value)
    (acc : list (string * string * string)) :
  (∃ k v, m !! k = Some v ∧ int_of_value v = None) →
  let rs := fst (assign_all m (accepted_name <$> acc)) in
  snd (assign_all m (accepted_name <$> acc)) = m ∧
  item_fields <$> records acc rs
  = filter (fun x => is_Some (m !! accepted_name x)) acc ∧
  Forall (fun c => m !! name c = Some (number c)) (records acc rs).
Proof.
  intros (k & v & Hk & Hv). induction acc as [| [[n tok] l] acc IH];
    [by repeat split |].
  destruct IH as (IHm & IHf & IHl).
  rewrite fmap_cons. change (accepted_name (n, tok, l)) with n.
  cbv zeta. rewrite assign_all_cons, filter_cons.
  change (accepted_name (n, tok, l)) with n.
  destruct (m !! n) as [w |] eqn:Hn.
  - rewrite (assign_existing m n w Hn). cbn [fst snd records].
    rewrite decide_True by eauto. rewrite fmap_cons, IHf.
    split; [done |]. split; [done |]. by constructor.
  - rewrite (assign_new_malformed m n k v Hn Hk Hv). cbn [fst snd records].
    rewrite decide_False by (by intros [? ?]). done.
Qed.

Section Malformed.
Variable urljoin : string -> string -> option string.

(** One value of the mapping that is no integer (a hand-edited file, say)
    and every channel the mapping does not hold is dropped: the call that
    would number it raises [ValueError] inside the loop of [parse_html],
    which prints the error and goes on.  The loop appends the records of
    the known channels only, each with the number stored for its name, and
    leaves the mapping as it was. *)
Theorem malformed_registry_drops_new_channels (s : scraper)
    (items : list li_item) :
  (∃ k v, channel_mapping s !! k = Some v ∧ int_of_value v = None) →
  let s' := parse_items urljoin s items in
  let acc := omap (accepted_item urljoin (base_url s)) items in
  channel_mapping s' = channel_mapping s ∧
  ∃ new,
    channels s' = (channels s ++ new)%list ∧
    item_fields <$> new
    = filter (fun x => is_Some (channel_mapping s !! accepted_name x)) acc ∧
    Forall (fun c => channel_mapping s !! name c = Some (number c)) new.
Proof.
  intros Hbad s' acc.
  destruct (parse_items_assign_all urljoin s items) as [Hm Hc].
  fold acc in Hm, Hc.
  destruct (records_malformed (channel_mapping s) acc Hbad) as (H1 & H2 & H3).
  split; [unfold s'; by rewrite Hm |].
  eexists. split; [exact Hc |]. by split.
Qed.
End Malformed.

(** A mapping file in which the number of A was replaced by a word, and a
    listing with A and the new channel B: B is dropped. *)
Lemma malformed_registry_drops_new_channels_witness :
  let s := init_demo {[ "A" := VStr "one" ]} in
  let items := [item_demo "10" (Some "A"); item_demo "20" (Some "B")] in
  let s' := parse_items join_demo s items in
  let acc := omap (accepted_item join_demo (base_url s)) items in
  name <$> channels s' = ["A"] ∧
  channel_mapping s' = channel_mapping s ∧
  ∃ new,
    channels s' = (channels s ++ new)%list ∧
    item_fields <$> new
    = filter (fun x => is_Some (channel_mapping s !! accepted_name x)) acc ∧
    Forall (fun c => channel_mapping s !! name c = Some (number c)) new.
Proof.
  intros s items s' acc. split; [vm_compute; reflexivity |].
  apply (malformed_registry_drops_new_channels join_demo s items).
  exists "A", (VStr "one"). split; [| vm_compute; reflexivity].
  unfold s, init_demo. simpl. apply lookup_singleton_eq.
Defined.
